(** * git-rewind: the background job queue and the incremental commit fetch

    A shallow embedding of the job-processing core of the server, and what
    holds of it.

    The program:
    - [Js]           values of the host language the code depends on;
    - [JobQueue]     queue.ts, class [JobQueue] (one worker, FIFO wait-list);
    - [Sink]         fetcher.ts, [getCommitFromDB] and [saveCommitToDB];
    - [Annotation]   fetcher.ts and index.js, [analyzeCommitWithAI];
    - [Orchestrator] server index.ts, the "fetch-commits" branch of the
                     worker registered with [jobQueue.setWorker];
    - [Cli]          index.js, the loop of [main] over the commits of a
                     repository;
    - [Sample]       concrete inputs.

    The facts: [JobQueueFacts], [SinkFacts], [AnnotationFacts],
    [OrchestratorFacts], [CliFacts].

    JavaScript objects that are shared and mutated in place (the [Job]
    records held by the queue's [Map]) live in an explicit store and are
    named by their allocation index.  Asynchronous code is a transition
    system: a call on the queue runs up to its [await], and the settlement
    of the awaited promise is a transition of its own, so that anything may
    happen in between. *)

From Stdlib Require Import PrimFloat PrimInt63.
From stdpp Require Import gmap strings list sorting pretty.

#[local] Set Warnings "-clear-no-such-hyp".



(** ** Values of the host language *)

Module Js.

(** What a [catch (error: any)] clause can receive.  A caller-supplied
    function may throw, or reject with, any value: [null] and [undefined]
    have no properties at all (reading [error.message] raises a
    [TypeError]); every other value has a [message] that is either a
    non-empty string, or absent/empty. *)
Inductive Thrown : Type :=
| ThrownNullish
| ThrownValue (message : option string).

(** [s || fallback] on an optional string: [undefined] and the empty
    string are falsy. *)
Definition or_else (m : option string) (fallback : string) : string :=
  match m with
  | Some s => if String.eqb s "" then fallback else s
  | None => fallback
  end.

(** Truthiness of [string | null]. *)
Definition truthy (m : option string) : bool :=
  match m with
  | Some s => negb (String.eqb s "")
  | None => false
  end.

(** [Date] values and [Date.now()]: milliseconds since the epoch. *)
Abbreviation Date := Z (only parsing).

(** [number]: IEEE 754 binary64, as the kernel's primitive floats. *)
Abbreviation number := float (only parsing).

Fixpoint int_of_nat (n : nat) : int :=
  match n with
  | O => 0%uint63
  | S k => PrimInt63.add (int_of_nat k) 1%uint63
  end.

Definition number_of_nat (n : nat) : number := of_uint63 (int_of_nat n).

(** [Math.floor] on the range [0, 2^51): adding and subtracting 2^52
    rounds to an integer, which is then corrected downwards. *)
Definition two52 : number := 4503599627370496%float.

Definition Math_floor (x : number) : number :=
  let t := ((x + two52) - two52)%float in
  if PrimFloat.ltb x t then (t - 1)%float else t.

(** [Math.round]: the nearest integer, ties towards +infinity. *)
Definition Math_round (x : number) : number :=
  let r := Math_floor x in
  if PrimFloat.leb 0.5%float (x - r)%float then (r + 1)%float else r.

(** How a call ends: it returns a value, or an exception leaves it, an
    [Error] object with the message given. *)
Inductive Completion (A : Type) : Type :=
| Returned (v : A)
| Raised (message : string).

Arguments Returned {A} v.
Arguments Raised {A} message.

End Js.

(** ** queue.ts: the job queue *)

Module JobQueue.

Import Js.

Inductive JobType : Type := fetch_commits | fetch_all.

(** The status 'processing' is written [processing_]: [processing] is
    the flag of the class. *)
Inductive Status : Type := pending | processing_ | completed | failed.

#[global] Instance Status_eq_dec : EqDecision Status.
Proof. solve_decision. Defined.

Definition type_name (ty : JobType) : string :=
  match ty with
  | fetch_commits => "fetch-commits"
  | fetch_all => "fetch-all"
  end.

Definition terminal (st : Status) : bool :=
  match st with
  | completed | failed => true
  | pending | processing_ => false
  end.

(** The events of the [EventEmitter]. *)
Inductive EventName : Type :=
  job_added | job_started | job_progress | job_completed | job_failed.

(** A job object is named by its place in the store. *)
Abbreviation ref := nat (only parsing).

(** A registered worker function is named by a handle; what the function
    does is the environment's choice and shows up as calls on the queue
    and as the settlement of the promise it returned. *)
Abbreviation Worker := nat (only parsing).

(** What the queue does that an observer can see, most recent first:
    events emitted, the worker being called with a job, the queue resuming
    after the worker's promise settled, and [processNext] itself failing
    with an exception nobody handles. *)
Inductive Obs : Type :=
| Emit (e : EventName) (l : ref)
| Invoke (w : Worker) (l : ref)
| Resume (l : ref)
| Uncaught.

Fixpoint remove_first (l : ref) (ls : list ref) : list ref :=
  match ls with
  | [] => []
  | x :: t => if decide (x = l) then t else x :: remove_first l t
  end.

(** Reading a log (most recent first): the jobs the worker was called with,
    and the invocations that have not been resumed. *)
Fixpoint starts (lg : list Obs) : list ref :=
  match lg with
  | [] => []
  | Invoke _ l :: t => l :: starts t
  | _ :: t => starts t
  end.

Fixpoint in_flight (lg : list Obs) : list ref :=
  match lg with
  | [] => []
  | Invoke _ l :: t => l :: in_flight t
  | Resume l :: t => remove_first l (in_flight t)
  | _ :: t => in_flight t
  end.

(** The jobs announced by a 'job-added' event, and: the log shows that job
    [a] was enqueued before job [b]. *)
Fixpoint added (lg : list Obs) : list ref :=
  match lg with
  | [] => []
  | Emit job_added l :: t => l :: added t
  | _ :: t => added t
  end.

Definition added_before (a b : ref) (lg : list Obs) : Prop :=
  ∃ x y z, lg = x ++ Emit job_added b :: y ++ Emit job_added a :: z.

(** At no moment of the history were two invocations in flight. *)
Fixpoint serial (lg : list Obs) : Prop :=
  match lg with
  | [] => True
  | _ :: t => length (in_flight lg) ≤ 1 ∧ serial t
  end.

Section Queue.

(** [data: any] and [result: any]: payloads the queue never inspects. *)
Context {any : Type}.

Record Job : Type := mkJob {
  id : string;
  type : JobType;
  data : any;
  status : Status;
  progress : option number;
  result : option any;
  error : option string;
  createdAt : Date;
  startedAt : option Date;
  completedAt : option Date
}.

Definition set_status (st : Status) (j : Job) : Job :=
  mkJob (id j) (type j) (data j) st (progress j) (result j) (error j)
        (createdAt j) (startedAt j) (completedAt j).

Definition set_progress (p : number) (j : Job) : Job :=
  mkJob (id j) (type j) (data j) (status j) (Some p) (result j) (error j)
        (createdAt j) (startedAt j) (completedAt j).

Definition set_result (r : any) (j : Job) : Job :=
  mkJob (id j) (type j) (data j) (status j) (progress j) (Some r) (error j)
        (createdAt j) (startedAt j) (completedAt j).

Definition set_error (e : string) (j : Job) : Job :=
  mkJob (id j) (type j) (data j) (status j) (progress j) (result j) (Some e)
        (createdAt j) (startedAt j) (completedAt j).

Definition set_startedAt (t : Date) (j : Job) : Job :=
  mkJob (id j) (type j) (data j) (status j) (progress j) (result j) (error j)
        (createdAt j) (Some t) (completedAt j).

Definition set_completedAt (t : Date) (j : Job) : Job :=
  mkJob (id j) (type j) (data j) (status j) (progress j) (result j) (error j)
        (createdAt j) (startedAt j) (Some t).

(** The fields of the class, the store of job objects, the worker
    invocations whose promise has not settled yet, and the log.  The [Map]
    holds references: [jobs] sends an id to the place of the object in
    [heap], and [processNext] keeps the reference it read across the
    [await]. *)
Record State : Type := mkState {
  jobs : gmap string ref;
  queue : list string;
  processing : bool;
  worker : option Worker;
  heap : list Job;
  awaiting : list ref;
  log : list Obs
}.

Definition init : State := mkState ∅ [] false None [] [] [].

(** [getJob] *)
Definition getJob (jobId : string) (s : State) : option Job :=
  l ← jobs s !! jobId; heap s !! l.

(** [setWorker] *)
Definition setWorker (w : Worker) (s : State) : State :=
  mkState (jobs s) (queue s) (processing s) (Some w) (heap s) (awaiting s) (log s).

(** [updateProgress] *)
Definition updateProgress (jobId : string) (p : number) (s : State) : State :=
  match jobs s !! jobId with
  | Some l =>
      mkState (jobs s) (queue s) (processing s) (worker s)
              (alter (set_progress p) l (heap s))
              (awaiting s)
              (Emit job_progress l :: log s)
  | None => s
  end.

(** [processNext], from the point where [this.processing] was found
    clear, with [q] the contents of [this.queue].  The part up to the
    [await]: the flag is set, the head is shifted, and either the worker
    is called with the job, or the id is dropped and [processNext] runs
    again on the rest. *)
Fixpoint processNext_from (q : list string) (now : Date) (s : State) : State :=
  match q with
  | [] => s
  | jobId :: rest =>
      if String.eqb jobId "" then
        mkState (jobs s) rest false (worker s) (heap s) (awaiting s) (log s)
      else
        match jobs s !! jobId, worker s with
        | Some l, Some w =>
            mkState (jobs s) rest true (worker s)
                    (alter (λ j, set_startedAt now (set_status processing_ j)) l (heap s))
                    (l :: awaiting s)
                    (Invoke w l :: Emit job_started l :: log s)
        | _, _ =>
            processNext_from rest now
              (mkState (jobs s) rest false (worker s) (heap s) (awaiting s) (log s))
        end
  end.

Definition processNext (now : Date) (s : State) : State :=
  if processing s then s else processNext_from (queue s) now s.

(** [addJob]; [now] is the clock and [rnd] the base-36 digits taken from
    [Math.random()].  A call on the queue runs to its end (or to an
    [await]) without interruption; here the readings of the clock within
    the call are taken to agree ([addJob_at] below tells them apart).
    No listener is registered for the events anywhere in the program, so
    [emit] only shows in the log. *)
Definition mk_jobId (ty : JobType) (now : Date) (rnd : string) : string :=
  type_name ty +:+ "_" +:+ pretty now +:+ "_" +:+ rnd.

Definition addJob (ty : JobType) (d : any) (now : Date) (rnd : string)
    (s : State) : string * State :=
  let jobId := mk_jobId ty now rnd in
  let job := mkJob jobId ty d pending None None None now None None in
  let l := length (heap s) in
  (jobId,
   processNext now
     (mkState (<[jobId := l]> (jobs s)) (queue s ++ [jobId]) (processing s)
              (worker s) (heap s ++ [job]) (awaiting s)
              (Emit job_added l :: log s))).


(** The outcome of the promise returned by the worker. *)
Inductive Outcome : Type :=
| Resolved (r : any)
| Rejected (e : Thrown).

(** [processNext] after the [await]: the [try] block completes or the
    [catch] block runs, then the flag is cleared and [processNext] is
    called again.  In the [catch] block [error.message] is read after
    the status was set: on [null] or [undefined] that read raises, and
    the rest of the function is skipped. *)
Definition resume (l : ref) (o : Outcome) (now : Date) (s : State) : State :=
  match o with
  | Resolved r =>
      processNext now
        (mkState (jobs s) (queue s) false (worker s)
           (alter (λ j, set_completedAt now (set_result r (set_status completed j))) l (heap s))
           (awaiting s)
           (Emit job_completed l :: log s))
  | Rejected ThrownNullish =>
      mkState (jobs s) (queue s) (processing s) (worker s)
              (alter (set_status failed) l (heap s))
              (awaiting s)
              (Uncaught :: log s)
  | Rejected (ThrownValue m) =>
      processNext now
        (mkState (jobs s) (queue s) false (worker s)
           (alter (λ j, set_completedAt now
                          (set_error (or_else m "Unknown error") (set_status failed j)))
                  l (heap s))
           (awaiting s)
           (Emit job_failed l :: log s))
  end.

(** The promise of the invocation on [l] settles; a settlement for an
    invocation that is not in flight does not exist. *)
Definition settle (l : ref) (o : Outcome) (now : Date) (s : State) : State :=
  if decide (l ∈ awaiting s) then
    resume l o now
      (mkState (jobs s) (queue s) (processing s) (worker s) (heap s)
               (remove_first l (awaiting s)) (Resume l :: log s))
  else s.

(** [cleanupOldJobs]: the entries deleted from the [Map]. *)
Definition collectable (h : list Job) (oneHourAgo : Date) (l : ref) : bool :=
  match h !! l with
  | Some j =>
      terminal (status j) &&
      match completedAt j with
      | Some c => (c <? oneHourAgo)%Z
      | None => false
      end
  | None => false
  end.

Definition cleanupOldJobs (now : Date) (s : State) : State :=
  let oneHourAgo := (now - 60 * 60 * 1000)%Z in
  mkState (filter (λ kv, collectable (heap s) oneHourAgo kv.2 = false) (jobs s))
          (queue s) (processing s) (worker s) (heap s) (awaiting s) (log s).

(** [getAllJobs], [getJobsByStatus] and [getStats] *)
Definition getAllJobs (s : State) : list Job :=
  omap (λ kv, heap s !! kv.2) (map_to_list (jobs s)).

Definition getJobsByStatus (st : Status) (s : State) : list Job :=
  filter (λ j, status j = st) (getAllJobs s).

Record Stats : Type := mkStats {
  total : nat;
  n_pending : nat;
  n_processing : nat;
  n_completed : nat;
  n_failed : nat
}.

Definition getStats (s : State) : Stats :=
  mkStats (length (getAllJobs s))
          (length (getJobsByStatus pending s))
          (length (getJobsByStatus processing_ s))
          (length (getJobsByStatus completed s))
          (length (getJobsByStatus failed s)).

(** Everything that can happen to the queue: the public methods, and the
    settlement of a worker invocation. *)
Inductive Call : Type :=
| CsetWorker (w : Worker)
| CaddJob (ty : JobType) (d : any) (now : Date) (rnd : string)
| CupdateProgress (jobId : string) (p : number)
| CcleanupOldJobs (now : Date)
| Csettle (l : ref) (o : Outcome) (now : Date).

Definition step (s : State) (c : Call) : State :=
  match c with
  | CsetWorker w => setWorker w s
  | CaddJob ty d now rnd => (addJob ty d now rnd s).2
  | CupdateProgress jobId p => updateProgress jobId p s
  | CcleanupOldJobs now => cleanupOldJobs now s
  | Csettle l o now => settle l o now s
  end.

Definition run (cs : list Call) (s : State) : State := fold_left step cs s.

(** The identifiers generated by the [addJob] calls of a run. *)
Definition added_id (c : Call) : option string :=
  match c with
  | CaddJob ty _ now rnd => Some (mk_jobId ty now rnd)
  | _ => None
  end.

Definition added_ids (cs : list Call) : list string := omap added_id cs.

Definition is_setWorker (c : Call) : bool :=
  match c with
  | CsetWorker _ => true
  | _ => false
  end.

End Queue.

(** *** Invariants of the queue *)

Section Invariants.

Context {any : Type}.

#[local] Abbreviation State := (@State any).
#[local] Abbreviation Call := (@Call any).

(** The invocations in flight are those the log shows, never more than one,
    and none while the flag is clear. *)
Definition Mutex (s : State) : Prop :=
  awaiting s = in_flight (log s) ∧ serial (log s) ∧
  length (awaiting s) ≤ 1 ∧ (processing s = false → awaiting s = []).

(** The job objects the ids of the wait-list stand for. *)
Definition queue_refs (s : State) : list ref := omap (λ jid, jobs s !! jid) (queue s).

(** An identifier no job object carries. *)
Definition fresh (s : State) (jid : string) : Prop := ∀ l j, heap s !! l = Some j → id j ≠ jid.

(** The shape of a state in which identifiers were never reused: the map
    sends an id to an object carrying it; the wait-list holds known,
    non-empty ids of pending jobs; and the jobs started so far, in the order
    they were started, followed by the jobs still waiting, in the order they
    wait, are in the order in which they were allocated by [addJob]. *)
Record WF (s : State) : Prop := mkWF {
  wf_ids : ∀ jid l, jobs s !! jid = Some l → ∃ j, heap s !! l = Some j ∧ id j = jid;
  wf_queue : Forall (λ jid, jid ≠ "" ∧ is_Some (jobs s !! jid)) (queue s);
  wf_sorted : StronglySorted lt (reverse (starts (log s)) ++ queue_refs s);
  wf_pending : Forall (λ l, ∃ j, heap s !! l = Some j ∧ status j = pending) (queue_refs s);
  wf_started : Forall (λ l, l < length (heap s)) (starts (log s))
}.

Definition drained (s : State) : State :=
  mkState (jobs s) [] false None (heap s) (awaiting s) (log s).

Definition dispatched (now : Date) (w : Worker) (l : ref) (rest : list string)
    (s : State) : State :=
  mkState (jobs s) rest true (Some w)
          (alter (λ j, set_startedAt now (set_status processing_ j)) l (heap s))
          (l :: awaiting s)
          (Invoke w l :: Emit job_started l :: log s).

(** Every job allocated so far was handed to the worker or is waiting. *)
Definition Complete (s : State) : Prop :=
  ∀ l, l < length (heap s) → l ∈ starts (log s) ∨ l ∈ queue_refs s.

(** A worker is registered before anything else happens, as index.ts does
    when the module is loaded. *)
Definition worker_first (cs : list Call) : Prop := ∃ w0 cs', cs = CsetWorker w0 :: cs'.

(** A job that is known and pending but neither waiting nor ever started. *)
Definition Orphan (jid : string) (l : ref) (s : State) : Prop :=
  jobs s !! jid = Some l ∧
  (∃ j, heap s !! l = Some j ∧ id j = jid ∧ status j = pending) ∧
  (jid ∉ queue s) ∧
  (l ∉ starts (log s)).

(** Without a worker the queue never keeps anything waiting. *)
Definition Idle (s : State) : Prop :=
  worker s = None ∧ processing s = false ∧ queue s = [].

(** The promise of a worker rejected with [null] or [undefined]. *)
Definition is_nullish_settle (c : Call) : bool :=
  match c with
  | Csettle _ (Rejected ThrownNullish) _ => true
  | _ => false
  end.

(** Two job objects that differ at most in [progress]. *)
Definition same_but_progress (j j' : @Job any) : Prop :=
  id j = id j' ∧ type j = type j' ∧ data j = data j' ∧ status j = status j' ∧
  result j = result j' ∧ error j = error j' ∧ createdAt j = createdAt j' ∧
  startedAt j = startedAt j' ∧ completedAt j = completedAt j'.

(** What [processNext] writes to a job when the worker's promise settled
    with something other than [null] or [undefined]. *)
Definition recorded (o : @Outcome any) (now : Date) (j : @Job any) : @Job any :=
  match o with
  | Resolved r => set_completedAt now (set_result r (set_status completed j))
  | Rejected (ThrownValue m) =>
      set_completedAt now (set_error (or_else m "Unknown error") (set_status failed j))
  | Rejected ThrownNullish => set_status failed j
  end.

(** Every sweep of the run comes no later than an hour after [t]. *)
Definition sweeps_within (t : Date) (c : Call) : Prop :=
  match c with
  | CcleanupOldJobs now => (now - 60 * 60 * 1000 ≤ t)%Z
  | _ => True
  end.

(** The job in flight is known under its id and has the status
    'processing'. *)
Definition Tracked (s : State) : Prop :=
  ∀ l, l ∈ awaiting s →
    ∃ j, heap s !! l = Some j ∧ jobs s !! id j = Some l ∧ status j = processing_.

(** No job object has the status 'processing' unless it is in flight. *)
Definition Accounted (s : State) : Prop :=
  ∀ l j, heap s !! l = Some j → status j = processing_ → l ∈ awaiting s.

(** A finished job [jid], as it was recorded, still known. *)
Definition Kept (jid : string) (l : ref) (jrec : @Job any) (s : State) : Prop :=
  jobs s !! jid = Some l ∧
  (∃ j, heap s !! l = Some j ∧ same_but_progress j jrec) ∧
  (jid ∉ queue s) ∧ (l ∉ awaiting s).

(** With a worker, the flag is set exactly while an invocation is in
    flight, and nothing waits while it is clear. *)
Definition Busy (s : State) : Prop :=
  is_Some (worker s) ∧
  Forall (λ jid, jid ≠ "") (queue s) ∧
  (processing s = false → queue s = [] ∧ awaiting s = []) ∧
  (processing s = true → ∃ l, awaiting s = [l]).

(** With a worker, a pending job is a waiting job. *)
Definition Waiting (s : State) : Prop :=
  ∀ l j, heap s !! l = Some j → status j = pending → l ∈ queue_refs s.

(** What holds of a queue that started with a worker and never met a
    promise rejected with [null] or [undefined]. *)
Definition Sound (s : State) : Prop := Busy s ∧ Accounted s ∧ Waiting s.

(** The job [jid] existed and is no longer known. *)
Definition Gone (jid : string) (s : State) : Prop :=
  jobs s !! jid = None ∧ jid ∈ (id <$> heap s).

(** The promise of the invocation in flight settles as [how] says, then
    the promise of the next one, and so on, [n] times at most. *)
Fixpoint drain (how : ref → @Outcome any * Date) (n : nat) (s : State) : State :=
  match n with
  | O => s
  | S n' =>
      match awaiting s with
      | l :: _ => drain how n' (step s (Csettle l (how l).1 (how l).2))
      | [] => s
      end
  end.

End Invariants.

End JobQueue.

(** ** fetcher.ts: the persistence sink *)

Module Sink.

Import Js.

(** One entry of [CommitData.files]. *)
Module FileEntry.

Record t : Type := mk {
  filename : string;
  status : string;
  additions : Z;
  deletions : Z;
  changes : Z;
  patch : option string
}.

End FileEntry.

Record CommitData : Type := mkCommitData {
  sha : string;
  fullSha : string;
  repo : string;
  message : string;
  author : string;
  authorEmail : string;
  date : string;
  additions : Z;
  deletions : Z;
  totalChanges : Z;
  filesChanged : Z;
  files : list FileEntry.t
}.

(** The columns written to the table [commits]. *)
Module commits.

Record row : Type := mk {
  sha : string;
  full_sha : string;
  repo : string;
  message : string;
  author : string;
  author_email : string;
  date : string;
  additions : Z;
  deletions : Z;
  total_changes : Z;
  files_changed : Z;
  ai_summary : option string;
  ai_analyzed_at : option string
}.

End commits.

(** The columns written to the table [commit_files]. *)
Module commit_files.

Record row : Type := mk {
  commit_sha : string;
  filename : string;
  status : string;
  additions : Z;
  deletions : Z;
  changes : Z;
  patch : option string
}.

End commit_files.

(** What the SQL engine does with the three prepared statements of the
    fetcher when they succeed.  "INSERT OR REPLACE" removes the rows that
    clash with a uniqueness constraint of the table, and db.ts and index.js
    declare the tables with different constraints; so the effect of a
    statement is left to the engine. *)
Class Engine (DB : Type) : Type := mkEngine {
  insertCommit_run : commits.row → DB → DB;
  insertFile_run : commit_files.row → DB → DB;
  select_ai_summary : string → DB → option (option string)
}.

(** The statement of a transaction that raises, if any, with the message of
    its [SqliteError]: statement 0 is [insertCommit.run], statements
    1 .. n are the [insertFile.run] of the n files, statement n+1 is the
    COMMIT. *)
Abbreviation Faults := (nat → option string).

(** [db.transaction(fn)()] of better-sqlite3: BEGIN, [fn], COMMIT; when
    [fn] or the COMMIT raises, ROLLBACK and raise again.  [fn] returns the
    database as it left it, and the error it raised, if any. *)
Definition transaction {DB : Type} (fn : DB → DB * option string)
    (commit_error : option string) (db : DB) : DB * option string :=
  match fn db with
  | (db', None) =>
      match commit_error with
      | None => (db', None)
      | Some e => (db, Some e)
      end
  | (_, Some e) => (db, Some e)
  end.

Section Sink.

Context {DB : Type} `{!Engine DB}.

(** [getCommitFromDB]: the [ai_summary] column of the row, or [null]. *)
Definition getCommitFromDB (fullSha : string) (db : DB) : option (option string) :=
  select_ai_summary fullSha db.

Definition commit_row (c : CommitData) (aiSummary : option string)
    (now_iso : string) : commits.row :=
  commits.mk (sha c) (fullSha c) (repo c) (message c) (author c) (authorEmail c)
             (date c) (additions c) (deletions c) (totalChanges c) (filesChanged c)
             aiSummary
             (if truthy aiSummary then Some now_iso else None).

Definition file_row (c : CommitData) (f : FileEntry.t) : commit_files.row :=
  commit_files.mk (fullSha c) (FileEntry.filename f) (FileEntry.status f)
                  (FileEntry.additions f) (FileEntry.deletions f)
                  (FileEntry.changes f)
                  (if truthy (FileEntry.patch f) then FileEntry.patch f else None).

(** The loop [for (const file of commitData.files) insertFile.run(...)],
    [k] being the number of the next statement. *)
Fixpoint insert_files (faults : Faults) (k : nat) (c : CommitData)
    (fs : list FileEntry.t) (db : DB) : DB * option string :=
  match fs with
  | [] => (db, None)
  | f :: rest =>
      match faults k with
      | Some e => (db, Some e)
      | None => insert_files faults (S k) c rest (insertFile_run (file_row c f) db)
      end
  end.

(** The function passed to [db.transaction]. *)
Definition save_body (faults : Faults) (c : CommitData) (aiSummary : option string)
    (now_iso : string) (db : DB) : DB * option string :=
  match faults 0 with
  | Some e => (db, Some e)
  | None =>
      insert_files faults 1 c (files c)
                   (insertCommit_run (commit_row c aiSummary now_iso) db)
  end.

(** [saveCommitToDB] from its [try] on: [true] when the transaction went
    through; when it raised, the error is printed and the result is
    [false].  (The two statements are prepared before the [try]; here that
    is taken to succeed, and [Raising.saveCommitToDB] has the function from
    its first line, where [db.prepare] can raise.) *)
Definition saveCommitToDB (faults : Faults) (c : CommitData)
    (aiSummary : option string) (now_iso : string) (db : DB) : bool * DB :=
  match transaction (save_body faults c aiSummary now_iso)
                    (faults (S (length (files c)))) db with
  | (db', None) => (true, db')
  | (db', Some _) => (false, db')
  end.

(** Both sub-writes applied: the commit row, then every file row. *)
Definition all_written (c : CommitData) (aiSummary : option string)
    (now_iso : string) (db : DB) : DB :=
  fold_left (λ d f, insertFile_run (file_row c f) d) (files c)
            (insertCommit_run (commit_row c aiSummary now_iso) db).

End Sink.

(** The tables as index.js [initDatabase] declares them: [commits] with
    primary key [sha] and [full_sha] unique, [commit_files] with
    (commit_sha, filename) unique. *)
Record Tables : Type := mkTables {
  commits_table : list commits.row;
  commit_files_table : list commit_files.row
}.

Definition clashes_commit (r x : commits.row) : bool :=
  String.eqb (commits.sha x) (commits.sha r) ||
  String.eqb (commits.full_sha x) (commits.full_sha r).

Definition clashes_file (r x : commit_files.row) : bool :=
  String.eqb (commit_files.commit_sha x) (commit_files.commit_sha r) &&
  String.eqb (commit_files.filename x) (commit_files.filename r).

Definition find_commit (fullSha : string) (rows : list commits.row) : option commits.row :=
  List.find (λ x, String.eqb (commits.full_sha x) fullSha) rows.

#[global] Instance index_js_engine : Engine Tables := {|
  insertCommit_run r db :=
    mkTables (List.filter (λ x, negb (clashes_commit r x)) (commits_table db) ++ [r])
             (commit_files_table db);
  insertFile_run r db :=
    mkTables (commits_table db)
             (List.filter (λ x, negb (clashes_file r x)) (commit_files_table db) ++ [r]);
  select_ai_summary fullSha db :=
    commits.ai_summary <$> find_commit fullSha (commits_table db)
|}.


End Sink.

(** ** fetcher.ts and index.js: the annotation step *)

Module Annotation.

Import Js Sink.

(** [response.choices?.[0]?.message?.content]: a string, or something else
    (no choice, [null], [undefined], an array of content chunks). *)
Inductive Content : Type :=
| ContentText (s : string)
| ContentAbsent
| ContentChunks.

(** What [await this.mistral.chat.complete(...)] does with a client whose
    errors are [Error] objects: it yields a response, or it raises an error
    with its message.  ([Answer] below has every rejection.) *)
Inductive Reply : Type :=
| Replied (content : Content)
| CallFailed (message : string).

(** The client, as a function of the prompt it is given. *)
Abbreviation Client := (string → Reply).

(** The promise of [chat.complete] in full: it is fulfilled with a
    response, or rejected with a value, whatever that value is. *)
Inductive Answer : Type :=
| Fulfilled (content : Content)
| RejectedWith (e : Thrown).

Abbreviation Service := (string → Answer).

(** A client whose errors are [Error] objects, as a service. *)
Definition as_service (client : Client) : Service :=
  λ prompt,
    match client prompt with
    | Replied content => Fulfilled content
    | CallFailed message => RejectedWith (ThrownValue (Some message))
    end.

(** White space removed by [trim]: the white space and line terminators of
    ECMAScript.  A string is held as the bytes of its UTF-8 encoding, so
    these are the one-byte characters tab, line feed, vertical tab, form
    feed, carriage return and space; *)
Definition is_space (c : Ascii.ascii) : bool :=
  let n := Ascii.nat_of_ascii c in
  (n =? 9) || (n =? 10) || (n =? 11) || (n =? 12) || (n =? 13) || (n =? 32).

(** the two-byte character U+00A0 (C2 A0); *)
Definition is_space2 (c d : Ascii.ascii) : bool :=
  (Ascii.nat_of_ascii c =? 194) && (Ascii.nat_of_ascii d =? 160).

(** and the three-byte characters U+1680 (E1 9A 80), U+2000 to U+200A,
    U+2028, U+2029 and U+202F (E2 80 80 to 8A, A8, A9, AF), U+205F
    (E2 81 9F), U+3000 (E3 80 80) and U+FEFF (EF BB BF). *)
Definition is_space3 (c d e : Ascii.ascii) : bool :=
  let c := Ascii.nat_of_ascii c in
  let d := Ascii.nat_of_ascii d in
  let e := Ascii.nat_of_ascii e in
  ((c =? 225) && (d =? 154) && (e =? 128)) ||
  ((c =? 226) && (d =? 128) &&
   (((128 <=? e) && (e <=? 138)) || (e =? 168) || (e =? 169) || (e =? 175))) ||
  ((c =? 226) && (d =? 129) && (e =? 159)) ||
  ((c =? 227) && (d =? 128) && (e =? 128)) ||
  ((c =? 239) && (d =? 187) && (e =? 191)).

(** What follows the white-space character a string starts with, if it
    starts with one. *)
Definition after_space (s : string) : option string :=
  match s with
  | String c s1 =>
      if is_space c then Some s1
      else match s1 with
           | String d s2 =>
               if is_space2 c d then Some s2
               else match s2 with
                    | String e s3 => if is_space3 c d e then Some s3 else None
                    | EmptyString => None
                    end
           | EmptyString => None
           end
  | EmptyString => None
  end.

Fixpoint trimStart (s : string) : string :=
  match s with
  | String c s1 =>
      if is_space c then trimStart s1
      else match s1 with
           | String d s2 =>
               if is_space2 c d then trimStart s2
               else match s2 with
                    | String e s3 => if is_space3 c d e then trimStart s3 else s
                    | EmptyString => s
                    end
           | EmptyString => s
           end
  | EmptyString => EmptyString
  end.

(** From the first byte on, nothing is kept of a string that is white
    space throughout. *)
Fixpoint trimEnd (s : string) : string :=
  match s with
  | EmptyString => EmptyString
  | String c s1 =>
      if String.eqb (trimStart s) "" then EmptyString else String c (trimEnd s1)
  end.

Definition trim (s : string) : string := trimEnd (trimStart s).

Definition newline : string := String (Ascii.ascii_of_nat 10) EmptyString.

Fixpoint join (sep : string) (l : list string) : string :=
  match l with
  | [] => ""
  | [x] => x
  | x :: rest => x +:+ sep +:+ join sep rest
  end.

Definition filesInfo (c : CommitData) : string :=
  join newline
    (map (λ f, "- " +:+ FileEntry.filename f +:+ " (" +:+ FileEntry.status f +:+ "): +"
               +:+ pretty (FileEntry.additions f) +:+ "/-"
               +:+ pretty (FileEntry.deletions f))
         (files c)).

Definition prompt (c : CommitData) : string :=
  "다음 Git 커밋을 분석하고 어떤 작업을 했는지 한국어로 간단히 요약해주세요 (2-3문장):"
  +:+ newline +:+ newline
  +:+ "커밋 메시지: " +:+ message c +:+ newline +:+ newline
  +:+ "변경된 파일:" +:+ newline
  +:+ filesInfo c +:+ newline +:+ newline
  +:+ "통계: +" +:+ pretty (additions c) +:+ "/-" +:+ pretty (deletions c)
  +:+ " (" +:+ pretty (filesChanged c) +:+ "개 파일)".

(** fetcher.ts [analyzeCommitWithAI]: [null] without a client; the trimmed
    content when the content is a string, [null] when it is not; [null]
    when the call raised. *)
Definition analyzeCommitWithAI (mistral : option Client) (c : CommitData)
    : option string :=
  match mistral with
  | None => None
  | Some client =>
      match client (prompt c) with
      | Replied content =>
          match content with
          | ContentText s => Some (trim s)
          | _ => None
          end
      | CallFailed _ => None
      end
  end.

(** index.js [analyzeCommitWithAI]: [response.choices[0].message.content.trim()]
    inside the [try]; on anything but a string the property access or the
    call of [trim] raises a [TypeError], which the [catch] turns into
    [null]. *)
Definition analyzeCommitWithAI_cli (mistral : option Client) (c : CommitData)
    : option string :=
  match mistral with
  | None => None
  | Some client =>
      match client (prompt c) with
      | Replied (ContentText s) => Some (trim s)
      | Replied ContentAbsent => None
      | Replied ContentChunks => None
      | CallFailed _ => None
      end
  end.

End Annotation.

(** ** index.ts: the worker registered with the queue *)

Module Orchestrator.

Import Js Sink Annotation.

(** [getConfig]: the two settings the worker reads. *)
Record AppConfig : Type := mkAppConfig {
  github_token : option string;
  mistral_api_key : option string
}.

(** The options handed to [fetcher.getCommits]. *)
Module FetchOptions.

Record t : Type := mk {
  filterAuthors : list string;
  filterEmails : list string;
  since : Date
}.

End FetchOptions.

(** [job.data] of a "fetch-commits" job, as the route handler builds it. *)
Record FetchCommitsData : Type := mkFetchCommitsData {
  repos : list string;
  filterAuthors : option (list string);
  filterEmails : option (list string);
  since : option Date;
  limit : Z;
  useAI : bool
}.

(** One element of the job's [results]. *)
Module ResultEntry.

Record t : Type := mk {
  sha : string;
  repo : string;
  message : string;
  author : string;
  filesChanged : Z;
  additions : Z;
  deletions : Z;
  aiSummary : option string
}.

End ResultEntry.

(** The calls the worker makes, in the order it makes them. *)
Inductive Action : Type :=
| Call_updateProgress (jobId : string) (p : number)
| Call_getCommits (owner name : string) (o : FetchOptions.t)
| Call_getCommitDetailsWithDiff (owner name sha : string)
| Call_getCommitFromDB (fullSha : string)
| Call_analyzeCommitWithAI (fullSha : string)
| Call_saveCommitToDB (fullSha : string) (aiSummary : option string) (ok : bool)
| Pause (ms : Z).

(** How the worker's promise settles: with [{success, collected, results}],
    or with [new Error(message)]. *)
Inductive WorkerOutcome : Type :=
| Returns (collected : nat) (results : list ResultEntry.t)
| Throws (message : string).

(** [s.split(sep)] for a one-character separator. *)
Fixpoint split (sep : Ascii.ascii) (s : string) : list string :=
  match s with
  | EmptyString => [EmptyString]
  | String c s' =>
      if Ascii.eqb c sep then EmptyString :: split sep s'
      else match split sep s' with
           | [] => [String c EmptyString]
           | h :: t => String c h :: t
           end
  end.

(** Whether the character [c] occurs in [s]. *)
Fixpoint occurs (c : Ascii.ascii) (s : string) : bool :=
  match s with
  | EmptyString => false
  | String c' s' => Ascii.eqb c' c || occurs c s'
  end.

Definition slash : Ascii.ascii := Ascii.ascii_of_nat 47.

Definition line_feed : Ascii.ascii := Ascii.ascii_of_nat 10.

(** [message.split("\n")[0]] *)
Definition first_line (s : string) : string :=
  match split line_feed s with
  | h :: _ => h
  | [] => EmptyString
  end.

(** [a.slice(0, limit)] for an integer [limit]: a negative [limit] counts
    from the end. *)
Definition slice0 {A : Type} (l : list A) (limit : Z) : list A :=
  if (limit <? 0)%Z
  then take (Z.to_nat (Z.max 0 (Z.of_nat (length l) + limit))) l
  else take (Z.to_nat limit) l.

(** [Math.round(((i + 1) / repos.length) * 100)] *)
Definition progress_percent (i n : nat) : number :=
  Math_round ((number_of_nat (i + 1) / number_of_nat n) * 100)%float.




Definition token_missing : string :=
  "GitHub token not configured. Please generate a GitHub Personal Access Token at https://github.com/settings/tokens and configure it in the settings.".

Section Worker.

Context {DB : Type} `{!Engine DB}.

(** The remote gateway, as [fetcher.getCommits] and
    [fetcher.getCommitDetailsWithDiff] present it: both catch every error
    of the remote call themselves, the first answering with the hashes of
    the commits it found (none on an error), the second with the details
    or [null]. *)
Variable getCommits : string → string → FetchOptions.t → list string.
Variable getCommitDetailsWithDiff : string → string → string → option CommitData.

(** [new Mistral({ apiKey })] *)
Variable mistral_client : string → Client.

(** The statement that fails, if any, when a commit is saved, and the
    clock read by that save. *)
Variable faults : CommitData → Faults.
Variable toISOString_now : CommitData → string.

(** The default start of the period: thirty days before the job runs. *)
Variable thirty_days_ago : Date.

(** The body of [for (const commit of commits.slice(0, limit))]. *)
Definition process_commit (mistral : option Client) (owner name sha : string)
    (db : DB) (results : list ResultEntry.t)
    : list Action * DB * list ResultEntry.t :=
  match getCommitDetailsWithDiff owner name sha with
  | None => ([Call_getCommitDetailsWithDiff owner name sha; Pause 100], db, results)
  | Some details =>
      let existingCommit := getCommitFromDB (fullSha details) db in
      let stored :=
        match existingCommit with
        | Some summary => summary
        | None => None
        end in
      let '(asked, aiSummary) :=
        if truthy stored then ([], stored)
        else match mistral with
             | Some _ => ([Call_analyzeCommitWithAI (fullSha details)],
                          analyzeCommitWithAI mistral details)
             | None => ([], None)
             end in
      let '(ok, db') :=
        saveCommitToDB (faults details) details aiSummary (toISOString_now details) db in
      ([Call_getCommitDetailsWithDiff owner name sha;
        Call_getCommitFromDB (fullSha details)]
       ++ asked
       ++ [Call_saveCommitToDB (fullSha details) aiSummary ok; Pause 100],
       db',
       if ok
       then results ++ [ResultEntry.mk (Sink.sha details) (repo details)
                          (first_line (message details)) (author details)
                          (filesChanged details) (additions details)
                          (deletions details) aiSummary]
       else results)
  end.

Fixpoint commits_loop (mistral : option Client) (owner name : string)
    (shas : list string) (db : DB) (results : list ResultEntry.t)
    : list Action * DB * list ResultEntry.t :=
  match shas with
  | [] => ([], db, results)
  | sha :: rest =>
      let '(t1, db1, results1) := process_commit mistral owner name sha db results in
      let '(t2, db2, results2) := commits_loop mistral owner name rest db1 results1 in
      (t1 ++ t2, db2, results2)
  end.

(** [const [owner, name] = repoStr.split("/")], and the test
    [!owner || !name]. *)
Definition owner_and_name (repoStr : string) : option (string * string) :=
  match split slash repoStr with
  | owner :: name :: _ =>
      if truthy (Some owner) && truthy (Some name) then Some (owner, name) else None
  | _ => None
  end.

(** The loop [for (let i = 0; i < repos.length; i++)], from index [i] on,
    [n] being [repos.length]. *)
Fixpoint repos_loop (jobId : string) (mistral : option Client)
    (o : FetchOptions.t) (limit : Z) (i n : nat) (rs : list string)
    (db : DB) (results : list ResultEntry.t)
    : list Action * DB * list ResultEntry.t :=
  match rs with
  | [] => ([], db, results)
  | repoStr :: rest =>
      match owner_and_name repoStr with
      | None => repos_loop jobId mistral o limit (S i) n rest db results
      | Some (owner, name) =>
          let commits := getCommits owner name o in
          let '(t1, db1, results1) :=
            commits_loop mistral owner name (slice0 commits limit) db results in
          let '(t2, db2, results2) :=
            repos_loop jobId mistral o limit (S i) n rest db1 results1 in
          ([Call_updateProgress jobId (progress_percent i n);
            Call_getCommits owner name o] ++ t1 ++ t2,
           db2, results2)
      end
  end.

(** The "fetch-commits" branch of the worker, from the configuration it
    read on, when nothing raises but the test for the token: the database
    opens and closes, the statements are prepared, and the errors of the
    annotation client are [Error] objects.  [Raising.fetch_commits] has the
    branch from its first line, with these calls raising, and
    [RaisingFacts.fetch_commits_agrees] relates the two.  (The "fetch-all"
    branch hands the work to a child process and is not part of this
    development.) *)
Definition fetch_commits (jobId : string) (d : FetchCommitsData) (config : AppConfig)
    (db : DB) : list Action * DB * WorkerOutcome :=
  if negb (truthy (github_token config)) then ([], db, Throws token_missing)
  else
    let mistralClient :=
      if useAI d && truthy (mistral_api_key config)
      then mistral_client <$> mistral_api_key config
      else None in
    let o := FetchOptions.mk (default [] (filterAuthors d)) (default [] (filterEmails d))
                             (default thirty_days_ago (since d)) in
    let '(t, db', results) :=
      repos_loop jobId mistralClient o (limit d) 0 (length (repos d)) (repos d) db [] in
    (t, db', Returns (length results) results).

End Worker.

Fixpoint expected_reports (i n : nat) (rs : list string) : list number :=
  match rs with
  | [] => []
  | repoStr :: rest =>
      match owner_and_name repoStr with
      | Some _ => progress_percent i n :: expected_reports (S i) n rest
      | None => expected_reports (S i) n rest
      end
  end.

(** [data] and [result] of the jobs of this program. *)
Inductive JobValue : Type :=
| FetchCommitsJob (d : FetchCommitsData)
| FetchCommitsResult (collected : nat) (results : list ResultEntry.t)
| EmptyObject.

(** The settlement of the worker's promise, as the queue receives it. *)
Definition settlement (o : WorkerOutcome) : @JobQueue.Outcome JobValue :=
  match o with
  | Returns collected results => JobQueue.Resolved (FetchCommitsResult collected results)
  | Throws message => JobQueue.Rejected (ThrownValue (Some message))
  end.

(** Counting the calls of the worker: detail fetches, annotation calls,
    and writes that went through. *)
Definition is_detail_fetch (a : Action) : bool :=
  match a with
  | Call_getCommitDetailsWithDiff _ _ _ => true
  | _ => false
  end.

Definition is_annotation (a : Action) : bool :=
  match a with
  | Call_analyzeCommitWithAI _ => true
  | _ => false
  end.

Definition is_saved (a : Action) : bool :=
  match a with
  | Call_saveCommitToDB _ _ true => true
  | _ => false
  end.

Definition times (f : Action → bool) (t : list Action) : nat :=
  length (List.filter f t).

(** What a stretch of the worker's calls adds up to: [k] detail fetches,
    at most that many annotation calls (none without a client) and writes
    that went through, and one more result per such write. *)
Definition adds_up (mistral : option Client) (k : nat) (t : list Action)
    (results results' : list ResultEntry.t) : Prop :=
  times is_detail_fetch t = k ∧
  times is_saved t ≤ k ∧
  times is_annotation t ≤ k ∧
  (mistral = None → times is_annotation t = 0) ∧
  length results' = length results + times is_saved t.

End Orchestrator.

(** ** index.js: the loop of [main] over the commits of a repository *)

Module Cli.

Import Js Sink Annotation Orchestrator.

(** What [main] reads of a listed commit. *)
Record ListedCommit : Type := mkListedCommit {
  sha : string;
  author_name : string
}.

Section Main.

Context {DB : Type} `{!Engine DB}.

Variable getCommitDetailsWithDiff : string → string → string → option CommitData.
Variable faults : CommitData → Faults.
Variable toISOString_now : CommitData → string.

Definition with_repo (r : string) (c : CommitData) : CommitData :=
  mkCommitData (Sink.sha c) (fullSha c) r (message c) (author c) (authorEmail c)
               (date c) (additions c) (deletions c) (totalChanges c)
               (filesChanged c) (files c).

(** The body of [for (const commit of commits)]: the blacklist, then the
    look-up in the database, and only then the detail fetch. *)
Definition process_commit (blacklistAuthors : list string) (mistral : option Client)
    (owner name : string) (commit : ListedCommit) (db : DB) (allResults : list CommitData)
    : list Action * DB * list CommitData :=
  if bool_decide (blacklistAuthors ≠ []) &&
     bool_decide (author_name commit ∈ blacklistAuthors)
  then ([], db, allResults)
  else
    let existingCommit := getCommitFromDB (sha commit) db in
    let stored :=
      match existingCommit with
      | Some summary => summary
      | None => None
      end in
    if truthy stored then ([Call_getCommitFromDB (sha commit)], db, allResults)
    else
      match getCommitDetailsWithDiff owner name (sha commit) with
      | None =>
          ([Call_getCommitFromDB (sha commit);
            Call_getCommitDetailsWithDiff owner name (sha commit); Pause 100],
           db, allResults)
      | Some details =>
          let commitData := with_repo (owner +:+ "/" +:+ name) details in
          let '(asked, aiSummary) :=
            match mistral with
            | Some _ => ([Call_analyzeCommitWithAI (fullSha commitData)],
                         analyzeCommitWithAI_cli mistral commitData)
            | None => ([], None)
            end in
          let '(ok, db') :=
            saveCommitToDB (faults commitData) commitData aiSummary
                           (toISOString_now commitData) db in
          ([Call_getCommitFromDB (sha commit);
            Call_getCommitDetailsWithDiff owner name (sha commit)]
           ++ asked
           ++ [Call_saveCommitToDB (fullSha commitData) aiSummary ok; Pause 100],
           db',
           if ok then allResults ++ [commitData] else allResults)
      end.

(** The loop [for (const commit of commits)]. *)
Fixpoint commits_loop (blacklistAuthors : list string) (mistral : option Client)
    (owner name : string) (commits : list ListedCommit) (db : DB)
    (allResults : list CommitData) : list Action * DB * list CommitData :=
  match commits with
  | [] => ([], db, allResults)
  | commit :: rest =>
      let '(t1, db1, results1) :=
        process_commit blacklistAuthors mistral owner name commit db allResults in
      let '(t2, db2, results2) :=
        commits_loop blacklistAuthors mistral owner name rest db1 results1 in
      (t1 ++ t2, db2, results2)
  end.

End Main.

Definition comma : Ascii.ascii := Ascii.ascii_of_nat 44.

(** How [main] reads a list from the configuration:
    [input ? input.split(",").map((a) => a.trim()).filter((a) => a) : []]. *)
Definition parse_list (input : option string) : list string :=
  match input with
  | Some s =>
      if truthy input
      then List.filter (λ a, truthy (Some a)) (map trim (split comma s))
      else []
  | None => []
  end.

End Cli.

(** ** db.ts: the queries of the server *)

Module Db.

Import Js Sink.

Record CommitFilters : Type := mkCommitFilters {
  search : option string;
  repo : option string;
  author : option string;
  dateFrom : option string;
  dateTo : option string
}.

(** A value bound to a placeholder. *)
Inductive Param : Type :=
| Text (s : string)
| Number (n : Z).

(** [filters?.field && filters.field !== 'all'] *)
Definition chosen (v : option string) : bool :=
  truthy v && negb (bool_decide (v = Some "all")).

(** [buildWhereClause]; [filters] is [None] when the argument is left out. *)
Definition buildWhereClause (filters : option CommitFilters) : string * list Param :=
  let field (f : CommitFilters → option string) := filters ≫= f in
  let text (f : CommitFilters → option string) := default "" (field f) in
  let '(whereClause, params) := ("WHERE 1=1", []) in
  let '(whereClause, params) :=
    if truthy (field search)
    then let searchPattern := "%" +:+ text search +:+ "%" in
         (whereClause +:+ " AND (message LIKE ? OR author LIKE ? OR sha LIKE ?)",
          params ++ [Text searchPattern; Text searchPattern; Text searchPattern])
    else (whereClause, params) in
  let '(whereClause, params) :=
    if chosen (field repo)
    then (whereClause +:+ " AND repo = ?", params ++ [Text (text repo)])
    else (whereClause, params) in
  let '(whereClause, params) :=
    if chosen (field author)
    then (whereClause +:+ " AND author = ?", params ++ [Text (text author)])
    else (whereClause, params) in
  let '(whereClause, params) :=
    if truthy (field dateFrom)
    then (whereClause +:+ " AND date >= ?", params ++ [Text (text dateFrom)])
    else (whereClause, params) in
  let '(whereClause, params) :=
    if truthy (field dateTo)
    then (whereClause +:+ " AND date <= ?", params ++ [Text (text dateTo)])
    else (whereClause, params) in
  (whereClause, params).

(** The statement [getCommits] prepares and the values it binds, and the
    same for [getFilteredCount]. *)
Definition getCommits_statement (limit offset : Z) (filters : option CommitFilters)
    : string * list Param :=
  let '(whereClause, params) := buildWhereClause filters in
  ("SELECT * FROM commits " +:+ whereClause +:+ " ORDER BY date DESC LIMIT ? OFFSET ?",
   params ++ [Number limit; Number offset]).

Definition getFilteredCount_statement (filters : option CommitFilters)
    : string * list Param :=
  let '(whereClause, params) := buildWhereClause filters in
  ("SELECT COUNT(*) as count FROM commits " +:+ whereClause, params).

(** The placeholders of a statement. *)
Definition question_mark : Ascii.ascii := Ascii.ascii_of_nat 63.

Fixpoint placeholders (sql : string) : nat :=
  match sql with
  | EmptyString => 0
  | String c sql' => (if Ascii.eqb c question_mark then 1 else 0) + placeholders sql'
  end.

(** Which of the five conditions a filter switches on. *)
Definition conditions (filters : option CommitFilters) : list bool :=
  [truthy (filters ≫= search); chosen (filters ≫= repo); chosen (filters ≫= author);
   truthy (filters ≫= dateFrom); truthy (filters ≫= dateTo)].

(** [deleteCommitsByAuthors], on the rows of the two tables: the rows
    selected by [author IN (...)], the file rows deleted by
    [commit_sha IN (...)], the commit rows deleted by [author IN (...)],
    and [result.changes] of the last statement.  (The file rows that
    "ON DELETE CASCADE" would remove with the commit rows are the ones the
    statement before has removed.) *)
Definition deleteCommitsByAuthors (authors : list string) (db : Tables) : nat * Tables :=
  if length authors =? 0 then (0, db)
  else
    let commitsToDelete :=
      List.filter (λ r, bool_decide (commits.author r ∈ authors)) (commits_table db) in
    if length commitsToDelete =? 0 then (0, db)
    else
      let shas := map commits.full_sha commitsToDelete in
      let files' :=
        List.filter (λ f, negb (bool_decide (commit_files.commit_sha f ∈ shas)))
                    (commit_files_table db) in
      let commits' :=
        List.filter (λ r, negb (bool_decide (commits.author r ∈ authors)))
                    (commits_table db) in
      (length (commits_table db) - length commits', mkTables commits' files').

(** Every file row belongs to a stored commit. *)
Definition files_have_commits (db : Tables) : Prop :=
  ∀ f, f ∈ commit_files_table db →
       ∃ r, r ∈ commits_table db ∧ commits.full_sha r = commit_files.commit_sha f.

End Db.

(** ** fetcher.ts: the gateway to the remote service *)

Module Fetcher.

Import Js Sink.

(** What [await octokit. ...] does: it resolves with the [data] of the
    response, or it raises a request error. *)
Inductive Response (A : Type) : Type :=
| Resolves (data : A)
| Raises (message : string).

Arguments Resolves {A} data.
Arguments Raises {A} message.

(** What the program reads of an element of the array of
    [repos.listCommits]: [sha] (read by the callers of [getCommits]),
    [commit.author?.name], [commit.author?.email] and [author?.login]. *)
Module Listed.

Record t : Type := mk {
  sha : string;
  author_name : option string;
  author_email : option string;
  author_login : option string
}.

End Listed.

(** What [getCommitDetailsWithDiff] reads of the [data] of
    [repos.getCommit]. *)
Module Detail.

Record author_t : Type := mkAuthor {
  name : option string;
  email : option string;
  date : option string
}.

Record stats_t : Type := mkStats {
  additions : Z;
  deletions : Z;
  total : Z
}.

Record t : Type := mk {
  sha : string;
  message : string;
  author : option author_t;
  stats : option stats_t;
  files : option (list FileEntry.t)
}.

End Detail.

(** [s.includes(t)], on strings of bytes. *)
Fixpoint includes (s t : string) : bool :=
  String.prefix t s ||
  match s with
  | EmptyString => false
  | String _ s' => includes s' t
  end.

(** [n || 0] on an optional integer. *)
Definition or_zero (n : option Z) : Z := default 0%Z n.

Section Remote.

(** [String.prototype.toLowerCase] *)
Variable toLowerCase : string → string.

(** [octokit.repos.listCommits({owner, repo, since, per_page: 100, page})]
    and [octokit.repos.getCommit({owner, repo, ref})]. *)
Variable listCommits : string → string → option Date → nat → Response (list Listed.t).
Variable getCommit : string → string → string → Response Detail.t.

(** [new Date().toISOString()] *)
Variable now_iso : string.

(** [x?.toLowerCase().includes(y.toLowerCase())] *)
Definition mentions (x : option string) (y : string) : bool :=
  match x with
  | Some v => includes (toLowerCase v) (toLowerCase y)
  | None => false
  end.

(** The [while (hasMore)] loop of [getCommits], from page [page] on with
    [allCommits] collected so far; [None] when [fuel] requests were not
    enough to reach a last page. *)
Fixpoint pages_loop (owner repo : string) (since : option Date) (fuel page : nat)
    (allCommits : list Listed.t) : option (Response (list Listed.t)) :=
  match fuel with
  | O => None
  | S fuel' =>
      match listCommits owner repo since page with
      | Raises e => Some (Raises e)
      | Resolves data =>
          if length data =? 0 then Some (Resolves allCommits)
          else
            let allCommits := allCommits ++ data in
            if length data <? 100 then Some (Resolves allCommits)
            else pages_loop owner repo since fuel' (S page) allCommits
      end
  end.

(** The callback of [allCommits.filter]. *)
Definition passes (filterAuthors filterEmails : list string) (commit : Listed.t) : bool :=
  let authorName := Listed.author_name commit in
  let authorEmail := Listed.author_email commit in
  let authorLogin := Listed.author_login commit in
  let nameMatch :=
    (length filterAuthors =? 0) ||
    existsb (λ author, mentions authorName author || mentions authorLogin author)
            filterAuthors in
  let emailMatch :=
    (length filterEmails =? 0) ||
    existsb (λ email, mentions authorEmail email) filterEmails in
  if (0 <? length filterAuthors) && (0 <? length filterEmails)
  then nameMatch && emailMatch
  else nameMatch || emailMatch.

(** [getCommits]: every page, then the filter; [[]] when a request raised. *)
Definition getCommits (fuel : nat) (owner repo : string)
    (filterAuthors filterEmails : list string) (since : option Date)
    : option (list Listed.t) :=
  match pages_loop owner repo since fuel 1 [] with
  | None => None
  | Some (Raises _) => Some []
  | Some (Resolves allCommits) =>
      let hasFilters := (0 <? length filterAuthors) || (0 <? length filterEmails) in
      Some (if hasFilters
            then List.filter (passes filterAuthors filterEmails) allCommits
            else allCommits)
  end.

(** [getCommitDetailsWithDiff]: the details, or [null] when the request
    raised. *)
Definition getCommitDetailsWithDiff (owner repo sha : string) : option CommitData :=
  match getCommit owner repo sha with
  | Raises _ => None
  | Resolves data =>
      Some (mkCommitData
              (String.substring 0 7 (Detail.sha data))
              (Detail.sha data)
              (owner +:+ "/" +:+ repo)
              (Detail.message data)
              (or_else (a ← Detail.author data; Detail.name a) "Unknown")
              (or_else (a ← Detail.author data; Detail.email a) "")
              (or_else (a ← Detail.author data; Detail.date a) now_iso)
              (or_zero (Detail.additions <$> Detail.stats data))
              (or_zero (Detail.deletions <$> Detail.stats data))
              (or_zero (Detail.total <$> Detail.stats data))
              (or_zero ((λ fs, Z.of_nat (length fs)) <$> Detail.files data))
              (default [] (Detail.files data)))
  end.

End Remote.

End Fetcher.

(** ** fetcher.ts and index.ts with the calls that raise *)

(** The annotation step, [saveCommitToDB] and the worker once more, this
    time with what was left out above: the client's promise may be
    rejected with any value; the [db.prepare] calls of [saveCommitToDB]
    come before its [try]; and [new Database], [getConfig] and [db.close]
    may raise in the worker.  An exception that leaves the worker rejects
    its promise. *)
Module Raising.

Import Js Sink Annotation Orchestrator.

Section Program.

(** The message of the [TypeError] the engine raises when [message] is
    read of [null] or [undefined]. *)
Variable TypeError_message : string.

(** fetcher.ts [analyzeCommitWithAI].  A rejection of the client's promise
    lands in the [catch] block, where [error.message] is read: on [null]
    or [undefined] that read raises, and the exception leaves the
    function. *)
Definition analyzeCommitWithAI (mistral : option Service) (c : CommitData)
    : Completion (option string) :=
  match mistral with
  | None => Returned None
  | Some client =>
      match client (prompt c) with
      | Fulfilled content =>
          match content with
          | ContentText s => Returned (Some (trim s))
          | _ => Returned None
          end
      | RejectedWith ThrownNullish => Raised TypeError_message
      | RejectedWith (ThrownValue _) => Returned None
      end
  end.

(** index.js [analyzeCommitWithAI]: on anything but a string the chain
    [response.choices[0].message.content.trim()] raises a [TypeError]
    inside the [try], which the [catch] turns into [null]. *)
Definition analyzeCommitWithAI_cli (mistral : option Service) (c : CommitData)
    : Completion (option string) :=
  match mistral with
  | None => Returned None
  | Some client =>
      match client (prompt c) with
      | Fulfilled (ContentText s) => Returned (Some (trim s))
      | Fulfilled ContentAbsent => Returned None
      | Fulfilled ContentChunks => Returned None
      | RejectedWith ThrownNullish => Raised TypeError_message
      | RejectedWith (ThrownValue _) => Returned None
      end
  end.

Context {DB : Type} `{!Engine DB}.

Variable getCommits : string → string → FetchOptions.t → list string.
Variable getCommitDetailsWithDiff : string → string → string → option CommitData.
Variable mistral_client : string → Service.
Variable faults : CommitData → Faults.
Variable toISOString_now : CommitData → string.
Variable thirty_days_ago : Date.

(** The error raised by [db.prepare] when a commit is saved, if any (the
    table is missing, the file is not a database, ...). *)
Variable prepare_error : CommitData → option string.

(** The errors raised by [new Database(dbPath)], by [getConfig(db)] and by
    [db.close()], if any. *)
Variable open_error : option string.
Variable getConfig_error : option string.
Variable close_error : option string.

(** [saveCommitToDB] from its first line: the two statements are prepared
    outside the [try], the transaction runs inside it. *)
Definition saveCommitToDB (c : CommitData) (aiSummary : option string) (db : DB)
    : Completion bool * DB :=
  match prepare_error c with
  | Some e => (Raised e, db)
  | None =>
      let '(ok, db') :=
        Sink.saveCommitToDB (faults c) c aiSummary (toISOString_now c) db in
      (Returned ok, db')
  end.

(** The body of [for (const commit of commits.slice(0, limit))]: the calls
    that were completed, the database, the results, and the exception that
    left the body, if any. *)
Definition process_commit (mistral : option Service) (owner name sha : string)
    (db : DB) (results : list ResultEntry.t)
    : list Action * DB * list ResultEntry.t * option string :=
  match getCommitDetailsWithDiff owner name sha with
  | None =>
      ([Call_getCommitDetailsWithDiff owner name sha; Pause 100], db, results, None)
  | Some details =>
      let existingCommit := getCommitFromDB (fullSha details) db in
      let stored :=
        match existingCommit with
        | Some summary => summary
        | None => None
        end in
      let '(asked, analysed) :=
        if truthy stored then ([], Returned stored)
        else match mistral with
             | Some _ => ([Call_analyzeCommitWithAI (fullSha details)],
                          analyzeCommitWithAI mistral details)
             | None => ([], Returned None)
             end in
      let before :=
        [Call_getCommitDetailsWithDiff owner name sha;
         Call_getCommitFromDB (fullSha details)] ++ asked in
      match analysed with
      | Raised e => (before, db, results, Some e)
      | Returned aiSummary =>
          match saveCommitToDB details aiSummary db with
          | (Raised e, db') => (before, db', results, Some e)
          | (Returned ok, db') =>
              (before ++ [Call_saveCommitToDB (fullSha details) aiSummary ok; Pause 100],
               db',
               if ok
               then results ++ [ResultEntry.mk (Sink.sha details) (repo details)
                                  (first_line (message details)) (author details)
                                  (filesChanged details) (additions details)
                                  (deletions details) aiSummary]
               else results,
               None)
          end
      end
  end.

Fixpoint commits_loop (mistral : option Service) (owner name : string)
    (shas : list string) (db : DB) (results : list ResultEntry.t)
    : list Action * DB * list ResultEntry.t * option string :=
  match shas with
  | [] => ([], db, results, None)
  | sha :: rest =>
      match process_commit mistral owner name sha db results with
      | (t1, db1, results1, Some e) => (t1, db1, results1, Some e)
      | (t1, db1, results1, None) =>
          let '(t2, db2, results2, raised) :=
            commits_loop mistral owner name rest db1 results1 in
          (t1 ++ t2, db2, results2, raised)
      end
  end.

Fixpoint repos_loop (jobId : string) (mistral : option Service)
    (o : FetchOptions.t) (limit : Z) (i n : nat) (rs : list string)
    (db : DB) (results : list ResultEntry.t)
    : list Action * DB * list ResultEntry.t * option string :=
  match rs with
  | [] => ([], db, results, None)
  | repoStr :: rest =>
      match owner_and_name repoStr with
      | None => repos_loop jobId mistral o limit (S i) n rest db results
      | Some (owner, name) =>
          let commits := getCommits owner name o in
          let head :=
            [Call_updateProgress jobId (progress_percent i n);
             Call_getCommits owner name o] in
          match commits_loop mistral owner name (slice0 commits limit) db results with
          | (t1, db1, results1, Some e) => (head ++ t1, db1, results1, Some e)
          | (t1, db1, results1, None) =>
              let '(t2, db2, results2, raised) :=
                repos_loop jobId mistral o limit (S i) n rest db1 results1 in
              (head ++ t1 ++ t2, db2, results2, raised)
          end
      end
  end.

(** The "fetch-commits" branch of the worker from its first line. *)
Definition fetch_commits (jobId : string) (d : FetchCommitsData) (config : AppConfig)
    (db : DB) : list Action * DB * WorkerOutcome :=
  match open_error with
  | Some e => ([], db, Throws e)
  | None =>
      match getConfig_error with
      | Some e => ([], db, Throws e)
      | None =>
          if negb (truthy (github_token config)) then
            match close_error with
            | Some e => ([], db, Throws e)
            | None => ([], db, Throws token_missing)
            end
          else
            let mistralClient :=
              if useAI d && truthy (mistral_api_key config)
              then mistral_client <$> mistral_api_key config
              else None in
            let o := FetchOptions.mk (default [] (filterAuthors d))
                                     (default [] (filterEmails d))
                                     (default thirty_days_ago (since d)) in
            let '(t, db', results, raised) :=
              repos_loop jobId mistralClient o (limit d) 0 (length (repos d))
                         (repos d) db [] in
            match raised with
            | Some e => (t, db', Throws e)
            | None =>
                match close_error with
                | Some e => (t, db', Throws e)
                | None => (t, db', Returns (length results) results)
                end
            end
      end
  end.

End Program.

(** What [commits_loop] and [repos_loop] answer, after the calls [t]. *)
Definition after_calls {DB : Type} (t : list Action)
    (r : list Action * DB * list ResultEntry.t * option string)
    : list Action * DB * list ResultEntry.t * option string :=
  (t ++ r.1.1.1, r.1.1.2, r.1.2, r.2).

End Raising.

(** ** Sample inputs *)

Module Sample.

Import Js Sink Annotation Orchestrator.

Definition file_a : FileEntry.t :=
  FileEntry.mk "src/a.ts" "modified" 3 1 4 (Some "@@ -1 +1 @@").

Definition commit_abc : CommitData :=
  mkCommitData "abc1234" "abc1234def" "acme/widgets" "fix: off by one" "Ann"
               "ann@example.org" "2024-01-01T00:00:00Z" 3 1 4 1 [file_a].

(** A database that holds [commit_abc] with an annotation, and an empty one. *)
Definition annotated : Tables :=
  mkTables [commit_row commit_abc (Some "Fixes a loop bound.") "2024-01-02T00:00:00Z"]
           [file_row commit_abc file_a].

Definition empty : Tables := mkTables [] [].

(** A gateway that lists [commit_abc] for every repository. *)
Definition lists_abc (owner name : string) (o : FetchOptions.t) : list string :=
  ["abc1234def"].

Definition details_abc (owner name sha : string) : option CommitData :=
  Some commit_abc.

Definition client (apiKey : string) : Client :=
  λ _, Replied (ContentText " Fixes a loop bound. ").

Definition no_fault (c : CommitData) : Faults := λ _, None.

(** The first [insertFile.run] of every save raises. *)
Definition disk_error (c : CommitData) : Faults :=
  λ k, if Nat.eqb k 1 then Some "disk I/O error" else None.

Definition clock (c : CommitData) : string := "2024-02-01T00:00:00Z".

Definition config : AppConfig := mkAppConfig (Some "ghp_token") (Some "key").

Definition one_repo : FetchCommitsData :=
  mkFetchCommitsData ["acme/widgets"] None None None 5 true.

Definition options : FetchOptions.t := FetchOptions.mk [] [] 0.

(** Runs of the queue: a worker, two jobs, the first one resolves. *)
Definition two_jobs : list (@JobQueue.Call JobValue) :=
  [JobQueue.CsetWorker 7;
   JobQueue.CaddJob JobQueue.fetch_commits (FetchCommitsJob one_repo) 1000 "aaaaaaaaa";
   JobQueue.CaddJob JobQueue.fetch_all EmptyObject 1001 "bbbbbbbbb";
   JobQueue.Csettle 0 (JobQueue.Resolved (FetchCommitsResult 0 [])) 2000].

(** A worker and a job that has been started. *)
Definition one_job_started : list (@JobQueue.Call JobValue) :=
  [JobQueue.CsetWorker 7;
   JobQueue.CaddJob JobQueue.fetch_commits (FetchCommitsJob one_repo) 1000 "aaaaaaaaa"].

(** What follows a job enqueued before any worker was registered: a worker
    is registered, another job is enqueued and resolves, and the sweep runs
    two hours later. *)
Definition after_the_orphan : list (@JobQueue.Call JobValue) :=
  [JobQueue.CsetWorker 7;
   JobQueue.CaddJob JobQueue.fetch_all EmptyObject 1001 "bbbbbbbbb";
   JobQueue.Csettle 1 (JobQueue.Resolved EmptyObject) 2000;
   JobQueue.CupdateProgress "fetch-commits_1000_aaaaaaaaa" 50%float;
   JobQueue.CcleanupOldJobs 7202000].

(** A worker and two jobs, the first one at work; what it looks like then;
    and what follows its settlement at time 2000: its progress is rewritten,
    the sweep runs, the second job fails, and the sweep runs again exactly
    one hour after the settlement. *)
Definition first_job_running : list (@JobQueue.Call JobValue) :=
  [JobQueue.CsetWorker 7;
   JobQueue.CaddJob JobQueue.fetch_commits (FetchCommitsJob one_repo) 1000 "aaaaaaaaa";
   JobQueue.CaddJob JobQueue.fetch_all EmptyObject 1001 "bbbbbbbbb"].

Definition started_job : @JobQueue.Job JobValue :=
  JobQueue.mkJob "fetch-commits_1000_aaaaaaaaa" JobQueue.fetch_commits
                 (FetchCommitsJob one_repo) JobQueue.processing_ None None None
                 1000 (Some 1000%Z) None.

(** A remote listing of 102 commits of three authors, in pages of 100. *)
Definition by_ann : Fetcher.Listed.t :=
  Fetcher.Listed.mk "abc1234def" (Some "Ann") (Some "ann@example.org") (Some "ann-dev").

Definition by_bob : Fetcher.Listed.t :=
  Fetcher.Listed.mk "0123456789" (Some "Bob") (Some "bob@example.org") None.

Definition by_nobody : Fetcher.Listed.t :=
  Fetcher.Listed.mk "fedcba9876" None None None.

Definition listing (owner name : string) (since : option Z) (page : nat)
    : Fetcher.Response (list Fetcher.Listed.t) :=
  match page with
  | 1 => Fetcher.Resolves (replicate 100 by_bob)
  | 2 => Fetcher.Resolves [by_ann; by_nobody]
  | _ => Fetcher.Resolves []
  end.

(** The same listing, the request for the second page failing. *)
Definition broken_listing (owner name : string) (since : option Z) (page : nat)
    : Fetcher.Response (list Fetcher.Listed.t) :=
  match page with
  | 1 => Fetcher.Resolves (replicate 100 by_bob)
  | _ => Fetcher.Raises "Bad credentials"
  end.

(** [toLowerCase] on the letters A to Z. *)
Definition lower_ascii (c : Ascii.ascii) : Ascii.ascii :=
  let n := Ascii.nat_of_ascii c in
  if (65 <=? n) && (n <=? 90) then Ascii.ascii_of_nat (n + 32) else c.

Fixpoint lower (s : string) : string :=
  match s with
  | EmptyString => EmptyString
  | String c s' => String (lower_ascii c) (lower s')
  end.

(** The [data] of [repos.getCommit] for a commit without author, stats and
    files. *)
Definition bare_detail (owner name sha : string) : Fetcher.Response Fetcher.Detail.t :=
  Fetcher.Resolves (Fetcher.Detail.mk "abc1234def" "initial" None None None).

(** A service whose promise is rejected with [undefined]; a database in
    which the table [commits] is missing when a commit is saved; and no
    such error. *)
Definition rejects_with_undefined (apiKey : string) : Service :=
  λ _, RejectedWith ThrownNullish.

Definition no_table (c : CommitData) : option string := Some "no such table: commits".

Definition prepared (c : CommitData) : option string := None.

Definition after_the_first : list (@JobQueue.Call JobValue) :=
  [JobQueue.CupdateProgress "fetch-commits_1000_aaaaaaaaa" 100%float;
   JobQueue.CcleanupOldJobs 3000000;
   JobQueue.Csettle 1 (JobQueue.Rejected (Js.ThrownValue (Some "boom"))) 4000;
   JobQueue.CcleanupOldJobs 3602000].

End Sample.

(** ** Facts about the job queue *)

Module JobQueueFacts.

Import Js JobQueue.

Section Facts.

Context {any : Type}.

Implicit Types (s : @State any) (j : @Job any) (c : @Call any) (cs : list (@Call any)).
Implicit Types (l a b : ref) (lg : list Obs) (jobId jid : string).

(** *** [updateProgress] *)

Lemma set_progress_fields p j :
  id (set_progress p j) = id j ∧ type (set_progress p j) = type j ∧
  data (set_progress p j) = data j ∧ status (set_progress p j) = status j ∧
  result (set_progress p j) = result j ∧ error (set_progress p j) = error j ∧
  createdAt (set_progress p j) = createdAt j ∧
  startedAt (set_progress p j) = startedAt j ∧
  completedAt (set_progress p j) = completedAt j ∧
  progress (set_progress p j) = Some p.
Proof. by destruct j. Qed.

(** C10. [updateProgress jobId p] leaves the map, the wait-list, the flag and
    the worker as they are and no job object appears or disappears; when
    [jobId] is unknown the state is unchanged; otherwise only the object
    the id names is touched, and of that object only [progress], whatever
    its status. *)
Theorem updateProgress_frame s jobId (p : number) :
  let s' := updateProgress jobId p s in
  jobs s' = jobs s ∧ queue s' = queue s ∧ processing s' = processing s ∧
  worker s' = worker s ∧ awaiting s' = awaiting s ∧
  length (heap s') = length (heap s) ∧
  (jobs s !! jobId = None → s' = s) ∧
  (∀ l, jobs s !! jobId = Some l →
     (∀ l', l' ≠ l → heap s' !! l' = heap s !! l') ∧
     (∀ j, heap s !! l = Some j →
        ∃ j', heap s' !! l = Some j' ∧ progress j' = Some p ∧
          id j' = id j ∧ type j' = type j ∧ data j' = data j ∧
          status j' = status j ∧ result j' = result j ∧ error j' = error j ∧
          createdAt j' = createdAt j ∧ startedAt j' = startedAt j ∧
          completedAt j' = completedAt j)).
Proof.
  unfold updateProgress. destruct (jobs s !! jobId) as [l|] eqn:E; simpl.
  - split_and!; try done.
    + by rewrite length_alter.
    + intros l0 [= <-]. split.
      * intros l' Hl'. by apply list_lookup_alter_ne.
      * intros j Hj. exists (set_progress p j).
        rewrite list_lookup_alter_eq, Hj. simpl.
        destruct (set_progress_fields p j) as (?&?&?&?&?&?&?&?&?&?).
        split_and!; done.
  - split_and!; done.
Qed.

(** *** One invocation at a time *)

Lemma processNext_from_mutex q now s :
  awaiting s = in_flight (log s) → serial (log s) → awaiting s = [] →
  Mutex (processNext_from q now s).
Proof.
  revert s. induction q as [|jid rest IH]; intros s Ha Hs He; simpl.
  - unfold Mutex. rewrite He in *. split_and!; simpl; auto with lia.
  - destruct (String.eqb jid "").
    { unfold Mutex; simpl. rewrite He in *. split_and!; simpl; auto with lia. }
    destruct (jobs s !! jid) as [l|], (worker s) as [w|];
      try (apply IH; simpl; done).
    unfold Mutex; simpl. rewrite <- Ha, He. split_and!; simpl; auto with lia.
Qed.

Lemma processNext_mutex now s : Mutex s → Mutex (processNext now s).
Proof.
  intros HM. pose proof HM as (Ha & Hs & Hl & Hp). unfold processNext.
  destruct (processing s) eqn:E; [done|].
  apply processNext_from_mutex; auto.
Qed.

Lemma in_remove_first_single l ls :
  length ls ≤ 1 → l ∈ ls → remove_first l ls = [].
Proof.
  destruct ls as [|x [|y t]]; simpl; intros Hlen Hin; try lia.
  - by apply elem_of_nil in Hin.
  - apply list_elem_of_singleton in Hin as ->. by rewrite decide_True.
Qed.

Lemma step_mutex s c : Mutex s → Mutex (step s c).
Proof.
  intros HM. pose proof HM as (Ha & Hs & Hl & Hp).
  destruct c as [w|ty d now rnd|jid p|now|l o now]; simpl.
  - done.
  - apply processNext_mutex. unfold Mutex; simpl.
    rewrite <- Ha. split_and!; auto.
  - unfold updateProgress. destruct (jobs s !! jid); [|done].
    unfold Mutex; simpl. rewrite <- Ha. split_and!; auto.
  - done.
  - unfold settle. destruct (decide (l ∈ awaiting s)) as [Hin|]; [|done].
    pose proof (in_remove_first_single _ _ Hl Hin) as Hrm.
    assert (Hfl : remove_first l (in_flight (log s)) = []) by (by rewrite <- Ha).
    destruct o as [r|[|m]]; simpl.
    + apply processNext_mutex. unfold Mutex; simpl.
      rewrite Hrm, Hfl. split_and!; simpl; auto with lia.
    + unfold Mutex; simpl.
      rewrite Hrm, Hfl. split_and!; simpl; auto with lia.
    + apply processNext_mutex. unfold Mutex; simpl.
      rewrite Hrm, Hfl. split_and!; simpl; auto with lia.
Qed.

Lemma run_mutex cs s : Mutex s → Mutex (run cs s).
Proof.
  revert s. induction cs as [|c cs IH]; intros s HM; [done|].
  apply IH, step_mutex, HM.
Qed.

Lemma init_mutex : Mutex (@init any).
Proof. unfold Mutex; simpl. auto. Qed.

(** C1. Whatever is called on the queue, in whatever order, and however
    the worker's promises settle: at every moment of the history at most
    one worker invocation is in flight, and none is while the [processing]
    flag is clear. *)
Theorem at_most_one_invocation_in_flight cs :
  let s := run cs (@init any) in
  serial (log s) ∧
  awaiting s = in_flight (log s) ∧
  length (in_flight (log s)) ≤ 1 ∧
  (processing s = false → in_flight (log s) = []).
Proof.
  destruct (run_mutex cs _ init_mutex) as (Ha & Hs & Hl & Hp).
  simpl. rewrite <- Ha. auto.
Qed.

(** *** The wait-list is served in the order of [addJob] *)

Lemma processNext_from_no_worker q now s :
  worker s = None →
  Forall (λ jid, jid ≠ "" ∧ is_Some (jobs s !! jid)) q →
  q ≠ [] →
  processNext_from q now s = drained s.
Proof.
  revert s. induction q as [|jid rest IH]; intros s Hw Hq Hne; [done|].
  apply Forall_cons in Hq as [[Hjid [l Hl]] Hrest]. simpl.
  apply String.eqb_neq in Hjid. rewrite Hjid, Hl, Hw.
  destruct rest as [|jid' rest'].
  - done.
  - rewrite IH; done.
Qed.

(** Under [wf_queue], [processNext] does one of three things: nothing; with
    no worker registered, it empties the wait-list; otherwise it calls the
    worker with the job at the head of the wait-list. *)
Lemma processNext_cases now s :
  Forall (λ jid, jid ≠ "" ∧ is_Some (jobs s !! jid)) (queue s) →
  (processNext now s = s ∧ (processing s = true ∨ queue s = [])) ∨
  (processing s = false ∧ worker s = None ∧ queue s ≠ [] ∧
   processNext now s = drained s) ∨
  (∃ jid rest l w,
     processing s = false ∧ queue s = jid :: rest ∧ jobs s !! jid = Some l ∧
     worker s = Some w ∧ processNext now s = dispatched now w l rest s).
Proof.
  intros Hq. unfold processNext.
  destruct (processing s) eqn:Hp; [by left; auto|].
  destruct (queue s) as [|jid rest] eqn:Eq; [by left; auto|].
  destruct (worker s) as [w|] eqn:Hw.
  - right; right. apply Forall_cons in Hq as [[Hjid [l Hl]] Hrest].
    exists jid, rest, l, w. split_and!; try done.
    simpl. apply String.eqb_neq in Hjid. by rewrite Hjid, Hl, Hw.
  - right; left. split_and!; try done.
    by apply processNext_from_no_worker.
Qed.

Lemma set_fields_id now (r : any) e p j :
  id (set_startedAt now (set_status processing_ j)) = id j ∧
  id (set_completedAt now (set_result r (set_status completed j))) = id j ∧
  id (set_completedAt now (set_error e (set_status failed j))) = id j ∧
  id (set_status failed j) = id j ∧
  id (set_progress p j) = id j.
Proof. by destruct j. Qed.

Lemma queue_refs_cons s jid rest l :
  queue s = jid :: rest → jobs s !! jid = Some l →
  queue_refs s = l :: omap (λ jid, jobs s !! jid) rest.
Proof. unfold queue_refs. intros -> Hl. simpl. by rewrite Hl. Qed.

Lemma remove_first_elem_of l ls x : x ∈ remove_first l ls → x ∈ ls.
Proof.
  induction ls as [|y t IH]; simpl; [done|].
  case_decide; rewrite !elem_of_cons; tauto.
Qed.

Lemma starts_in_flight lg l : l ∈ in_flight lg → l ∈ starts lg.
Proof.
  induction lg as [|[e l'|w l'|l'|] lg IH]; simpl; auto.
  - rewrite !elem_of_cons. tauto.
  - intros Hin. by apply IH, remove_first_elem_of with l'.
Qed.

(** Mutating the object [l] without touching its id, and without touching
    its status unless [l] is not waiting, keeps the shape. *)
Lemma WF_alter (f : Job → Job) l pr w aw lg' s :
  WF s →
  (∀ j, id (f j) = id j) →
  ((∀ j, status (f j) = status j) ∨ l ∉ queue_refs s) →
  starts lg' = starts (log s) →
  WF (mkState (jobs s) (queue s) pr w (alter f l (heap s)) aw lg').
Proof.
  intros [Hids Hq Hsort Hpend Hst] Hfid Hf Hlg.
  split; simpl; unfold queue_refs in *; simpl; rewrite ?Hlg; try done.
  - intros jid l' Hl'. destruct (Hids _ _ Hl') as (j & Hj & Hid).
    rewrite list_lookup_alter. case_decide; subst.
    + exists (f j). rewrite Hj. simpl. by rewrite Hfid.
    + by exists j.
  - apply Forall_forall. intros l' Hin.
    rewrite Forall_forall in Hpend. destruct (Hpend _ Hin) as (j & Hj & Hs).
    rewrite list_lookup_alter. case_decide; subst.
    + destruct Hf as [Hf|Hf]; [|done].
      exists (f j). rewrite Hj. simpl. by rewrite Hf.
    + by exists j.
  - by rewrite length_alter.
Qed.

Lemma WF_processNext now s : WF s → Mutex s → WF (processNext now s).
Proof.
  intros HWF HM. pose proof HWF as [Hids Hq Hsort Hpend Hst].
  destruct (processNext_cases now s Hq)
    as [[-> _]|[(Hp & Hw & _ & ->)|(jid & rest & l & w & Hp & Eq & Hl & Hw & ->)]];
    [done| |].
  - split; simpl; unfold queue_refs; simpl; try done.
    rewrite app_nil_r. by apply StronglySorted_app_1_l in Hsort.
  - pose proof (queue_refs_cons _ _ _ _ Eq Hl) as Hrefs.
    rewrite Hrefs in Hsort, Hpend.
    assert (Hlt : Forall (lt l) (omap (λ jid, jobs s !! jid) rest)).
    { apply StronglySorted_app_1_r in Hsort.
      by apply StronglySorted_cons in Hsort as [? _]. }
    apply Forall_cons in Hpend as [(j & Hj & _) Hpend].
    split; simpl; unfold queue_refs; simpl.
    + intros jid' l' Hl'. destruct (Hids _ _ Hl') as (j' & Hj' & Hid).
      rewrite list_lookup_alter. case_decide; subst.
      * eexists. rewrite Hj'. simpl. split; [done|]. by destruct j'.
      * by exists j'.
    + rewrite Eq in Hq. by apply Forall_cons in Hq as [_ ?].
    + by rewrite reverse_cons, <- app_assoc.
    + apply Forall_forall. intros l' Hin.
      rewrite Forall_forall in Hpend, Hlt.
      destruct (Hpend _ Hin) as (j' & Hj' & Hs). specialize (Hlt _ Hin).
      exists j'. rewrite list_lookup_alter_ne by lia. done.
    + rewrite length_alter. constructor; [|done].
      by apply lookup_lt_Some in Hj.
Qed.

Lemma omap_lookup_ext (m1 m2 : gmap string nat) (q : list string) :
  Forall (λ jid, m1 !! jid = m2 !! jid) q →
  omap (λ jid, m1 !! jid) q = omap (λ jid, m2 !! jid) q.
Proof.
  induction 1 as [|jid q H _ IH]; [done|].
  csimpl. rewrite H, IH. done.
Qed.

Lemma fresh_unknown s jid : WF s → fresh s jid → jobs s !! jid = None.
Proof.
  intros HWF Hfr. destruct (jobs s !! jid) as [l|] eqn:E; [|done].
  destruct (wf_ids _ HWF _ _ E) as (j & Hj & Hid). by destruct (Hfr _ _ Hj).
Qed.

Lemma mk_jobId_nonempty ty now rnd : mk_jobId ty now rnd ≠ "".
Proof. by destruct ty. Qed.

(** [addJob] up to its call of [processNext]. *)
Lemma WF_enqueue s jid (job : Job) pr w aw :
  WF s → fresh s jid → jid ≠ "" → id job = jid → status job = pending →
  WF (mkState (<[jid := length (heap s)]> (jobs s)) (queue s ++ [jid]) pr w
              (heap s ++ [job]) aw (Emit job_added (length (heap s)) :: log s)).
Proof.
  intros HWF Hfr Hne Hid Hst. pose proof (fresh_unknown _ _ HWF Hfr) as Hnone.
  destruct HWF as [Hids Hq Hsort Hpend Hstd].
  set (s1 := mkState _ _ _ _ _ _ _).
  assert (Hrefs : queue_refs s1 = queue_refs s ++ [length (heap s)]).
  { unfold queue_refs, s1. simpl. rewrite omap_app. csimpl.
    rewrite lookup_insert_eq. simpl. f_equal.
    apply omap_lookup_ext. eapply Forall_impl; [exact Hq|].
    intros jid' [_ [l Hl]]. simpl. rewrite lookup_insert_ne; [done|].
    intros ->. congruence. }
  split; rewrite ?Hrefs; simpl.
  - intros jid' l. rewrite lookup_insert. case_decide; subst.
    + intros [= <-]. exists job. by rewrite list_lookup_middle.
    + intros Hl. destruct (Hids _ _ Hl) as (j & Hj & Hidj).
      exists j. by rewrite lookup_app_l by (by apply lookup_lt_Some in Hj).
  - apply Forall_app. split.
    + eapply Forall_impl; [exact Hq|]. intros jid' [? [l Hl]]. simpl.
      split; [done|]. rewrite lookup_insert. case_decide; eauto.
    + constructor; [|done]. split; [done|]. rewrite lookup_insert_eq. eauto.
  - rewrite app_assoc. apply StronglySorted_app_2;
      [|done|apply SSorted_cons; [apply SSorted_nil|apply Forall_nil_2]].
    intros x1 x2 Hx1 Hx2. apply list_elem_of_singleton in Hx2 as ->.
    apply elem_of_app in Hx1 as [Hx1|Hx1].
    + rewrite Forall_forall in Hstd. apply Hstd. by apply elem_of_reverse.
    + rewrite Forall_forall in Hpend. destruct (Hpend _ Hx1) as (j & Hj & _).
      by apply lookup_lt_Some in Hj.
  - apply Forall_app. split.
    + eapply Forall_impl; [exact Hpend|]. intros l (j & Hj & Hs). simpl.
      exists j. by rewrite lookup_app_l by (by apply lookup_lt_Some in Hj).
    + constructor; [|done]. exists job. by rewrite list_lookup_middle.
  - rewrite length_app. simpl. eapply Forall_impl; [exact Hstd|].
    intros; simpl in *; lia.
Qed.

Lemma pending_not_collectable (h : list (@Job any)) t l j :
  h !! l = Some j → status j = pending → collectable h t l = false.
Proof. intros Hj Hs. unfold collectable. by rewrite Hj, Hs. Qed.

Lemma WF_cleanup now s : WF s → WF (cleanupOldJobs now s).
Proof.
  intros [Hids Hq Hsort Hpend Hstd].
  assert (Hkeep : Forall (λ jid,
            filter (λ kv, collectable (heap s) (now - 60 * 60 * 1000)%Z kv.2 = false)
                   (jobs s) !! jid = jobs s !! jid) (queue s)).
  { apply Forall_forall. intros jid Hin.
    rewrite Forall_forall in Hq. destruct (Hq _ Hin) as [_ [l Hl]].
    rewrite Hl. apply map_lookup_filter_Some_2; [done|]. simpl.
    rewrite Forall_forall in Hpend.
    destruct (Hpend l) as (j & Hj & Hs).
    { apply list_elem_of_omap. eauto. }
    by eapply pending_not_collectable. }
  split; simpl; unfold queue_refs, cleanupOldJobs in *; simpl;
    rewrite ?(omap_lookup_ext _ _ _ Hkeep); try done.
  - intros jid l Hl. apply map_lookup_filter_Some_1_1 in Hl. eauto.
  - rewrite Forall_forall in Hq, Hkeep. apply Forall_forall. intros jid Hin.
    rewrite (Hkeep _ Hin). auto.
Qed.

Lemma not_waiting_in_flight s l :
  WF s → Mutex s → l ∈ awaiting s → l ∉ queue_refs s.
Proof.
  intros HWF (Ha & _) Hin Hq. rewrite Ha in Hin. apply starts_in_flight in Hin.
  pose proof (StronglySorted_app_1_elem_of _ _ _ l l (wf_sorted _ HWF)) as Hlt.
  rewrite elem_of_reverse in Hlt. specialize (Hlt Hin Hq). lia.
Qed.

Lemma WF_setWorker w s : WF s → WF (setWorker w s).
Proof. by intros []. Qed.

Lemma WF_step s c :
  WF s → Mutex s → (∀ jid, added_id c = Some jid → fresh s jid) → WF (step s c).
Proof.
  intros HWF HM Hfr. pose proof HM as (Ha & Hs & Hl & Hp).
  destruct c as [w|ty d now rnd|jid p|now|l o now]; simpl.
  - by apply WF_setWorker.
  - unfold addJob; simpl.
    set (s1 := mkState _ _ _ _ _ _ _).
    assert (HWF1 : WF s1).
    { apply WF_enqueue; auto using mk_jobId_nonempty. }
    apply WF_processNext; [done|].
    unfold Mutex, s1; simpl. rewrite <- Ha. auto.
  - unfold updateProgress. destruct (jobs s !! jid) as [l|]; [|done].
    apply WF_alter; auto; by intros [].
  - by apply WF_cleanup.
  - unfold settle. destruct (decide (l ∈ awaiting s)) as [Hin|]; [|done].
    pose proof (not_waiting_in_flight _ _ HWF HM Hin) as Hnq.
    pose proof (in_remove_first_single _ _ Hl Hin) as Hrm.
    assert (Hfl : remove_first l (in_flight (log s)) = []) by (by rewrite <- Ha).
    destruct o as [r|[|m]]; simpl.
    + apply WF_processNext.
      * apply (WF_alter _ l false (worker s) _ _ s); auto; by intros [].
      * unfold Mutex; simpl. rewrite Hrm, Hfl. split_and!; simpl; auto with lia.
    + apply (WF_alter _ l _ (worker s) _ _ s); auto; by intros [].
    + apply WF_processNext.
      * apply (WF_alter _ l false (worker s) _ _ s); auto; by intros [].
      * unfold Mutex; simpl. rewrite Hrm, Hfl. split_and!; simpl; auto with lia.
Qed.

Lemma init_WF : WF (@init any).
Proof. split; simpl; unfold queue_refs; simpl; try done; constructor. Qed.

(** The ids carried by the job objects, in allocation order: each [addJob]
    allocates one object, and nothing else changes an id. *)
Lemma fmap_id_alter (f : Job → Job) l (h : list (@Job any)) :
  (∀ j, id (f j) = id j) → id <$> alter f l h = id <$> h.
Proof.
  intros Hf. revert l. induction h as [|j h IH]; intros [|l]; simpl; [done..| |].
  - by rewrite Hf.
  - f_equal. apply IH.
Qed.

Lemma processNext_ids now s : id <$> heap (processNext now s) = id <$> heap s.
Proof.
  unfold processNext. destruct (processing s); [done|].
  generalize (queue s) as q. intros q. revert s.
  induction q as [|jid rest IH]; intros s; simpl; [done|].
  destruct (String.eqb jid ""); [done|].
  destruct (jobs s !! jid) as [l|], (worker s) as [w|]; try by rewrite IH.
  simpl. apply fmap_id_alter. by intros [].
Qed.

Lemma step_ids s c :
  id <$> heap (step s c) = (id <$> heap s) ++ option_list (added_id c).
Proof.
  destruct c as [w|ty d now rnd|jid p|now|l o now]; simpl;
    rewrite ?app_nil_r; try done.
  - rewrite processNext_ids. simpl. by rewrite fmap_app.
  - unfold updateProgress. destruct (jobs s !! jid); [|done].
    simpl. apply fmap_id_alter. by intros [].
  - unfold settle. case_decide; [|done].
    destruct o as [r|[|m]]; simpl; rewrite ?processNext_ids; simpl;
      apply fmap_id_alter; by intros [].
Qed.

Lemma run_ids cs s : id <$> heap (run cs s) = (id <$> heap s) ++ added_ids cs.
Proof.
  revert s. induction cs as [|c cs IH]; intros s; simpl.
  - by rewrite app_nil_r.
  - rewrite IH, step_ids, <- app_assoc. f_equal.
    unfold added_ids. csimpl. by destruct (added_id c).
Qed.

(** The [n]-th job enqueued is the object [n]. *)
Lemma run_allocates cs : id <$> heap (run cs (@init any)) = added_ids cs.
Proof. by rewrite run_ids. Qed.

Lemma fresh_ids s jid : fresh s jid ↔ jid ∉ (id <$> heap s).
Proof.
  unfold fresh. rewrite list_elem_of_fmap. split.
  - intros H (j & -> & Hin). apply list_elem_of_lookup in Hin as [l Hl].
    by apply (H l j).
  - intros H l j Hl Hid. apply H. exists j. split; [done|].
    by apply list_elem_of_lookup_2 in Hl.
Qed.

Lemma run_app cs1 cs2 s : run (cs1 ++ cs2) s = run cs2 (run cs1 s).
Proof. apply fold_left_app. Qed.

(** Induction over a run in which no identifier is generated twice (and
    whose calls all satisfy [Q]). *)
Lemma run_ind_fresh_on (Q : @Call any → Prop) (P : @State any → Prop) :
  (∀ s c, WF s → Mutex s → P s → Q c →
          (∀ jid, added_id c = Some jid → fresh s jid) → P (step s c)) →
  ∀ cs s, Forall Q cs → WF s → Mutex s → P s →
    NoDup (added_ids cs) → (∀ jid, jid ∈ added_ids cs → fresh s jid) →
    P (run cs s) ∧ WF (run cs s) ∧ Mutex (run cs s).
Proof.
  intros Hstep cs. induction cs as [|c cs IH];
    intros s HQ HWF HM HP Hnd Hfr; [done|].
  apply Forall_cons in HQ as [HQc HQ]. simpl.
  assert (Hc : ∀ jid, added_id c = Some jid → fresh s jid).
  { intros jid Hjid. apply Hfr. unfold added_ids. csimpl. rewrite Hjid. by left. }
  assert (Hnd' : NoDup (added_ids cs) ∧
                 ∀ jid, added_id c = Some jid → jid ∉ added_ids cs).
  { unfold added_ids in *. csimpl in Hnd. destruct (added_id c) as [jid0|].
    - apply NoDup_cons in Hnd as [? ?]. split; [done|]. by intros ? [= <-].
    - split; [done|]. by intros. }
  destruct Hnd' as [Hnd' Hnew].
  apply IH; auto using WF_step, step_mutex.
  intros jid Hin. apply fresh_ids. rewrite step_ids.
  intros [Hold|Hadd]%elem_of_app.
  - apply (fresh_ids s jid); [|done]. apply Hfr.
    unfold added_ids in *. csimpl. destruct (added_id c); [by right|done].
  - destruct (added_id c) as [jid0|]; simpl in Hadd; [|by apply elem_of_nil in Hadd].
    apply list_elem_of_singleton in Hadd as ->. by apply (Hnew jid0).
Qed.

Lemma run_ind_fresh (P : @State any → Prop) :
  (∀ s c, WF s → Mutex s → P s →
          (∀ jid, added_id c = Some jid → fresh s jid) → P (step s c)) →
  ∀ cs s, WF s → Mutex s → P s →
    NoDup (added_ids cs) → (∀ jid, jid ∈ added_ids cs → fresh s jid) →
    P (run cs s) ∧ WF (run cs s) ∧ Mutex (run cs s).
Proof.
  intros Hstep cs s. apply (run_ind_fresh_on (λ _, True)); [by auto|].
  by apply Forall_forall.
Qed.

Lemma fresh_init jid : fresh (@init any) jid.
Proof. by intros l j Hl. Qed.

Lemma run_init_WF cs :
  NoDup (added_ids cs) → WF (run cs (@init any)) ∧ Mutex (run cs (@init any)).
Proof.
  intros Hnd.
  apply (run_ind_fresh (λ _, True)); auto using init_WF, init_mutex, fresh_init.
Qed.

(** Reading logs. *)
Lemma starts_app lg1 lg2 : starts (lg1 ++ lg2) = starts lg1 ++ starts lg2.
Proof.
  induction lg1 as [|[e l'|w l'|l'|] lg1 IH]; simpl; auto. by rewrite IH.
Qed.

Lemma elem_of_starts lg l : l ∈ starts lg ↔ ∃ w, Invoke w l ∈ lg.
Proof.
  induction lg as [|o lg IH]; simpl.
  - split; [by intros ?%elem_of_nil|by intros [w ?%elem_of_nil]].
  - destruct o as [e l'|w' l'|l'|]; rewrite ?elem_of_cons, IH;
      setoid_rewrite elem_of_cons; naive_solver.
Qed.

Lemma serial_suffix lg2 lg1 : serial (lg2 ++ lg1) → serial lg1.
Proof. induction lg2 as [|o lg2 IH]; [done|]. intros [_ H]. by apply IH. Qed.

Lemma remove_first_ne l x ls : x ≠ l → x ∈ ls → x ∈ remove_first l ls.
Proof.
  intros Hne. induction ls as [|y t IH]; simpl; [done|].
  case_decide; rewrite !elem_of_cons; naive_solver.
Qed.

(** An invocation recorded in a log is still in flight at its end, or the
    log shows the queue resuming from it later on. *)
Lemma invoked_in_flight_or_resumed lg w l :
  Invoke w l ∈ lg →
  l ∈ in_flight lg ∨ ∃ x y z, lg = x ++ Resume l :: y ++ Invoke w l :: z.
Proof.
  induction lg as [|o lg IH]; [by intros ?%elem_of_nil|].
  intros [Heq|Hin]%elem_of_cons.
  { subst o. left. simpl. by left. }
  destruct (IH Hin) as [Hfl|(x & y & z & ->)].
  - destruct o as [e l'|w' l'|l'|]; simpl; auto.
    + left. by right.
    + destruct (decide (l = l')) as [->|Hne].
      * right. apply list_elem_of_split in Hin as (y & z & ->).
        by exists [], y, z.
      * left. by apply remove_first_ne.
  - right. by exists (o :: x), y, z.
Qed.

Lemma queue_refs_enqueue s jid (job : Job) pr w aw lg :
  WF s → fresh s jid →
  queue_refs (mkState (<[jid := length (heap s)]> (jobs s)) (queue s ++ [jid]) pr w
                      (heap s ++ [job]) aw lg)
  = queue_refs s ++ [length (heap s)].
Proof.
  intros HWF Hfr. pose proof (fresh_unknown _ _ HWF Hfr) as Hnone.
  unfold queue_refs. simpl. rewrite omap_app. csimpl.
  rewrite lookup_insert_eq. simpl. f_equal.
  apply omap_lookup_ext. eapply Forall_impl; [exact (wf_queue _ HWF)|].
  intros jid' [_ [l Hl]]. simpl. rewrite lookup_insert_ne; [done|].
  intros ->. congruence.
Qed.

Lemma queue_refs_cleanup now s :
  WF s → queue_refs (cleanupOldJobs now s) = queue_refs s.
Proof.
  intros [Hids Hq Hsort Hpend Hstd]. unfold queue_refs. simpl.
  apply omap_lookup_ext, Forall_forall. intros jid Hin.
  rewrite Forall_forall in Hq. destruct (Hq _ Hin) as [_ [l Hl]].
  rewrite Hl. apply map_lookup_filter_Some_2; [done|]. simpl.
  rewrite Forall_forall in Hpend.
  destruct (Hpend l) as (j & Hj & Hs).
  { apply list_elem_of_omap. eauto. }
  by eapply pending_not_collectable.
Qed.

Lemma Complete_processNext now s :
  WF s → is_Some (worker s) → Complete s → Complete (processNext now s).
Proof.
  intros HWF [w0 Hw0] HC.
  destruct (processNext_cases now s (wf_queue _ HWF))
    as [[-> _]|[(_ & Hw & _)|(jid & rest & l & w & Hp & Eq & Hl & Hw & ->)]];
    [done|congruence|].
  intros l0. simpl. rewrite length_alter. intros Hl0.
  unfold queue_refs at 1. simpl.
  destruct (HC _ Hl0) as [H|H].
  - left. by right.
  - rewrite (queue_refs_cons _ _ _ _ Eq Hl) in H.
    apply elem_of_cons in H as [->|H]; [left; by left|by right].
Qed.

Lemma worker_processNext now s : worker (processNext now s) = worker s
  ∨ (worker s = None ∧ worker (processNext now s) = None).
Proof.
  unfold processNext. destruct (processing s); [by left|].
  generalize (queue s) as q. intros q. revert s.
  induction q as [|jid rest IH]; intros s; simpl; [by left|].
  destruct (String.eqb jid ""); [by left|].
  destruct (jobs s !! jid) as [l|], (worker s) as [w|] eqn:E; simpl; auto;
    destruct (IH (mkState (jobs s) rest false (worker s) (heap s) (awaiting s) (log s)))
      as [H|[H1 H2]]; simpl in *; rewrite ?E in *; auto.
Qed.

Lemma Complete_step s c :
  WF s → Mutex s → is_Some (worker s) ∧ Complete s →
  (∀ jid, added_id c = Some jid → fresh s jid) →
  is_Some (worker (step s c)) ∧ Complete (step s c).
Proof.
  intros HWF HM [Hw HC] Hfr. pose proof HM as (Ha & Hs & Hl & Hp).
  destruct c as [w|ty d now rnd|jid p|now|l o now]; simpl.
  - split; [by eexists|done].
  - unfold addJob; simpl. set (s1 := mkState _ _ _ _ _ _ _).
    assert (HWF1 : WF s1) by (apply WF_enqueue; auto using mk_jobId_nonempty).
    assert (HC1 : Complete s1).
    { intros l0. unfold s1 at 1. simpl. rewrite length_app. simpl. intros Hl0.
      unfold s1. rewrite queue_refs_enqueue by auto. simpl.
      destruct (decide (l0 = length (heap s))) as [->|Hne].
      - right. apply elem_of_app. right. by left.
      - destruct (HC l0) as [H|H]; [lia|by left|].
        right. apply elem_of_app. by left. }
    split; [|by apply Complete_processNext].
    destruct (worker_processNext now s1) as [->|[H _]]; [done|].
    simpl in H. rewrite H in Hw. by destruct Hw.
  - unfold updateProgress. destruct (jobs s !! jid) as [l|]; [|done].
    split; [done|]. intros l0. simpl. rewrite length_alter. apply HC.
  - split; [done|]. intros l0. rewrite queue_refs_cleanup by done. apply HC.
  - unfold settle. destruct (decide (l ∈ awaiting s)) as [Hin|]; [|done].
    pose proof (not_waiting_in_flight _ _ HWF HM Hin) as Hnq.
    destruct o as [r|[|m]]; simpl.
    + set (s1 := mkState _ _ _ _ _ _ _).
      assert (HWF1 : WF s1)
        by (apply (WF_alter _ l false (worker s) _ _ s); auto; by intros []).
      split.
      * destruct (worker_processNext now s1) as [->|[H _]]; [done|].
        simpl in H. rewrite H in Hw. by destruct Hw.
      * apply Complete_processNext; [done..|].
        intros l0. unfold s1. simpl. rewrite length_alter. apply HC.
    + split; [done|]. intros l0. simpl. rewrite length_alter. apply HC.
    + set (s1 := mkState _ _ _ _ _ _ _).
      assert (HWF1 : WF s1)
        by (apply (WF_alter _ l false (worker s) _ _ s); auto; by intros []).
      split.
      * destruct (worker_processNext now s1) as [->|[H _]]; [done|].
        simpl in H. rewrite H in Hw. by destruct Hw.
      * apply Complete_processNext; [done..|].
        intros l0. unfold s1. simpl. rewrite length_alter. apply HC.
Qed.

(** Job objects are numbered in the order of the 'job-added' events. *)
Lemma processNext_added now s :
  added (log (processNext now s)) = added (log s) ∧
  length (heap (processNext now s)) = length (heap s).
Proof.
  unfold processNext. destruct (processing s); [done|].
  generalize (queue s) as q. intros q. revert s.
  induction q as [|jid rest IH]; intros s; simpl; [done|].
  destruct (String.eqb jid ""); [done|].
  destruct (jobs s !! jid) as [l|], (worker s) as [w|];
    try (by destruct (IH (mkState (jobs s) rest false None (heap s)
                                  (awaiting s) (log s))) as [-> ->]).
  - simpl. by rewrite length_alter.
  - by destruct (IH (mkState (jobs s) rest false (Some w) (heap s)
                             (awaiting s) (log s))) as [-> ->].
Qed.

Lemma step_added s c :
  reverse (added (log s)) = seq 0 (length (heap s)) →
  reverse (added (log (step s c))) = seq 0 (length (heap (step s c))).
Proof.
  intros Hs.
  destruct c as [w|ty d now rnd|jid p|now|l o now]; simpl; try done.
  - unfold addJob. simpl. destruct (processNext_added now
      (mkState (<[mk_jobId ty now rnd := length (heap s)]> (jobs s))
               (queue s ++ [mk_jobId ty now rnd]) (processing s) (worker s)
               (heap s ++ [mkJob (mk_jobId ty now rnd) ty d pending None None None
                                 now None None])
               (awaiting s) (Emit job_added (length (heap s)) :: log s))) as [-> ->].
    simpl. rewrite reverse_cons, Hs, length_app. simpl.
    by rewrite seq_app.
  - unfold updateProgress. destruct (jobs s !! jid); [|done].
    simpl. by rewrite length_alter.
  - unfold settle. case_decide; [|done].
    destruct o as [r|[|m]]; simpl;
      rewrite ?(proj1 (processNext_added _ _)), ?(proj2 (processNext_added _ _));
      simpl; by rewrite length_alter.
Qed.

Lemma run_added cs s :
  reverse (added (log s)) = seq 0 (length (heap s)) →
  reverse (added (log (run cs s))) = seq 0 (length (heap (run cs s))).
Proof.
  revert s. induction cs as [|c cs IH]; intros s Hs; [done|].
  simpl. by apply IH, step_added.
Qed.

Lemma added_app lg1 lg2 : added (lg1 ++ lg2) = added lg1 ++ added lg2.
Proof.
  induction lg1 as [|[[] l'|w l'|l'|] lg1 IH]; simpl; auto. by rewrite IH.
Qed.

Lemma elem_of_added lg l : l ∈ added lg ↔ Emit job_added l ∈ lg.
Proof.
  induction lg as [|o lg IH]; simpl.
  - split; by intros ?%elem_of_nil.
  - destruct o as [[] l'|w' l'|l'|]; rewrite ?elem_of_cons, IH; naive_solver.
Qed.

Lemma added_before_lt cs a b :
  added_before a b (log (run cs (@init any))) → a < b.
Proof.
  intros (x & y & z & Hlog).
  pose proof (run_added cs (@init any) eq_refl) as Hseq.
  rewrite Hlog, added_app in Hseq. simpl in Hseq.
  rewrite reverse_app, reverse_cons in Hseq.
  set (pre := reverse (added (y ++ Emit job_added a :: z))) in *.
  assert (Hb : b = length pre).
  { assert (H : (seq 0 (length (heap (run cs (@init any))))) !! length pre = Some b).
    { rewrite <- Hseq, <- app_assoc. simpl. by rewrite list_lookup_middle. }
    apply lookup_seq in H as [? _]. simpl in *. lia. }
  assert (Ha : a ∈ pre).
  { unfold pre. rewrite elem_of_reverse, elem_of_added, elem_of_app. right. by left. }
  assert (Hpre : pre = seq 0 (length pre)).
  { assert (H : take (length pre) ((pre ++ [b]) ++ reverse (added x)) = pre).
    { rewrite <- app_assoc. by rewrite take_app_length. }
    rewrite Hseq in H. rewrite <- H at 1. rewrite take_seq.
    f_equal. apply Nat.min_l.
    apply (f_equal length) in Hseq. rewrite !length_app, length_seq in Hseq. lia. }
  rewrite Hpre in Ha. apply elem_of_seq in Ha. lia.
Qed.

Lemma sorted_starts_split lg2 w b lg1 :
  StronglySorted lt (reverse (starts (lg2 ++ Invoke w b :: lg1))) →
  (∀ x, x ∈ starts lg1 → x < b) ∧ (∀ x, x ∈ starts lg2 → b < x).
Proof.
  rewrite starts_app. simpl. rewrite reverse_app, reverse_cons.
  intros Hs. split; intros x Hx.
  - apply StronglySorted_app_1_l in Hs.
    apply (StronglySorted_app_1_elem_of _ _ _ x b Hs);
      [by apply elem_of_reverse|by left].
  - apply (StronglySorted_app_1_elem_of _ _ _ b x Hs);
      [apply elem_of_app; right; by left|by apply elem_of_reverse].
Qed.

(** C2. In a run whose generated ids are pairwise distinct, take a job
    [a] that was enqueued before a job [b] (the log shows 'job-added' for
    [a] first), and the moment the worker is called with [b].  Then [a] is
    not started after that moment; if [a] was started, the queue had also
    resumed from that invocation before [b] started; and when a worker was
    registered from the beginning, [a] was indeed started, and resolved,
    before [b] started. *)
Theorem fifo_order cs lg2 w b lg1 a :
  NoDup (added_ids cs) →
  log (run cs (@init any)) = lg2 ++ Invoke w b :: lg1 →
  added_before a b (log (run cs (@init any))) →
  (∀ wa, Invoke wa a ∉ lg2) ∧
  (∀ wa, Invoke wa a ∈ lg1 →
         ∃ x y z, lg1 = x ++ Resume a :: y ++ Invoke wa a :: z) ∧
  (worker_first cs → ∃ wa, Invoke wa a ∈ lg1).
Proof.
  intros Hnd Hlog Hab%added_before_lt.
  destruct (run_init_WF cs Hnd) as [HWF HM].
  pose proof (wf_sorted _ HWF) as Hsort.
  pose proof (StronglySorted_app_1_l _ _ _ Hsort) as Hsort1.
  rewrite Hlog in Hsort1. apply sorted_starts_split in Hsort1 as [Hold Hnew].
  split_and!.
  - intros wa Hin. assert (b < a); [|lia].
    apply Hnew, elem_of_starts. eauto.
  - intros wa Hin.
    destruct (invoked_in_flight_or_resumed _ _ _ Hin) as [Hfl|H]; [|done].
    destruct HM as (_ & Hser & _). rewrite Hlog in Hser.
    apply serial_suffix in Hser as [Hlen _]. simpl in Hlen.
    destruct (in_flight lg1); [by apply elem_of_nil in Hfl|simpl in Hlen; lia].
  - intros (w0 & cs' & ->).
    assert (Hfr : ∀ jid, jid ∈ added_ids cs' → fresh (setWorker w0 (@init any)) jid)
      by (by intros jid _ l j Hl).
    destruct (run_ind_fresh (λ s, is_Some (worker s) ∧ Complete s) Complete_step
                cs' (setWorker w0 init)) as [[_ HC] _]; auto.
    { apply WF_setWorker, init_WF. }
    { apply init_mutex. }
    { split; [by eexists|]. intros l Hl. simpl in Hl. lia. }
    change (run cs' (setWorker w0 init)) with (run (CsetWorker w0 :: cs') (@init any)) in HC.
    assert (Hb : b < length (heap (run (CsetWorker w0 :: cs') (@init any)))).
    { pose proof (wf_started _ HWF) as Hst. rewrite Forall_forall in Hst.
      apply Hst. rewrite Hlog, starts_app. apply elem_of_app. right. by left. }
    destruct (HC a) as [Hin|Hin]; [lia| |].
    + rewrite Hlog, starts_app in Hin. simpl in Hin.
      apply elem_of_app in Hin as [Hin|Hin].
      * specialize (Hnew _ Hin). lia.
      * apply elem_of_cons in Hin as [->|Hin]; [lia|].
        by apply elem_of_starts.
    + assert (b < a); [|lia].
      apply (StronglySorted_app_1_elem_of _ _ _ b a Hsort); [|done].
      rewrite elem_of_reverse, Hlog, starts_app. apply elem_of_app. right. by left.
Qed.

(** *** Jobs enqueued before a worker is registered *)

Lemma Orphan_alter jid l (f : Job → Job) l0 pr w aw lg' s :
  Orphan jid l s →
  (∀ j, id (f j) = id j) →
  ((∀ j, status (f j) = status j) ∨ l0 ≠ l) →
  starts lg' = starts (log s) →
  Orphan jid l (mkState (jobs s) (queue s) pr w (alter f l0 (heap s)) aw lg').
Proof.
  intros (Hj & (j & Hl & Hid & Hst) & Hq & Hs) Hfid Hf Hlg.
  unfold Orphan; simpl. rewrite Hlg. split_and!; try done.
  rewrite list_lookup_alter. case_decide; subst.
  - destruct Hf as [Hf|?]; [|done].
    exists (f j). rewrite Hl. simpl. by rewrite Hfid, Hf.
  - by exists j.
Qed.

Lemma Orphan_processNext jid l now s :
  WF s → Orphan jid l s → Orphan jid l (processNext now s).
Proof.
  intros HWF HO. pose proof HO as (Hj & (j & Hl & Hid & Hst) & Hq & Hs).
  destruct (processNext_cases now s (wf_queue _ HWF))
    as [[-> _]|[(_ & _ & _ & ->)|(jid0 & rest & l0 & w & Hp & Eq & Hl0 & Hw & ->)]];
    [done| |].
  - unfold Orphan; simpl. split_and!; eauto. by intros ?%elem_of_nil.
  - assert (Hne : jid0 ≠ jid).
    { intros ->. apply Hq. rewrite Eq. by left. }
    assert (Hlne : l0 ≠ l).
    { intros ->. destruct (wf_ids _ HWF _ _ Hl0) as (j0 & Hj0 & Hid0). congruence. }
    unfold Orphan; simpl. split_and!; try done.
    + exists j. by rewrite list_lookup_alter_ne.
    + intros Hin. apply Hq. rewrite Eq. by right.
    + rewrite elem_of_cons. naive_solver.
Qed.

Lemma Orphan_step jid l s c :
  WF s → Mutex s → Orphan jid l s →
  (∀ jid', added_id c = Some jid' → fresh s jid') →
  Orphan jid l (step s c).
Proof.
  intros HWF HM HO Hfr. pose proof HO as (Hj & (j & Hl & Hid & Hst) & Hq & Hs).
  destruct c as [w|ty d now rnd|jid0 p|now|l0 o now]; simpl.
  - done.
  - unfold addJob; simpl. set (s1 := mkState _ _ _ _ _ _ _).
    assert (HWF1 : WF s1) by (apply WF_enqueue; auto using mk_jobId_nonempty).
    apply Orphan_processNext; [done|].
    assert (Hne : mk_jobId ty now rnd ≠ jid).
    { intros Heq. apply (Hfr _ eq_refl l j Hl). congruence. }
    unfold Orphan, s1; simpl. split_and!; try done.
    + by rewrite lookup_insert_ne.
    + exists j. by rewrite lookup_app_l by (by apply lookup_lt_Some in Hl).
    + rewrite elem_of_app, list_elem_of_singleton. naive_solver.
  - unfold updateProgress. destruct (jobs s !! jid0) as [l0|]; [|done].
    apply Orphan_alter; auto; by intros [].
  - unfold Orphan, cleanupOldJobs; simpl. split_and!; eauto.
    apply map_lookup_filter_Some_2; [done|]. simpl.
    by eapply pending_not_collectable.
  - unfold settle. destruct (decide (l0 ∈ awaiting s)) as [Hin|]; [|done].
    assert (Hne : l0 ≠ l).
    { intros ->. destruct HM as (Ha & _). rewrite Ha in Hin.
      by apply starts_in_flight in Hin. }
    pose proof (not_waiting_in_flight _ _ HWF HM Hin) as Hnq.
    destruct o as [r|[|m]]; simpl.
    + apply Orphan_processNext.
      * apply (WF_alter _ l0 false (worker s) _ _ s); auto; by intros [].
      * apply (Orphan_alter _ _ _ l0 false (worker s) _ _ s); auto; by intros [].
    + apply (Orphan_alter _ _ _ l0 _ (worker s) _ _ s); auto; by intros [].
    + apply Orphan_processNext.
      * apply (WF_alter _ l0 false (worker s) _ _ s); auto; by intros [].
      * apply (Orphan_alter _ _ _ l0 false (worker s) _ _ s); auto; by intros [].
Qed.

Lemma Idle_step s c :
  WF s → Mutex s → Idle s →
  (∀ jid, added_id c = Some jid → fresh s jid) →
  is_setWorker c = false → Idle (step s c).
Proof.
  intros HWF HM (Hw & Hp & Hq) Hfr Hc.
  destruct c as [w|ty d now rnd|jid0 p|now|l0 o now]; simpl; try done.
  - unfold addJob; simpl. set (s1 := mkState _ _ _ _ _ _ _).
    assert (HWF1 : WF s1) by (apply WF_enqueue; auto using mk_jobId_nonempty).
    destruct (processNext_cases now s1 (wf_queue _ HWF1))
      as [[_ [H|H]]|[(_ & _ & _ & ->)|(jid1 & rest & l1 & w & _ & _ & _ & Hw1 & _)]].
    + simpl in H. congruence.
    + simpl in H. rewrite Hq in H. done.
    + done.
    + simpl in Hw1. congruence.
  - unfold updateProgress. by destruct (jobs s !! jid0).
  - unfold settle. destruct HM as (_ & _ & _ & He).
    rewrite (He Hp). rewrite decide_False; [done|]. by intros ?%elem_of_nil.
Qed.

(** C9. A job enqueued while no worker has ever been registered is taken
    off the wait-list at once and stays as it is whatever happens
    afterwards (in a run whose generated ids are pairwise distinct): it is
    never passed to a worker, also not to one registered later; it keeps
    the status [pending]; and it stays in the map through every
    [cleanupOldJobs]. *)
Theorem orphaned_without_worker cs1 ty (d : any) now rnd cs2 :
  Forall (λ c, is_setWorker c = false) cs1 →
  NoDup (added_ids (cs1 ++ CaddJob ty d now rnd :: cs2)) →
  let jid := mk_jobId ty now rnd in
  let l := length (added_ids cs1) in
  let s := run (cs1 ++ CaddJob ty d now rnd :: cs2) init in
  (jid ∉ queue s) ∧
  jobs s !! jid = Some l ∧
  (∃ j, heap s !! l = Some j ∧ id j = jid ∧ status j = pending) ∧
  (∀ w, Invoke w l ∉ log s).
Proof.
  intros Hnw Hnd jid l s.
  assert (Hsplit : added_ids (cs1 ++ CaddJob ty d now rnd :: cs2)
                   = added_ids cs1 ++ jid :: added_ids cs2).
  { unfold added_ids. by rewrite omap_app. }
  rewrite Hsplit in Hnd. apply NoDup_app in Hnd as (Hnd1 & Hdisj & Hnd2).
  apply NoDup_cons in Hnd2 as [Hjid2 Hnd2].
  (* the run before the job is enqueued *)
  assert (H0 : Idle (run cs1 init) ∧ WF (run cs1 init) ∧ Mutex (run cs1 (@init any))).
  { apply (run_ind_fresh_on (λ c, is_setWorker c = false) Idle);
      auto using init_WF, init_mutex, fresh_init.
    - intros. by apply Idle_step.
    - done. }
  destruct H0 as ((Hw0 & Hp0 & Hq0) & HWF0 & HM0).
  assert (Hlen : length (heap (run cs1 (@init any))) = l).
  { unfold l. by rewrite <- (run_allocates cs1), length_fmap. }
  assert (Hfr0 : fresh (run cs1 (@init any)) jid).
  { apply fresh_ids. rewrite run_allocates. intros Hin. by apply (Hdisj jid); [|left]. }
  (* the job is enqueued and dropped *)
  set (s1 := step (run cs1 init) (CaddJob ty d now rnd)).
  assert (H1 : Orphan jid l s1 ∧ WF s1 ∧ Mutex s1).
  { split; [|split; [apply WF_step; auto; by intros ? [= <-]|by apply step_mutex]].
    unfold s1. simpl. unfold addJob. simpl. set (s' := mkState _ _ _ _ _ _ _).
    assert (HWF' : WF s') by (apply WF_enqueue; auto using mk_jobId_nonempty).
    destruct (processNext_cases now s' (wf_queue _ HWF'))
      as [[_ [H|H]]|[(_ & _ & _ & ->)|(jid1 & rest & l1 & w & _ & _ & _ & Hw1 & _)]].
    - simpl in H. congruence.
    - simpl in H. rewrite Hq0 in H. done.
    - unfold Orphan; simpl. fold jid. rewrite Hlen. split_and!.
      + by rewrite lookup_insert_eq.
      + eexists. rewrite <- Hlen, list_lookup_middle by done. done.
      + by intros ?%elem_of_nil.
      + intros Hin. pose proof (wf_started _ HWF0) as Hst.
        rewrite Forall_forall in Hst. specialize (Hst _ Hin). lia.
    - simpl in Hw1. congruence. }
  destruct H1 as (HO1 & HWF1 & HM1).
  (* whatever follows *)
  assert (Hrun : s = run cs2 s1).
  { unfold s, s1. by rewrite run_app. }
  destruct (run_ind_fresh (Orphan jid l) (Orphan_step jid l) cs2 s1)
    as [(Hj & Hobj & Hq & Hs) _]; auto.
  { intros jid' Hin. apply fresh_ids. unfold s1. rewrite step_ids, run_allocates.
    simpl. fold jid. rewrite elem_of_app, list_elem_of_singleton.
    intros [H| ->]; [|done]. apply (Hdisj jid'); [done|by right]. }
  rewrite Hrun. split_and!; try done.
  intros w Hin. apply Hs, elem_of_starts. eauto.
Qed.

(** *** The outcome of a job *)

Lemma processNext_heap_other now s l :
  WF s → l ∉ queue_refs s → heap (processNext now s) !! l = heap s !! l.
Proof.
  intros HWF Hl.
  destruct (processNext_cases now s (wf_queue _ HWF))
    as [[-> _]|[(_ & _ & _ & ->)|(jid & rest & l0 & w & Hp & Eq & Hl0 & Hw & ->)]];
    [done..|].
  simpl. apply list_lookup_alter_ne. intros ->. apply Hl.
  rewrite (queue_refs_cons _ _ _ _ Eq Hl0). by left.
Qed.

(** What the queue records when the promise of the invocation on [l]
    settles.  On a rejection with [null] or [undefined] only the status is
    written, and the flag stays set. *)
Lemma settle_outcome s l (o : @Outcome any) now j :
  WF s → Mutex s → l ∈ awaiting s → heap s !! l = Some j →
  match o with
  | Resolved r =>
      heap (settle l o now s) !! l
      = Some (set_completedAt now (set_result r (set_status completed j)))
  | Rejected (ThrownValue m) =>
      heap (settle l o now s) !! l
      = Some (set_completedAt now
                (set_error (or_else m "Unknown error") (set_status failed j)))
  | Rejected ThrownNullish =>
      heap (settle l o now s) !! l = Some (set_status failed j) ∧
      processing (settle l o now s) = processing s ∧
      queue (settle l o now s) = queue s
  end.
Proof.
  intros HWF HM Hin Hj. unfold settle. rewrite decide_True by done.
  pose proof (not_waiting_in_flight _ _ HWF HM Hin) as Hnq.
  destruct o as [r|[|m]]; simpl.
  - rewrite processNext_heap_other; simpl.
    + by rewrite list_lookup_alter_eq, Hj.
    + apply (WF_alter _ l false (worker s) _ _ s); auto; by intros [].
    + done.
  - by rewrite list_lookup_alter_eq, Hj.
  - rewrite processNext_heap_other; simpl.
    + by rewrite list_lookup_alter_eq, Hj.
    + apply (WF_alter _ l false (worker s) _ _ s); auto; by intros [].
    + done.
Qed.

(** A job whose worker raised a value other than [null] and [undefined] is
    recorded as failed, with the message of the value or the fallback, and
    with a completion time. *)
Lemma rejected_job_recorded cs l m now :
  NoDup (added_ids cs) → l ∈ awaiting (run cs (@init any)) →
  ∃ j', heap (settle l (Rejected (ThrownValue m)) now (run cs init)) !! l = Some j' ∧
        status j' = failed ∧ error j' = Some (or_else m "Unknown error") ∧
        completedAt j' = Some now.
Proof.
  intros Hnd Hin. destruct (run_init_WF cs Hnd) as [HWF HM].
  assert (Hlt : l < length (heap (run cs (@init any)))).
  { pose proof (wf_started _ HWF) as Hst. rewrite Forall_forall in Hst.
    apply Hst, starts_in_flight. by destruct HM as (<- & _). }
  apply lookup_lt_is_Some in Hlt as [j Hj].
  pose proof (settle_outcome _ l (Rejected (ThrownValue m)) now j HWF HM Hin Hj) as H.
  simpl in H. eexists. split; [exact H|]. by destruct j.
Qed.

Lemma StronglySorted_lt_NoDup (l : list nat) : StronglySorted lt l → NoDup l.
Proof.
  induction 1 as [|x l _ IH Hx]; constructor; [|done].
  intros Hin. rewrite Forall_forall in Hx. specialize (Hx _ Hin). lia.
Qed.

(** In a run whose generated ids are pairwise distinct no job is handed to
    the worker twice: the queue does not retry. *)
Lemma started_once cs :
  NoDup (added_ids cs) → NoDup (starts (log (run cs (@init any)))).
Proof.
  intros Hnd. destruct (run_init_WF cs Hnd) as [HWF _].
  rewrite <- reverse_Permutation. apply StronglySorted_lt_NoDup.
  exact (StronglySorted_app_1_l _ _ _ (wf_sorted _ HWF)).
Qed.

(** Once the flag is set with nothing in flight, nothing is started any
    more. *)
Lemma stalled_step s c :
  processing s = true → awaiting s = [] →
  processing (step s c) = true ∧ awaiting (step s c) = [] ∧
  starts (log (step s c)) = starts (log s).
Proof.
  intros Hp Ha.
  destruct c as [w|ty d now rnd|jid p|now|l o now]; simpl; try done.
  - unfold processNext. simpl. by rewrite Hp.
  - unfold updateProgress. by destruct (jobs s !! jid).
  - unfold settle. rewrite Ha. rewrite decide_False; [done|]. by intros ?%elem_of_nil.
Qed.

Lemma stalled_forever cs s :
  processing s = true → awaiting s = [] →
  starts (log (run cs s)) = starts (log s).
Proof.
  revert s. induction cs as [|c cs IH]; intros s Hp Ha; [done|].
  destruct (stalled_step s c Hp Ha) as (Hp' & Ha' & Hs').
  simpl. by rewrite IH.
Qed.

End Facts.

(** C5, where the code departs from it.  A worker is registered; a job is
    enqueued and started; its promise is rejected with [undefined]; another
    job is enqueued.  The first job has the status [failed] but neither an
    error message nor a completion time, the flag is still set although no
    invocation is in flight, and the second job waits for ever. *)
Theorem nullish_rejection_stalls_the_queue :
  let cs : list (@Call unit) :=
    [CsetWorker 7;
     CaddJob fetch_all () 1001 "bbbbbbbbb";
     Csettle 0 (Rejected ThrownNullish) 2000;
     CaddJob fetch_all () 1002 "ccccccccc"] in
  let s := run cs init in
  (λ j, (status j, error j, completedAt j)) <$> heap s !! 0
    = Some (failed, None, None) ∧
  processing s = true ∧ awaiting s = [] ∧
  queue s = ["fetch-all_1002_ccccccccc"] ∧
  starts (log s) = [0] ∧
  ∀ cs', starts (log (run cs' s)) = [0].
Proof.
  split_and!; [vm_compute; reflexivity..|].
  intros cs'. rewrite stalled_forever; vm_compute; reflexivity.
Qed.

Lemma fifo_order_witness :
  (∀ wa, Invoke wa 0 ∉ @nil Obs) ∧
  (∀ wa, Invoke wa 0 ∈ [Emit job_started 1; Emit job_completed 0; Resume 0;
                        Emit job_added 1; Invoke 7 0; Emit job_started 0;
                        Emit job_added 0] →
         ∃ x y z, [Emit job_started 1; Emit job_completed 0; Resume 0;
                   Emit job_added 1; Invoke 7 0; Emit job_started 0;
                   Emit job_added 0]
                  = x ++ Resume 0 :: y ++ Invoke wa 0 :: z) ∧
  (worker_first Sample.two_jobs →
   ∃ wa, Invoke wa 0 ∈ [Emit job_started 1; Emit job_completed 0; Resume 0;
                        Emit job_added 1; Invoke 7 0; Emit job_started 0;
                        Emit job_added 0]).
Proof.
  apply (fifo_order Sample.two_jobs [] 7 1
           [Emit job_started 1; Emit job_completed 0; Resume 0;
            Emit job_added 1; Invoke 7 0; Emit job_started 0; Emit job_added 0] 0).
  - apply (bool_decide_unpack _). vm_compute. exact I.
  - vm_compute. reflexivity.
  - exists [Invoke 7 1; Emit job_started 1; Emit job_completed 0; Resume 0],
           [Invoke 7 0; Emit job_started 0], [].
    vm_compute. reflexivity.
Defined.

Lemma orphaned_without_worker_witness :
  let jid := mk_jobId fetch_commits 1000 "aaaaaaaaa" in
  let s := run ([] ++ CaddJob fetch_commits
                        (Orchestrator.FetchCommitsJob Sample.one_repo) 1000 "aaaaaaaaa"
                      :: Sample.after_the_orphan) init in
  (jid ∉ queue s) ∧
  jobs s !! jid = Some 0 ∧
  (∃ j, heap s !! 0 = Some j ∧ id j = jid ∧ status j = pending) ∧
  (∀ w, Invoke w 0 ∉ log s).
Proof.
  apply (orphaned_without_worker [] fetch_commits
           (Orchestrator.FetchCommitsJob Sample.one_repo) 1000 "aaaaaaaaa"
           Sample.after_the_orphan).
  - constructor.
  - apply (bool_decide_unpack _). vm_compute. exact I.
Defined.

(** The same run at its end: the orphan is still pending, with the
    progress written to it, while the job that ran was swept. *)
Example orphan_run_end :
  let s := run (CaddJob fetch_commits
                  (Orchestrator.FetchCommitsJob Sample.one_repo) 1000 "aaaaaaaaa"
                :: Sample.after_the_orphan) init in
  (λ j, (status j, progress j)) <$> getJob "fetch-commits_1000_aaaaaaaaa" s
    = Some (pending, Some 50%float) ∧
  getJob "fetch-all_1001_bbbbbbbbb" s = None ∧
  starts (log s) = [1].
Proof. split_and!; vm_compute; reflexivity. Qed.

Example serial_rejects_overlap : ¬ serial [Invoke 7 1; Invoke 7 0].
Proof. simpl. lia. Qed.

End JobQueueFacts.

(** ** Facts about the persistence sink *)

Module SinkFacts.

Import Js Sink.

Section Facts.

Context {DB : Type} `{!Engine DB}.

Implicit Types (db : DB) (c : CommitData) (faults : Faults).

(** The loop over the files either runs every statement, or stops at the
    first statement that raises. *)
Lemma insert_files_spec faults k c fs db :
  (insert_files faults k c fs db
     = (fold_left (λ d f, insertFile_run (file_row c f) d) fs db, None) ∧
   ∀ i, k ≤ i < k + length fs → faults i = None) ∨
  (∃ db' e i, insert_files faults k c fs db = (db', Some e) ∧
              k ≤ i < k + length fs ∧ faults i = Some e).
Proof.
  revert k db. induction fs as [|f fs IH]; intros k db; simpl.
  - left. split; [done|]. intros i Hi. lia.
  - destruct (faults k) as [e|] eqn:Ek.
    + right. exists db, e, k. split_and!; auto with lia.
    + destruct (IH (S k) (insertFile_run (file_row c f) db))
        as [[-> Hnone]|(db' & e & i & -> & Hi & He)].
      * left. split; [done|]. intros i Hi.
        destruct (decide (i = k)) as [->|]; [done|]. apply Hnone. lia.
      * right. exists db', e, i. split_and!; auto with lia.
Qed.

(** C6. [saveCommitToDB] has two outcomes only, for every commit, summary,
    database and failing statement: it answers [true] and the commit row
    and every file row have been written, no statement having failed; or it
    answers [false], some statement of the transaction having failed, and
    the database is the one it was called with. *)
Theorem saveCommitToDB_atomic faults c (aiSummary : option string)
    (now_iso : string) db :
  (saveCommitToDB faults c aiSummary now_iso db
     = (true, all_written c aiSummary now_iso db) ∧
   ∀ k, k ≤ S (length (files c)) → faults k = None) ∨
  (saveCommitToDB faults c aiSummary now_iso db = (false, db) ∧
   ∃ k e, k ≤ S (length (files c)) ∧ faults k = Some e).
Proof.
  unfold saveCommitToDB, transaction, save_body, all_written.
  destruct (faults 0) as [e0|] eqn:E0.
  { right. split; [done|]. exists 0, e0. auto with lia. }
  destruct (insert_files_spec faults 1 c (files c)
              (insertCommit_run (commit_row c aiSummary now_iso) db))
    as [[-> Hnone]|(db' & e & i & -> & Hi & He)].
  - destruct (faults (S (length (files c)))) as [e|] eqn:Ec.
    + right. split; [done|]. exists (S (length (files c))), e. auto.
    + left. split; [done|]. intros k Hk.
      destruct (decide (k = 0)) as [->|]; [done|].
      destruct (decide (k = S (length (files c)))) as [->|]; [done|].
      apply Hnone. lia.
  - right. split; [done|]. exists i, e. auto with lia.
Qed.

(** A transaction in which a statement fails leaves the database alone and
    makes [saveCommitToDB] answer [false]: the error goes no further. *)
Lemma saveCommitToDB_fault faults c (aiSummary : option string)
    (now_iso : string) db k e :
  k ≤ S (length (files c)) → faults k = Some e →
  saveCommitToDB faults c aiSummary now_iso db = (false, db).
Proof.
  intros Hk He. unfold saveCommitToDB, transaction, save_body.
  destruct (faults 0) as [e0|] eqn:E0; [done|].
  destruct (insert_files_spec faults 1 c (files c)
              (insertCommit_run (commit_row c aiSummary now_iso) db))
    as [[-> Hnone]|(db' & e' & i & -> & _)]; [|done].
  destruct (faults (S (length (files c)))) as [e'|] eqn:Ec; [done|].
  destruct (decide (k = 0)) as [->|]; [congruence|].
  destruct (decide (k = S (length (files c)))) as [->|]; [congruence|].
  rewrite Hnone in He by lia. done.
Qed.

End Facts.

(** The transaction is what makes the write atomic: when the first file row
    cannot be written, the function passed to [db.transaction] has already
    written the commit row, and the rollback takes it out again. *)
Example rollback_undoes_the_commit_row :
  save_body (Sample.disk_error Sample.commit_abc) Sample.commit_abc None
            "2024-02-01T00:00:00Z" Sample.empty
  = (mkTables [commit_row Sample.commit_abc None "2024-02-01T00:00:00Z"] [],
     Some "disk I/O error") ∧
  saveCommitToDB (Sample.disk_error Sample.commit_abc) Sample.commit_abc None
                 "2024-02-01T00:00:00Z" Sample.empty
  = (false, Sample.empty).
Proof. split; vm_compute; reflexivity. Qed.

End SinkFacts.

(** ** Facts about the annotation step *)

Module AnnotationFacts.

Import Js Sink Annotation.

Lemma trimStart_unfold s :
  trimStart s = match after_space s with Some r => trimStart r | None => s end.
Proof.
  destruct s as [|c [|d [|e s3]]]; simpl; try done.
  - by destruct (is_space c).
  - destruct (is_space c); [done|]. by destruct (is_space2 c d).
  - destruct (is_space c); [done|]. destruct (is_space2 c d); [done|].
    by destruct (is_space3 c d e).
Qed.

Lemma after_space_app s r w :
  after_space s = Some r → after_space (s +:+ w) = Some (r +:+ w)%string.
Proof.
  destruct s as [|c [|d [|e s3]]]; simpl; try done.
  - destruct (is_space c); [|done]. by intros [= <-].
  - destruct (is_space c); [by intros [= <-]|].
    destruct (is_space2 c d); [|done]. by intros [= <-].
  - destruct (is_space c); [by intros [= <-]|].
    destruct (is_space2 c d); [by intros [= <-]|].
    destruct (is_space3 c d e); [|done]. by intros [= <-].
Qed.

Lemma after_space_split s r : after_space s = Some r → ∃ w, s = (w +:+ r)%string ∧ w ≠ "".
Proof.
  destruct s as [|c [|d [|e s3]]]; simpl; try done.
  - destruct (is_space c); [|done]. intros [= <-]. by exists (String c "").
  - destruct (is_space c); [intros [= <-]; by exists (String c "")|].
    destruct (is_space2 c d); [|done]. intros [= <-]. by exists (String c (String d "")).
  - destruct (is_space c); [intros [= <-]; by exists (String c "")|].
    destruct (is_space2 c d); [intros [= <-]; by exists (String c (String d ""))|].
    destruct (is_space3 c d e); [|done]. intros [= <-].
    by exists (String c (String d (String e ""))).
Qed.

Lemma length_app_string (a b : string) :
  String.length (a +:+ b) = String.length a + String.length b.
Proof. induction a as [|x a IH]; [done|]. simpl. unfold String.app in *. by rewrite <- IH. Qed.

Lemma string_ind_length (P : string → Prop) :
  (∀ s, (∀ r, String.length r < String.length s → P r) → P s) → ∀ s, P s.
Proof.
  intros H s. remember (String.length s) as n eqn:Hn.
  revert s Hn. induction (lt_wf n) as [n _ IH]. intros s ->.
  apply H. intros r Hr. by apply (IH (String.length r)).
Qed.

Lemma after_space_shorter s r :
  after_space s = Some r → String.length r < String.length s.
Proof.
  intros (w & -> & Hw)%after_space_split. rewrite length_app_string.
  destruct w; [done|]. simpl. lia.
Qed.

Lemma app_string_assoc (a b c : string) : ((a +:+ b) +:+ c = a +:+ (b +:+ c))%string.
Proof.
  induction a as [|x a IH]; [done|].
  change (String x ((a +:+ b) +:+ c) = String x (a +:+ (b +:+ c)))%string.
  by f_equal.
Qed.

Lemma app_string_nil_r (a : string) : (a +:+ "" = a)%string.
Proof.
  induction a as [|x a IH]; [done|].
  change (String x (a +:+ "") = String x a)%string. by f_equal.
Qed.

(** What [trimStart] answers is the end of the string, and does not start
    with white space. *)
Lemma trimStart_suffix s :
  (∃ w, s = (w +:+ trimStart s)%string) ∧ after_space (trimStart s) = None.
Proof.
  induction s as [s IH] using string_ind_length.
  rewrite trimStart_unfold. destruct (after_space s) as [r|] eqn:E.
  - destruct (IH r (after_space_shorter _ _ E)) as [[w Hw] Hn]. split; [|done].
    apply after_space_split in E as (w0 & -> & _).
    exists (w0 +:+ w)%string. by rewrite app_string_assoc, <- Hw.
  - split; [by exists ""%string|done].
Qed.

Lemma trimStart_idemp s : trimStart (trimStart s) = trimStart s.
Proof.
  destruct (trimStart_suffix s) as [_ Hn].
  by rewrite (trimStart_unfold (trimStart s)), Hn.
Qed.

Lemma trimStart_app_blank a w : trimStart a = "" → trimStart (a +:+ w) = trimStart w.
Proof.
  induction a as [a IH] using string_ind_length. intros Ha.
  rewrite trimStart_unfold in Ha. destruct (after_space a) as [r|] eqn:E.
  - rewrite (trimStart_unfold (a +:+ w)), (after_space_app _ _ w E).
    apply IH; [by apply after_space_shorter|done].
  - by subst a.
Qed.

(** What [trimEnd] answers is the start of the string, and what it leaves
    out is white space. *)
Lemma trimEnd_prefix s : ∃ w, s = (trimEnd s +:+ w)%string ∧ trimStart w = "".
Proof.
  induction s as [|c s IH]; [by exists ""%string|].
  cbn [trimEnd]. destruct (String.eqb_spec (trimStart (String c s)) "") as [Hb|Hb].
  - by exists (String c s).
  - destruct IH as (w & Hw & Hblank). exists w. split; [|done].
    change (String c s = String c (trimEnd s +:+ w)). by rewrite <- Hw.
Qed.

Lemma trimEnd_idemp s : trimEnd (trimEnd s) = trimEnd s.
Proof.
  induction s as [|c s IH]; [done|].
  cbn [trimEnd]. destruct (String.eqb_spec (trimStart (String c s)) "") as [Hb|Hb]; [done|].
  cbn [trimEnd]. rewrite IH.
  destruct (String.eqb_spec (trimStart (String c (trimEnd s))) "") as [Hb'|Hb']; [|done].
  destruct Hb. destruct (trimEnd_prefix s) as (w & Hw & Hblank).
  rewrite Hw at 1.
  change (trimStart (String c (trimEnd s) +:+ w) = "").
  by rewrite (trimStart_app_blank _ w Hb').
Qed.

Lemma trimEnd_not_blank s : trimEnd s = "" → trimStart s = "".
Proof.
  destruct s as [|c s]; [done|]. cbn [trimEnd].
  by destruct (String.eqb_spec (trimStart (String c s)) "").
Qed.

(** What [trim] answers has no white space at either end. *)
Lemma trim_trimmed s : trimStart (trim s) = trim s ∧ trimEnd (trim s) = trim s.
Proof.
  unfold trim. split; [|apply trimEnd_idemp].
  destruct (trimStart_suffix s) as [_ Hn].
  rewrite trimStart_unfold.
  destruct (after_space (trimEnd (trimStart s))) as [r|] eqn:E; [|done].
  destruct (trimEnd_prefix (trimStart s)) as (w & Hw & _).
  apply (after_space_app _ _ w) in E. rewrite <- Hw in E. congruence.
Qed.

Lemma trim_idemp s : trim (trim s) = trim s.
Proof.
  destruct (trim_trimmed s) as [H1 H2]. unfold trim at 1. by rewrite H1, H2.
Qed.

Lemma trimStart_blank s :
  (∀ c t1 t2, s = (t1 +:+ String c t2)%string → is_space c = true) →
  trimStart s = EmptyString.
Proof.
  induction s as [|c s IH]; intros Hall; [done|].
  cbn [trimStart]. rewrite (Hall c EmptyString s eq_refl). apply IH.
  intros c' t1 t2 ->. by apply (Hall c' (String c t1) t2).
Qed.

Lemma trim_blank s : trimStart s = "" → trim s = "".
Proof. unfold trim. by intros ->. Qed.

(** The two versions of the function agree. *)
Lemma analyzeCommitWithAI_cli_eq mistral c :
  analyzeCommitWithAI_cli mistral c = analyzeCommitWithAI mistral c.
Proof.
  unfold analyzeCommitWithAI_cli, analyzeCommitWithAI.
  destruct mistral as [client|]; [|done].
  by destruct (client (prompt c)) as [[s| |]|msg].
Qed.

(** On a client whose errors are [Error] objects the function never
    raises, and answers what the function above answers. *)
Lemma analyzeCommitWithAI_as_service TypeError_message (client : option Client) c :
  Raising.analyzeCommitWithAI TypeError_message (as_service <$> client) c
  = Returned (analyzeCommitWithAI client c).
Proof.
  destruct client as [client|]; [|done]. simpl.
  unfold as_service. by destruct (client (prompt c)) as [[s| |]|m].
Qed.



(** The function does raise outward: on a client whose promise is rejected
    with [undefined], and in fetcher.ts and index.js alike. *)
Example nullish_rejection_leaves_analyzeCommitWithAI :
  Raising.analyzeCommitWithAI "Cannot read properties of undefined (reading 'message')"
    (Some (Sample.rejects_with_undefined "key")) Sample.commit_abc
  = Raised "Cannot read properties of undefined (reading 'message')" ∧
  Raising.analyzeCommitWithAI_cli "Cannot read properties of undefined (reading 'message')"
    (Some (Sample.rejects_with_undefined "key")) Sample.commit_abc
  = Raised "Cannot read properties of undefined (reading 'message')".
Proof. split; reflexivity. Qed.

(** [trim] on white space that is not ASCII: the ideographic space U+3000,
    the no-break space U+00A0, and a letter whose second byte is A0. *)
Example trim_beyond_ascii :
  trim "　 a b　" = "a b" ∧
  trim (String (Ascii.ascii_of_nat 194) (String (Ascii.ascii_of_nat 160) "")) = "" ∧
  trim "à " = "à".
Proof. split_and!; vm_compute; reflexivity. Qed.

End AnnotationFacts.

(** ** Facts about the worker *)

Module OrchestratorFacts.

Import Js Sink Annotation Orchestrator.

Section Facts.

Context {DB : Type} `{!Engine DB}.

Variable getCommits : string → string → FetchOptions.t → list string.
Variable getCommitDetailsWithDiff : string → string → string → option CommitData.
Variable mistral_client : string → Client.
Variable faults : CommitData → Faults.
Variable toISOString_now : CommitData → string.
Variable thirty_days_ago : Date.

#[local] Abbreviation process_commit :=
  (Orchestrator.process_commit getCommitDetailsWithDiff faults toISOString_now).
#[local] Abbreviation commits_loop :=
  (Orchestrator.commits_loop getCommitDetailsWithDiff faults toISOString_now).
#[local] Abbreviation repos_loop :=
  (Orchestrator.repos_loop getCommits getCommitDetailsWithDiff faults toISOString_now).
#[local] Abbreviation fetch_commits :=
  (Orchestrator.fetch_commits getCommits getCommitDetailsWithDiff mistral_client faults
                              toISOString_now thirty_days_ago).

Implicit Types (db : DB) (mistral : option Client) (t : list Action).

(** *** The calls made for one commit *)

(** The detail fetch comes first, whatever the database holds. *)
Lemma process_commit_fetches_first mistral owner name sha db results :
  ∃ rest, (process_commit mistral owner name sha db results).1.1
          = Call_getCommitDetailsWithDiff owner name sha :: rest.
Proof.
  unfold Orchestrator.process_commit.
  destruct (getCommitDetailsWithDiff owner name sha) as [details|]; [|by eexists].
  destruct (truthy _), mistral; destruct (saveCommitToDB _ _ _ _ _); by eexists.
Qed.







(** *** A commit that is already annotated *)

(** For a commit stored with an annotation the worker fetches the details,
    does not call the annotation step, and writes the commit again with
    the stored annotation. *)
Lemma process_commit_annotated mistral owner name sha db results details summary :
  getCommitDetailsWithDiff owner name sha = Some details →
  getCommitFromDB (fullSha details) db = Some (Some summary) →
  truthy (Some summary) = true →
  ∃ ok db' results',
    process_commit mistral owner name sha db results
    = ([Call_getCommitDetailsWithDiff owner name sha;
        Call_getCommitFromDB (fullSha details);
        Call_saveCommitToDB (fullSha details) (Some summary) ok;
        Pause 100], db', results').
Proof.
  intros Hd He Ht. unfold Orchestrator.process_commit. rewrite Hd, He, Ht.
  destruct (saveCommitToDB _ _ _ _ _) as [ok db']. by eexists _, _, _.
Qed.

(** *** A save that fails *)

(** When a statement of the transaction fails, the commit is left out of
    the results and the database is as before. *)
Lemma process_commit_save_fails mistral owner name sha db results details k e :
  getCommitDetailsWithDiff owner name sha = Some details →
  k ≤ S (length (files details)) → faults details k = Some e →
  (process_commit mistral owner name sha db results).1.2 = db ∧
  (process_commit mistral owner name sha db results).2 = results.
Proof.
  intros Hd Hk He. unfold Orchestrator.process_commit. rewrite Hd.
  destruct (truthy _), mistral;
    by rewrite (SinkFacts.saveCommitToDB_fault _ _ _ _ _ k e Hk He).
Qed.

End Facts.

(** The claim C3 as stated fails: the first file row of the commit cannot
    be written, [saveCommitToDB] answers [false], the worker returns with
    no commit collected and the database untouched, and the queue records
    the job as [completed]. *)
Lemma failed_save_completes_the_job :
  let r := Orchestrator.fetch_commits Sample.lists_abc Sample.details_abc Sample.client
             Sample.disk_error Sample.clock 0 "fetch-commits_1000_aaaaaaaaa"
             Sample.one_repo Sample.config Sample.empty in
  r = ([Call_updateProgress "fetch-commits_1000_aaaaaaaaa" 100;
        Call_getCommits "acme" "widgets" Sample.options;
        Call_getCommitDetailsWithDiff "acme" "widgets" "abc1234def";
        Call_getCommitFromDB "abc1234def";
        Call_analyzeCommitWithAI "abc1234def";
        Call_saveCommitToDB "abc1234def" (Some "Fixes a loop bound.") false;
        Pause 100],
       Sample.empty, Returns 0 []) ∧
  JobQueue.status <$>
    JobQueue.heap (JobQueue.run (Sample.one_job_started
                                   ++ [JobQueue.Csettle 0 (settlement r.2) 2000])
                                JobQueue.init) !! 0
  = Some JobQueue.completed.
Proof. split; vm_compute; reflexivity. Qed.

(** The value reported is the one the host computes in binary64: for the
    29th of 200 repositories that is 14, where the exact quotient 14.5
    would round to 15; entries that are not of the form owner/name are
    passed over. *)
Example progress_values :
  progress_percent 28 200 = 14%float ∧
  expected_reports 0 3 ["acme/widgets"; "widgets"; "acme/gadgets"]
  = [33%float; 100%float].
Proof. split; vm_compute; reflexivity. Qed.


(** C4, where the worker departs from it.  The commit is stored with an
    annotation; the worker still fetches its details and writes it again
    (the time of the annotation changes); it does not annotate again. *)
Theorem annotated_commit_is_fetched_and_rewritten :
  Orchestrator.fetch_commits Sample.lists_abc Sample.details_abc Sample.client
    Sample.no_fault Sample.clock 0 "fetch-commits_1000_aaaaaaaaa"
    Sample.one_repo Sample.config Sample.annotated
  = ([Call_updateProgress "fetch-commits_1000_aaaaaaaaa" 100;
      Call_getCommits "acme" "widgets" Sample.options;
      Call_getCommitDetailsWithDiff "acme" "widgets" "abc1234def";
      Call_getCommitFromDB "abc1234def";
      Call_saveCommitToDB "abc1234def" (Some "Fixes a loop bound.") true;
      Pause 100],
     mkTables [commit_row Sample.commit_abc (Some "Fixes a loop bound.")
                          "2024-02-01T00:00:00Z"]
              [file_row Sample.commit_abc Sample.file_a],
     Returns 1 [ResultEntry.mk "abc1234" "acme/widgets" "fix: off by one" "Ann" 1 3 1
                               (Some "Fixes a loop bound.")]).
Proof. vm_compute. reflexivity. Qed.

End OrchestratorFacts.

(** ** Facts about the loop of index.js *)

Module CliFacts.

Import Js Sink Annotation Orchestrator Cli.

Section Facts.

Context {DB : Type} `{!Engine DB}.

Variable getCommitDetailsWithDiff : string → string → string → option CommitData.
Variable faults : CommitData → Faults.
Variable toISOString_now : CommitData → string.

(** For a commit stored with an annotation [main] looks the commit up and
    goes on to the next one: no detail fetch, no annotation, no write. *)
Lemma main_skips_annotated blacklistAuthors mistral owner name commit
    (db : DB) allResults summary :
  author_name commit ∉ blacklistAuthors →
  getCommitFromDB (sha commit) db = Some (Some summary) →
  truthy (Some summary) = true →
  Cli.process_commit getCommitDetailsWithDiff faults toISOString_now
    blacklistAuthors mistral owner name commit db allResults
  = ([Call_getCommitFromDB (sha commit)], db, allResults).
Proof.
  intros Hb He Ht. unfold Cli.process_commit.
  rewrite (bool_decide_eq_false_2 _ Hb), andb_false_r, He, Ht. done.
Qed.

End Facts.

(** On the database and the commit of
    [OrchestratorFacts.annotated_commit_is_fetched_and_rewritten], [main]
    skips the commit. *)
Lemma main_skips_sample :
  Cli.process_commit Sample.details_abc Sample.no_fault Sample.clock [] None
    "acme" "widgets" (mkListedCommit "abc1234def" "Ann") Sample.annotated []
  = ([Call_getCommitFromDB "abc1234def"], Sample.annotated, []).
Proof. vm_compute. reflexivity. Qed.

End CliFacts.

(** ** More facts about the job queue: polling, statistics, the sweep *)

Module JobQueueLifecycle.

Import Js JobQueue JobQueueFacts.

Section Facts.

Context {any : Type}.

Implicit Types (s : @State any) (j : @Job any) (c : @Call any) (cs : list (@Call any)).
Implicit Types (l : ref) (jobId jid : string).

(** *** [getStats] *)

Lemma filter_status_partition (js : list (@Job any)) :
  length js
  = length (filter (λ j, status j = pending) js)
    + length (filter (λ j, status j = processing_) js)
    + length (filter (λ j, status j = completed) js)
    + length (filter (λ j, status j = failed) js).
Proof.
  induction js as [|j js IH]; [done|].
  rewrite !filter_cons. simpl. rewrite IH.
  destruct (status j); repeat case_decide; try done; simpl; lia.
Qed.

(** X1. The four counts of [getStats] add up to its total: every job of
    the map is counted under exactly one status. *)
Theorem getStats_partition s :
  total (getStats s)
  = n_pending (getStats s) + n_processing (getStats s)
    + n_completed (getStats s) + n_failed (getStats s).
Proof. unfold getStats, getJobsByStatus. simpl. apply filter_status_partition. Qed.

(** *** [addJob] and [getJob] *)

(** [processNext] leaves the map alone and touches at most one job object,
    which it marks as started. *)
Lemma processNext_touches now s :
  jobs (processNext now s) = jobs s ∧
  (heap (processNext now s) = heap s ∨
   ∃ l, heap (processNext now s)
        = alter (λ j, set_startedAt now (set_status processing_ j)) l (heap s)).
Proof.
  unfold processNext. destruct (processing s); [by auto|].
  generalize (queue s) as q. intros q. revert s.
  induction q as [|jid rest IH]; intros s; simpl; [by auto|].
  destruct (String.eqb jid ""); [by auto|].
  destruct (jobs s !! jid) as [l|], (worker s) as [w|]; simpl; eauto;
    apply (IH (mkState (jobs s) rest false _ (heap s) (awaiting s) (log s))).
Qed.


(** *** The sweep *)

Lemma collectable_mono (h : list (@Job any)) t1 t2 l :
  (t1 ≤ t2)%Z → collectable h t1 l = true → collectable h t2 l = true.
Proof.
  unfold collectable. destruct (h !! l) as [j|]; [|done].
  destruct (terminal (status j)); [|done]. simpl.
  destruct (completedAt j) as [c|]; [|done].
  intros Ht Hc. apply Z.ltb_lt in Hc. apply Z.ltb_lt. lia.
Qed.

(** X5. The sweep only removes entries of the map, it removes exactly the
    finished jobs whose completion time lies more than an hour back, and a
    later sweep makes an earlier one redundant: sweeping at [now1] and then
    at [now2] is sweeping at [now2] (in particular, sweeping twice at the
    same time is sweeping once). *)
Theorem cleanupOldJobs_sweeps now1 now2 s :
  (∀ jid l, jobs (cleanupOldJobs now2 s) !! jid = Some l ↔
            jobs s !! jid = Some l ∧
            ¬ (∃ j t, heap s !! l = Some j ∧ terminal (status j) = true ∧
                      completedAt j = Some t ∧ (t < now2 - 3600000)%Z)) ∧
  ((now1 ≤ now2)%Z →
   cleanupOldJobs now2 (cleanupOldJobs now1 s) = cleanupOldJobs now2 s).
Proof.
  split.
  - intros jid l. unfold cleanupOldJobs. simpl.
    rewrite map_lookup_filter_Some. simpl.
    apply and_iff_compat_l. unfold collectable.
    destruct (heap s !! l) as [j|]; [|naive_solver].
    destruct (terminal (status j)) eqn:Ht; simpl;
      [|split; [intros _ (j' & c' & [= <-] & ? & _); congruence|done]].
    destruct (completedAt j) as [c|] eqn:Hc;
      [|split; [intros _ (j' & c' & [= <-] & ? & ? & _); congruence|done]].
    destruct (Z.ltb_spec c (now2 - 60 * 60 * 1000)); split; try done.
    + intros H'. destruct H'. exists j, c. split_and!; auto with lia.
    + intros _ (j' & c' & [= <-] & _ & Hc' & ?).
      assert (c' = c) by congruence. lia.
  - intros Hle. unfold cleanupOldJobs. simpl. f_equal.
    rewrite map_filter_filter. apply map_filter_ext.
    intros jid l Hl. simpl. split; [by intros [? _]|].
    intros H2. split; [done|].
    destruct (collectable (heap s) (now1 - 60 * 60 * 1000) l) eqn:E; [|done].
    apply (collectable_mono _ _ (now2 - 60 * 60 * 1000)) in E; [congruence|lia].
Qed.

(** *** The flag and the wait-list *)

Lemma processNext_from_busy q now s :
  is_Some (worker s) → Forall (λ jid, jid ≠ "") q →
  queue s = q → processing s = false → awaiting s = [] →
  Busy (processNext_from q now s).
Proof.
  revert s. induction q as [|jid rest IH]; intros s Hw Hq Eq Hp Ha.
  - simpl. unfold Busy. rewrite Eq, Hp, Ha. split_and!; auto. done.
  - apply Forall_cons in Hq as [Hjid Hrest]. simpl.
    apply String.eqb_neq in Hjid. rewrite Hjid.
    destruct (jobs s !! jid) as [l|] eqn:Hl, (worker s) as [w|] eqn:Ew;
      try (by destruct Hw); try (by apply IH).
    unfold Busy; simpl. rewrite Ha. split_and!; eauto. done.
Qed.

Lemma processNext_busy now s :
  is_Some (worker s) → Forall (λ jid, jid ≠ "") (queue s) →
  (processing s = false → awaiting s = []) →
  (processing s = true → ∃ l, awaiting s = [l]) →
  Busy (processNext now s).
Proof.
  intros Hw Hq Hf Ht. unfold processNext.
  destruct (processing s) eqn:Hp.
  - unfold Busy. rewrite Hp. split_and!; auto. done.
  - apply processNext_from_busy; auto.
Qed.

Lemma Busy_step s c : Busy s → is_nullish_settle c = false → Busy (step s c).
Proof.
  intros (Hw & Hq & Hf & Ht) Hc.
  destruct c as [w|ty d now rnd|jid0 p|now|l0 o now]; simpl.
  - unfold Busy; simpl. split_and!; eauto.
  - unfold addJob; simpl. apply processNext_busy; simpl; auto.
    + apply Forall_app. split; [done|].
      apply Forall_singleton, mk_jobId_nonempty.
    + intros Hp. by apply Hf.
  - unfold updateProgress. destruct (jobs s !! jid0) as [l0|]; [|done].
    unfold Busy; simpl. split_and!; eauto.
  - unfold Busy, cleanupOldJobs; simpl. split_and!; eauto.
  - unfold settle. destruct (decide (l0 ∈ awaiting s)) as [Hin|]; [|done].
    assert (Hrm : remove_first l0 (awaiting s) = []).
    { destruct (processing s) eqn:Hp.
      - destruct (Ht eq_refl) as [l1 Hl1]. rewrite Hl1 in *.
        apply list_elem_of_singleton in Hin as ->. simpl. by rewrite decide_True.
      - destruct (Hf eq_refl) as [_ Ha]. rewrite Ha in Hin.
        by apply elem_of_nil in Hin. }
    destruct o as [r|[|m]]; simpl; [|done|];
      apply processNext_busy; simpl; auto; done.
Qed.

(** X3. No lost wake-up.  When a worker is registered before anything else
    (as index.ts does) and no promise of the worker is rejected with [null]
    or [undefined], then after every sequence of calls and settlements
    (colliding ids included) the flag tells the truth: while it is clear the
    wait-list is empty and nothing is in flight, and while it is set exactly
    one invocation is in flight.  So a job never waits while the queue is
    idle. *)
Theorem no_job_waits_while_idle cs :
  worker_first cs →
  Forall (λ c, is_nullish_settle c = false) cs →
  (processing (run cs (@init any)) = false →
   queue (run cs (@init any)) = [] ∧ awaiting (run cs (@init any)) = []) ∧
  (processing (run cs (@init any)) = true →
   ∃ l, awaiting (run cs (@init any)) = [l]).
Proof.
  intros (w0 & cs' & ->) Hcs. apply Forall_cons in Hcs as [_ Hcs].
  simpl.
  assert (HB : Busy (setWorker w0 (@init any))).
  { unfold Busy; simpl. split_and!; eauto. done. }
  revert HB. generalize (setWorker w0 (@init any)) as s.
  induction Hcs as [|c cs2 Hc Hcs IH]; intros s HB; simpl.
  - by destruct HB as (_ & _ & ? & ?).
  - apply IH. by apply Busy_step.
Qed.

(** *** The status 'processing' *)

Lemma Tracked_processNext now s :
  WF s → (processing s = false → awaiting s = []) → Tracked s →
  Tracked (processNext now s).
Proof.
  intros HWF Hidle HT.
  destruct (processNext_cases now s (wf_queue _ HWF))
    as [[-> _]|[(_ & _ & _ & ->)|(jid & rest & l0 & w & Hp & Eq & Hl0 & Hw & ->)]];
    [done|done|].
  intros l Hl. simpl in *. rewrite (Hidle Hp) in Hl.
  apply list_elem_of_singleton in Hl as ->.
  destruct (wf_ids _ HWF _ _ Hl0) as (j & Hj & Hid).
  exists (set_startedAt now (set_status processing_ j)).
  rewrite list_lookup_alter_eq, Hj. simpl. by rewrite Hid.
Qed.

Lemma Tracked_step s c :
  WF s → Mutex s → Tracked s →
  (∀ jid, added_id c = Some jid → fresh s jid) → Tracked (step s c).
Proof.
  intros HWF HM HT Hfr.
  destruct c as [w|ty d now rnd|jid0 p|now|l0 o now]; simpl.
  - done.
  - unfold addJob; simpl. set (s1 := mkState _ _ _ _ _ _ _).
    assert (HWF1 : WF s1) by (apply WF_enqueue; auto using mk_jobId_nonempty).
    apply Tracked_processNext; [done|by destruct HM as (?&?&?&?)|].
    intros l Hl. destruct (HT l Hl) as (j & Hj & Hjid & Hst).
    exists j. unfold s1; simpl. split_and!; [| |done].
    + by rewrite lookup_app_l by (by apply lookup_lt_Some in Hj).
    + rewrite lookup_insert_ne; [done|].
      intros Heq. by apply (Hfr _ eq_refl l j Hj).
  - unfold updateProgress. destruct (jobs s !! jid0) as [l0|]; [|done].
    intros l Hl. destruct (HT l Hl) as (j & Hj & Hjid & Hst). simpl.
    rewrite list_lookup_alter. case_decide; subst.
    + exists (set_progress p j). rewrite Hj. simpl. by destruct j.
    + by exists j.
  - intros l Hl. destruct (HT l Hl) as (j & Hj & Hjid & Hst).
    exists j. unfold cleanupOldJobs; simpl. split_and!; [done| |done].
    apply map_lookup_filter_Some_2; [done|]. simpl.
    unfold collectable. by rewrite Hj, Hst.
  - unfold settle. destruct (decide (l0 ∈ awaiting s)) as [Hin|]; [|done].
    pose proof HM as (Ha & Hser & Hlen & Hidle).
    pose proof (in_remove_first_single _ _ Hlen Hin) as Hrm.
    assert (Hnq : l0 ∉ queue_refs s) by (by apply not_waiting_in_flight).
    destruct o as [r|[|m]]; simpl.
    + apply Tracked_processNext; simpl; rewrite ?Hrm; auto.
      * apply (WF_alter _ l0 false (worker s) _ _ s); auto; by intros [].
      * by intros l ?%elem_of_nil.
    + rewrite Hrm. by intros l ?%elem_of_nil.
    + apply Tracked_processNext; simpl; rewrite ?Hrm; auto.
      * apply (WF_alter _ l0 false (worker s) _ _ s); auto; by intros [].
      * by intros l ?%elem_of_nil.
Qed.

Lemma Accounted_processNext now s :
  WF s → Accounted s → Accounted (processNext now s).
Proof.
  intros HWF HA.
  destruct (processNext_cases now s (wf_queue _ HWF))
    as [[-> _]|[(_ & _ & _ & ->)|(jid & rest & l0 & w & Hp & Eq & Hl0 & Hw & ->)]];
    [done|done|].
  intros l j Hj Hst. simpl in *. rewrite list_lookup_alter in Hj.
  case_decide; subst; [by left|]. right. by apply (HA l j).
Qed.

Lemma Accounted_settled (f : Job → Job) l0 pr lg' s :
  Accounted s → (∀ j, status (f j) ≠ processing_) →
  Accounted (mkState (jobs s) (queue s) pr (worker s) (alter f l0 (heap s))
                     (remove_first l0 (awaiting s)) lg').
Proof.
  intros HA Hf l j Hj Hst. simpl in *.
  destruct (decide (l0 = l)) as [->|Hne].
  - rewrite list_lookup_alter_eq in Hj.
    destruct (heap s !! l) as [j0|]; simplify_eq/=. by destruct (Hf j0).
  - rewrite list_lookup_alter_ne in Hj by done.
    apply remove_first_ne; [done|]. by apply (HA l j).
Qed.

Lemma Accounted_step s c :
  WF s → Mutex s → Accounted s →
  (∀ jid, added_id c = Some jid → fresh s jid) → Accounted (step s c).
Proof.
  intros HWF HM HA Hfr.
  destruct c as [w|ty d now rnd|jid0 p|now|l0 o now]; simpl.
  - done.
  - unfold addJob; simpl. set (s1 := mkState _ _ _ _ _ _ _).
    assert (HWF1 : WF s1) by (apply WF_enqueue; auto using mk_jobId_nonempty).
    apply Accounted_processNext; [done|].
    intros l j Hj Hst. unfold s1 in *; simpl in *.
    apply lookup_app_Some in Hj as [Hj|[_ Hj]]; [by apply (HA l j)|].
    apply list_lookup_singleton_Some in Hj as [_ <-]. done.
  - unfold updateProgress. destruct (jobs s !! jid0) as [l0|]; [|done].
    intros l j Hj Hst. simpl in *.
    destruct (decide (l0 = l)) as [->|Hne].
    + rewrite list_lookup_alter_eq in Hj.
      destruct (heap s !! l) as [j0|] eqn:Hj0; simplify_eq/=.
      apply (HA l j0 Hj0). by destruct j0.
    + rewrite list_lookup_alter_ne in Hj by done. by apply (HA l j).
  - done.
  - unfold settle. destruct (decide (l0 ∈ awaiting s)) as [Hin|]; [|done].
    assert (Hnq : l0 ∉ queue_refs s) by (by apply not_waiting_in_flight).
    destruct o as [r|[|m]]; simpl.
    + apply Accounted_processNext.
      * apply (WF_alter _ l0 false (worker s) _ _ s); auto; by intros [].
      * by apply (Accounted_settled _ l0 false _ s).
    + by apply (Accounted_settled _ l0 (processing s) _ s).
    + apply Accounted_processNext.
      * apply (WF_alter _ l0 false (worker s) _ _ s); auto; by intros [].
      * by apply (Accounted_settled _ l0 false _ s).
Qed.

Lemma filter_none {A} (P : A → Prop) `{!∀ x, Decision (P x)} (L : list A) :
  Forall (λ x, ¬ P x) L → filter P L = [].
Proof.
  induction 1 as [|x L Hx _ IH]; [done|].
  by rewrite filter_cons, decide_False.
Qed.

Lemma length_filter_omap {A B} (P : B → Prop) `{!∀ y, Decision (P y)}
    `{!EqDecision A} (f : A → option B) (a : A) (L : list A) :
  NoDup L → (∀ x y, x ∈ L → f x = Some y → P y → x = a) →
  length (filter P (omap f L)) ≤ 1.
Proof.
  intros Hnd Hone.
  assert (Hle : length (filter P (omap f L)) ≤ length (filter (λ x, x = a) L)).
  { clear Hnd. induction L as [|x L IH]; [done|]. csimpl.
    assert (IH' : length (filter P (omap f L)) ≤ length (filter (λ x, x = a) L)).
    { apply IH. intros x' y Hx'. apply Hone. by right. }
    rewrite (filter_cons (λ x, x = a)).
    destruct (f x) as [y|] eqn:Hy.
    - rewrite filter_cons. destruct (decide (P y)) as [HP|].
      + rewrite decide_True by (apply (Hone x y); [by left|done..]). simpl. lia.
      + case_decide; simpl; lia.
    - case_decide; simpl; lia. }
  assert (Hone' : length (filter (λ x, x = a) L) ≤ 1).
  { clear Hle Hone. induction Hnd as [|x L Hx Hnd IH]; [simpl; lia|].
    rewrite filter_cons. case_decide; [subst|done]. simpl.
    assert (filter (λ x, x = a) L = []) as ->; [|simpl; lia].
    apply filter_none. apply Forall_forall. intros x' Hin ->. done. }
  lia.
Qed.

(** X6. In a run whose generated ids are pairwise distinct, a job that
    [getJob] returns has the status 'processing' exactly when its object is
    the one the worker is at work on, and [getStats] never counts more than
    one job as processing. *)
Theorem processing_status_is_in_flight cs :
  NoDup (added_ids cs) →
  (∀ jid l j, jobs (run cs (@init any)) !! jid = Some l →
              heap (run cs (@init any)) !! l = Some j →
              (status j = processing_ ↔ l ∈ awaiting (run cs (@init any)))) ∧
  n_processing (getStats (run cs (@init any))) ≤ 1.
Proof.
  intros Hnd.
  destruct (run_ind_fresh (λ s, Tracked s ∧ Accounted s)) with (cs := cs) (s := @init any)
    as ((HT & HA) & HWF & HM); auto using init_WF, init_mutex, fresh_init.
  { intros s c ? ? [? ?] ?. split; [by apply Tracked_step|by apply Accounted_step]. }
  { split; [by intros l ?%elem_of_nil|by intros l j ?]. }
  set (s := run cs init) in *. split.
  - intros jid l j Hl Hj. split; [by apply (HA l j)|].
    intros Hin. destruct (HT l Hin) as (j' & Hj' & _ & Hst). congruence.
  - simpl. unfold getJobsByStatus, getAllJobs.
    destruct HM as (_ & _ & Hlen & _).
    destruct (awaiting s) as [|l0 [|? ?]] eqn:Ea; simpl in Hlen; [| |lia].
    + rewrite filter_none; [simpl; lia|].
      apply Forall_forall. intros j Hin Hst.
      apply list_elem_of_omap in Hin as ([jid l] & _ & Hj). simpl in Hj.
      pose proof (HA l j Hj Hst) as Hin. rewrite Ea in Hin.
      by apply elem_of_nil in Hin.
    + destruct (HT l0) as (j0 & Hj0 & Hjid0 & _); [rewrite Ea; by left|].
      apply (length_filter_omap _ _ (id j0, l0)); [apply NoDup_map_to_list|].
      intros [jid l] j Hin Hj Hst. simpl in Hj.
      apply elem_of_map_to_list in Hin.
      pose proof (HA l j Hj Hst) as Hin'. rewrite Ea in Hin'.
      apply list_elem_of_singleton in Hin' as ->.
      destruct (wf_ids _ HWF _ _ Hin) as (j' & Hj' & Hid). congruence.
Qed.

(** *** Finished jobs *)

Lemma Kept_processNext jid l jrec now s :
  WF s → Kept jid l jrec s → Kept jid l jrec (processNext now s).
Proof.
  intros HWF HK. pose proof HK as (Hj & (j & Hl & Hsame) & Hq & Ha).
  destruct (processNext_cases now s (wf_queue _ HWF))
    as [[-> _]|[(_ & _ & _ & ->)|(jid0 & rest & l0 & w & Hp & Eq & Hl0 & Hw & ->)]];
    [done| |].
  - unfold Kept; simpl. split_and!; eauto. by intros ?%elem_of_nil.
  - assert (Hne : jid0 ≠ jid).
    { intros ->. apply Hq. rewrite Eq. by left. }
    assert (Hlne : l0 ≠ l).
    { intros ->. destruct (wf_ids _ HWF _ _ Hl0) as (j0 & Hj0 & Hid0).
      destruct (wf_ids _ HWF _ _ Hj) as (j1 & Hj1 & Hid1). congruence. }
    unfold Kept; simpl. split_and!; try done.
    + exists j. by rewrite list_lookup_alter_ne.
    + intros Hin. apply Hq. rewrite Eq. by right.
    + rewrite elem_of_cons. naive_solver.
Qed.

Lemma same_but_progress_set p j jrec :
  same_but_progress j jrec → same_but_progress (set_progress p j) jrec.
Proof. by destruct j. Qed.

Lemma Kept_step jid l jrec t s c :
  WF s → Mutex s → Kept jid l jrec s →
  terminal (status jrec) = true → completedAt jrec = Some t →
  sweeps_within t c →
  (∀ jid', added_id c = Some jid' → fresh s jid') →
  Kept jid l jrec (step s c).
Proof.
  intros HWF HM HK Hterm Ht Hc Hfr.
  pose proof HK as (Hj & (j & Hl & Hsame) & Hq & Ha).
  destruct c as [w|ty d now rnd|jid0 p|now|l0 o now]; simpl.
  - done.
  - unfold addJob; simpl. set (s1 := mkState _ _ _ _ _ _ _).
    assert (HWF1 : WF s1) by (apply WF_enqueue; auto using mk_jobId_nonempty).
    apply Kept_processNext; [done|].
    assert (Hne : mk_jobId ty now rnd ≠ jid).
    { intros Heq. destruct (wf_ids _ HWF _ _ Hj) as (j1 & Hj1 & Hid1).
      apply (Hfr _ eq_refl l j1 Hj1). congruence. }
    unfold Kept, s1; simpl. split_and!; try done.
    + by rewrite lookup_insert_ne.
    + exists j. by rewrite lookup_app_l by (by apply lookup_lt_Some in Hl).
    + rewrite elem_of_app, list_elem_of_singleton. naive_solver.
  - unfold updateProgress. destruct (jobs s !! jid0) as [l0|]; [|done].
    unfold Kept; simpl. split_and!; try done.
    rewrite list_lookup_alter. case_decide; subst.
    + exists (set_progress p j). rewrite Hl. split; [done|].
      by apply same_but_progress_set.
    + by exists j.
  - unfold Kept, cleanupOldJobs; simpl. split_and!; eauto.
    apply map_lookup_filter_Some_2; [done|]. simpl.
    unfold collectable. rewrite Hl.
    destruct Hsame as (_ & _ & _ & -> & _ & _ & _ & _ & ->).
    rewrite Hterm, Ht. simpl in *. apply Z.ltb_ge. lia.
  - unfold settle. destruct (decide (l0 ∈ awaiting s)) as [Hin|]; [|done].
    assert (Hne : l0 ≠ l) by (by intros ->).
    assert (Hnq : l0 ∉ queue_refs s) by (by apply not_waiting_in_flight).
    assert (HK' : ∀ (f : Job → Job) pr lg',
              Kept jid l jrec
                (mkState (jobs s) (queue s) pr (worker s) (alter f l0 (heap s))
                         (remove_first l0 (awaiting s)) lg')).
    { intros f pr lg'. unfold Kept; simpl. split_and!; try done.
      - exists j. by rewrite list_lookup_alter_ne.
      - by intros ?%remove_first_elem_of. }
    destruct o as [r|[|m]]; simpl.
    + apply Kept_processNext; [|apply HK'].
      apply (WF_alter _ l0 false (worker s) _ _ s); auto; by intros [].
    + apply HK'.
    + apply Kept_processNext; [|apply HK'].
      apply (WF_alter _ l0 false (worker s) _ _ s); auto; by intros [].
Qed.

(** X4. A finished job stays available for polling.  In a run with pairwise
    distinct generated ids, once the promise of the worker for a job has
    settled at time [t] (with a value, or with a rejection other than [null]
    and [undefined]), [getJob] keeps returning the job under its id with
    exactly what was recorded then (status, result or error message,
    completion time; only [progress] can still be rewritten), through every
    later call and settlement, as long as no sweep runs more than one hour
    after [t]. *)
Theorem finished_job_stays_available cs1 l (o : @Outcome any) t cs2 j0 :
  NoDup (added_ids (cs1 ++ Csettle l o t :: cs2)) →
  l ∈ awaiting (run cs1 (@init any)) →
  heap (run cs1 (@init any)) !! l = Some j0 →
  o ≠ Rejected ThrownNullish →
  Forall (sweeps_within t) cs2 →
  ∃ j, getJob (id j0) (run (cs1 ++ Csettle l o t :: cs2) init) = Some j ∧
       same_but_progress j (recorded o t j0) ∧
       status j = match o with Resolved _ => completed | Rejected _ => failed end ∧
       completedAt j = Some t.
Proof.
  intros Hnd Hin Hj0 Ho Hcs2.
  assert (Hnd1 : NoDup (added_ids cs1)).
  { unfold added_ids in *. rewrite omap_app in Hnd. by apply NoDup_app in Hnd as [? _]. }
  destruct (run_ind_fresh (λ s, Tracked s)) with (cs := cs1) (s := @init any)
    as (HT & HWF & HM); auto using init_WF, init_mutex, fresh_init.
  { intros s c ? ? ? ?. by apply Tracked_step. }
  { by intros l' ?%elem_of_nil. }
  set (s1 := run cs1 init) in *.
  destruct (HT l Hin) as (j0' & Hj0' & Hjid & Hst0).
  assert (j0' = j0) as -> by congruence.
  pose proof (not_waiting_in_flight _ _ HWF HM Hin) as Hnq.
  assert (Hterm : terminal (status (recorded o t j0)) = true ∧
                  completedAt (recorded o t j0) = Some t ∧
                  status (recorded o t j0)
                  = match o with Resolved _ => completed | Rejected _ => failed end).
  { destruct o as [r|[|m]]; [by destruct j0|done|by destruct j0]. }
  destruct Hterm as (Hterm & Ht & Hst).
  assert (HK : Kept (id j0) l (recorded o t j0) (settle l o t s1)).
  { assert (Hnqj : (id j0 ∉ queue s1)).
    { intros Hq. apply Hnq. unfold queue_refs. apply list_elem_of_omap.
      by exists (id j0). }
    assert (HK0 : ∀ (f : Job → Job) lg',
              Kept (id j0) l (f j0)
                (mkState (jobs s1) (queue s1) false (worker s1) (alter f l (heap s1))
                         (remove_first l (awaiting s1)) lg')).
    { intros f lg'. unfold Kept; simpl. split_and!; try done.
      - exists (f j0). rewrite list_lookup_alter_eq, Hj0. split; [done|].
        by unfold same_but_progress.
      - destruct HM as (_ & _ & Hlen & _).
        rewrite (in_remove_first_single _ _ Hlen Hin). by intros ?%elem_of_nil. }
    unfold settle. rewrite decide_True by done.
    destruct o as [r|[|m]]; simpl; [|done|];
      (apply Kept_processNext; [|apply HK0]);
      apply (WF_alter _ l false (worker s1) _ _ s1); auto; by intros []. }
  assert (Hrun : run (cs1 ++ Csettle l o t :: cs2) init = run cs2 (settle l o t s1)).
  { by rewrite run_app. }
  rewrite Hrun.
  destruct (run_ind_fresh_on (sweeps_within t) (Kept (id j0) l (recorded o t j0)))
    with (cs := cs2) (s := settle l o t s1) as ((Hl & (j & Hj & Hsame) & _) & _); auto.
  - intros s c ? ? ? ? ?. by apply (Kept_step _ _ _ t).
  - apply (WF_step s1 (Csettle l o t)); auto. by intros.
  - apply (step_mutex s1 (Csettle l o t)); auto.
  - unfold added_ids in *. rewrite omap_app in Hnd. csimpl in Hnd.
    by apply NoDup_app in Hnd as (_ & _ & ?).
  - intros jid Hnew. apply fresh_ids.
    change (settle l o t s1) with (step s1 (Csettle l o t)).
    rewrite step_ids. simpl. rewrite app_nil_r.
    unfold s1. rewrite run_allocates.
    unfold added_ids in *. rewrite omap_app in Hnd. csimpl in Hnd.
    apply NoDup_app in Hnd as (_ & Hdis & _). intros Hin'. by apply (Hdis jid).
  - exists j. unfold getJob. rewrite Hl. simpl. split_and!; [done|done| |].
    + destruct Hsame as (_ & _ & _ & -> & _). done.
    + destruct Hsame as (_ & _ & _ & _ & _ & _ & _ & _ & ->). done.
Qed.

(** *** Every job gets done *)

Lemma Waiting_processNext now s :
  WF s → is_Some (worker s) → Waiting s → Waiting (processNext now s).
Proof.
  intros HWF [w0 Hw0] HW.
  destruct (processNext_cases now s (wf_queue _ HWF))
    as [[-> _]|[(_ & Hw & _)|(jid & rest & l0 & w & Hp & Eq & Hl0 & Hw & ->)]];
    [done|congruence|].
  intros l j Hj Hst. simpl in Hj.
  destruct (decide (l0 = l)) as [->|Hne].
  - rewrite list_lookup_alter_eq in Hj.
    destruct (heap s !! l) as [j0|]; simplify_eq/=.
  - rewrite list_lookup_alter_ne in Hj by done.
    pose proof (HW l j Hj Hst) as Hin.
    rewrite (queue_refs_cons _ _ _ _ Eq Hl0) in Hin.
    apply elem_of_cons in Hin as [->|Hin]; done.
Qed.

Lemma Waiting_settled (f : Job → Job) l0 pr aw lg' s :
  Waiting s → (∀ j, status (f j) ≠ pending) →
  Waiting (mkState (jobs s) (queue s) pr (worker s) (alter f l0 (heap s)) aw lg').
Proof.
  intros HW Hf l j Hj Hst. simpl in Hj.
  destruct (decide (l0 = l)) as [->|Hne].
  - rewrite list_lookup_alter_eq in Hj.
    destruct (heap s !! l) as [j0|]; simplify_eq/=. by destruct (Hf j0).
  - rewrite list_lookup_alter_ne in Hj by done. by apply (HW l j).
Qed.

Lemma Waiting_step s c :
  WF s → Mutex s → is_Some (worker s) → Waiting s →
  (∀ jid, added_id c = Some jid → fresh s jid) → Waiting (step s c).
Proof.
  intros HWF HM Hw HW Hfr.
  destruct c as [w|ty d now rnd|jid0 p|now|l0 o now]; simpl.
  - done.
  - unfold addJob; simpl. set (s1 := mkState _ _ _ _ _ _ _).
    assert (HWF1 : WF s1) by (apply WF_enqueue; auto using mk_jobId_nonempty).
    apply Waiting_processNext; [done|done|].
    intros l j Hj Hst. unfold s1.
    rewrite queue_refs_enqueue by auto. apply elem_of_app.
    unfold s1 in Hj; simpl in Hj.
    apply lookup_app_Some in Hj as [Hj|[Hlen Hj]]; [left; by apply (HW l j)|].
    right. apply list_lookup_singleton_Some in Hj as [Hz _].
    apply list_elem_of_singleton. lia.
  - unfold updateProgress. destruct (jobs s !! jid0) as [l0|]; [|done].
    intros l j Hj Hst. simpl in Hj.
    destruct (decide (l0 = l)) as [->|Hne].
    + rewrite list_lookup_alter_eq in Hj.
      destruct (heap s !! l) as [j0|] eqn:Hj0; simplify_eq/=.
      apply (HW l j0 Hj0). by destruct j0.
    + rewrite list_lookup_alter_ne in Hj by done. by apply (HW l j).
  - intros l j Hj Hst. rewrite queue_refs_cleanup by done. by apply (HW l j).
  - unfold settle. destruct (decide (l0 ∈ awaiting s)) as [Hin|]; [|done].
    assert (Hnq : l0 ∉ queue_refs s) by (by apply not_waiting_in_flight).
    destruct o as [r|[|m]]; simpl.
    + apply Waiting_processNext; [|done|].
      * apply (WF_alter _ l0 false (worker s) _ _ s); auto; by intros [].
      * by apply (Waiting_settled _ l0 false _ _ s).
    + by apply (Waiting_settled _ l0 (processing s) _ _ s).
    + apply Waiting_processNext; [|done|].
      * apply (WF_alter _ l0 false (worker s) _ _ s); auto; by intros [].
      * by apply (Waiting_settled _ l0 false _ _ s).
Qed.

Lemma Sound_step s c :
  WF s → Mutex s → Sound s → is_nullish_settle c = false →
  (∀ jid, added_id c = Some jid → fresh s jid) → Sound (step s c).
Proof.
  intros HWF HM (HB & HA & HW) Hc Hfr. split_and!.
  - by apply Busy_step.
  - by apply Accounted_step.
  - apply Waiting_step; auto. by destruct HB.
Qed.

(** Settling the invocation in flight takes one job off the load of the
    queue: the jobs waiting, plus the one at work. *)
Lemma settle_unloads s l (o : @Outcome any) now :
  WF s → Mutex s → Busy s → awaiting s = [l] → o ≠ Rejected ThrownNullish →
  length (queue (settle l o now s))
  + (if processing (settle l o now s) then 1 else 0) ≤ length (queue s).
Proof.
  intros HWF HM HB Ha Ho. unfold settle.
  rewrite decide_True by (rewrite Ha; by left).
  assert (Hnq : l ∉ queue_refs s).
  { apply not_waiting_in_flight; auto. rewrite Ha. by left. }
  assert (Hgo : ∀ (f : Job → Job) lg',
            (∀ j, id (f j) = id j) →
            let s0 := mkState (jobs s) (queue s) false (worker s) (alter f l (heap s))
                              (remove_first l (awaiting s)) lg' in
            starts lg' = starts (log s) →
            length (queue (processNext now s0))
            + (if processing (processNext now s0) then 1 else 0) ≤ length (queue s)).
  { intros f lg' Hf s0 Hlg.
    assert (HWF0 : WF s0) by (apply (WF_alter _ l false (worker s) _ _ s); auto).
    destruct (processNext_cases now s0 (wf_queue _ HWF0))
      as [[-> [H|H]]|[(_ & Hw & _)|(jid & rest & l0 & w & _ & Eq & _ & _ & ->)]].
    - done.
    - simpl in *. rewrite H. simpl. lia.
    - destruct HB as ([w Hw'] & _). simpl in Hw. congruence.
    - simpl in *. rewrite Eq. simpl. lia. }
  destruct o as [r|[|m]]; [|done|]; simpl; apply Hgo; auto; by intros [].
Qed.

Lemma drain_done how n s :
  WF s → Mutex s → Sound s →
  (∀ l, (how l).1 ≠ Rejected ThrownNullish) →
  length (queue s) + (if processing s then 1 else 0) ≤ n →
  Sound (drain how n s) ∧ WF (drain how n s) ∧
  processing (drain how n s) = false ∧ queue (drain how n s) = [] ∧
  awaiting (drain how n s) = [].
Proof.
  revert s. induction n as [|n IH]; intros s HWF HM HS Hhow Hn.
  - simpl. pose proof HS as ((_ & _ & Hf & Ht) & _).
    destruct (processing s) eqn:Hp; [lia|].
    destruct (Hf eq_refl) as [Hq Ha]. by split_and!.
  - simpl. pose proof HS as (HB & _). pose proof HB as (_ & _ & Hf & Ht).
    destruct (awaiting s) as [|l rest] eqn:Ha.
    + destruct (processing s) eqn:Hp.
      * destruct (Ht eq_refl) as [l Hl]. done.
      * destruct (Hf eq_refl) as [Hq _]. by split_and!.
    + assert (Hp : processing s = true).
      { destruct (processing s) eqn:Hp; [done|]. by destruct (Hf eq_refl). }
      destruct (Ht Hp) as [l' Hl']. simplify_eq.
      assert (Hc : is_nullish_settle (Csettle l' (how l').1 (how l').2) = false).
      { simpl. specialize (Hhow l'). by destruct (how l').1 as [r|[|m]]. }
      apply IH; auto.
      * apply (WF_step s (Csettle l' (how l').1 (how l').2)); auto. by intros.
      * by apply (step_mutex s (Csettle l' (how l').1 (how l').2)).
      * apply (Sound_step s (Csettle l' (how l').1 (how l').2)); auto. by intros.
      * pose proof (settle_unloads s l' (how l').1 (how l').2 HWF HM HB Ha (Hhow l')).
        rewrite Hp in Hn. simpl. lia.
Qed.

Lemma Sound_run cs :
  worker_first cs → Forall (λ c, is_nullish_settle c = false) cs →
  NoDup (added_ids cs) →
  Sound (run cs (@init any)) ∧ WF (run cs (@init any)) ∧ Mutex (run cs (@init any)).
Proof.
  intros (w0 & cs' & ->) Hcs Hnd. apply Forall_cons in Hcs as [_ Hcs]. simpl.
  apply (run_ind_fresh_on (λ c, is_nullish_settle c = false) Sound); auto.
  - intros. by apply Sound_step.
  - apply WF_setWorker, init_WF.
  - apply (step_mutex init (CsetWorker w0)), init_mutex.
  - split_and!.
    + unfold Busy; simpl. split_and!; eauto. done.
    + by intros l j ?.
    + by intros l j ?.
  - intros jid _. by intros l j ?.
Qed.

(** X23. Every job gets done.  Take any run that starts by registering a
    worker, with pairwise distinct ids and no promise rejected with [null]
    or [undefined].  If from there on the promise of each invocation
    settles (with a value or an error, whichever), then after as many
    settlements as there are jobs waiting, plus one, the queue is idle, the
    wait-list is empty, and every job of the [Map] is completed or failed:
    none is left pending or processing. *)
Theorem every_job_gets_done cs how :
  worker_first cs →
  Forall (λ c, is_nullish_settle c = false) cs →
  NoDup (added_ids cs) →
  (∀ l, (how l).1 ≠ Rejected ThrownNullish) →
  let s' := drain how (S (length (queue (run cs (@init any))))) (run cs init) in
  processing s' = false ∧ queue s' = [] ∧ awaiting s' = [] ∧
  ∀ jid j, getJob jid s' = Some j → terminal (status j) = true.
Proof.
  intros Hw Hcs Hnd Hhow.
  destruct (Sound_run cs Hw Hcs Hnd) as (HS & HWF & HM).
  destruct (drain_done how (S (length (queue (run cs (@init any))))) (run cs init))
    as ((_ & HA & HW) & _ & Hp & Hq & Ha); auto.
  { destruct (processing _); simpl; lia. }
  simpl. split_and!; try done.
  intros jid j Hj. unfold getJob in Hj.
  destruct (jobs _ !! jid) as [l|]; simpl in Hj; [|done].
  destruct (status j) eqn:Hst; try done.
  - pose proof (HW l j Hj Hst) as Hin. unfold queue_refs in Hin.
    rewrite Hq in Hin. by apply elem_of_nil in Hin.
  - pose proof (HA l j Hj Hst) as Hin. rewrite Ha in Hin.
    by apply elem_of_nil in Hin.
Qed.

(** *** The sweep takes finished jobs away *)

(** An invariant of the steps with fresh ids that holds after [pre] holds
    after [pre ++ seg]. *)
Lemma run_segment (P : @State any → Prop) pre seg :
  (∀ s c, WF s → Mutex s → P s →
          (∀ jid, added_id c = Some jid → fresh s jid) → P (step s c)) →
  NoDup (added_ids (pre ++ seg)) →
  P (run pre (@init any)) → P (run (pre ++ seg) (@init any)).
Proof.
  intros Hstep Hnd HP. rewrite run_app.
  unfold added_ids in Hnd. rewrite omap_app in Hnd.
  apply NoDup_app in Hnd as (Hnd1 & Hdis & Hnd2).
  destruct (run_init_WF pre Hnd1) as [HWF HM].
  destruct (run_ind_fresh P Hstep seg (run pre init)) as (? & _); auto.
  intros jid Hin. apply fresh_ids. rewrite run_allocates.
  intros Hpre. by apply (Hdis jid).
Qed.

Lemma step_jobs_None jid s c :
  jobs s !! jid = None → added_id c ≠ Some jid → jobs (step s c) !! jid = None.
Proof.
  intros Hj Hc.
  destruct c as [w|ty d now rnd|jid0 p|now|l0 o now]; simpl.
  - done.
  - unfold addJob. simpl.
    rewrite (proj1 (processNext_touches now _)). simpl.
    rewrite lookup_insert_ne; [done|]. intros Heq. apply Hc. simpl. by rewrite Heq.
  - unfold updateProgress. by destruct (jobs s !! jid0).
  - unfold cleanupOldJobs. simpl. apply map_lookup_filter_None. by left.
  - unfold settle. destruct (decide (l0 ∈ awaiting s)); [|done].
    destruct o as [r|[|m]]; simpl; [|done|];
      by rewrite (proj1 (processNext_touches now _)).
Qed.

Lemma Gone_step jid s c :
  WF s → Mutex s → Gone jid s →
  (∀ jid', added_id c = Some jid' → fresh s jid') → Gone jid (step s c).
Proof.
  intros _ _ [Hj Hid] Hfr. split.
  - apply step_jobs_None; [done|]. intros Hc.
    by apply (proj1 (fresh_ids s jid) (Hfr _ Hc)).
  - rewrite step_ids. apply elem_of_app. by left.
Qed.

Lemma Kept_or_Gone_step jid l jrec t s c :
  id jrec = jid → terminal (status jrec) = true → completedAt jrec = Some t →
  WF s → Mutex s → Kept jid l jrec s ∨ Gone jid s →
  (∀ jid', added_id c = Some jid' → fresh s jid') →
  Kept jid l jrec (step s c) ∨ Gone jid (step s c).
Proof.
  intros Hid Hterm Ht HWF HM [HK|HG] Hfr; [|right; by apply Gone_step].
  assert (Hknown : jid ∈ (id <$> heap s)).
  { destruct HK as (_ & (j & Hj & Hsame) & _).
    apply list_elem_of_fmap. exists j. split.
    - destruct Hsame as (-> & _). done.
    - by apply list_elem_of_lookup_2 in Hj. }
  destruct c as [w|ty d now rnd|jid0 p|now|l0 o now];
    try (left; by apply (Kept_step _ _ _ t)).
  destruct (Z.le_gt_cases (now - 60 * 60 * 1000) t) as [Hle|Hgt].
  { left. by apply (Kept_step _ _ _ t). }
  right. split; [|by rewrite step_ids; apply elem_of_app; left].
  pose proof HK as (Hj & (j & Hl & Hsame) & _).
  simpl. apply map_lookup_filter_None. right. intros l' Hl'. simpl.
  assert (l' = l) as -> by congruence.
  unfold collectable. rewrite Hl.
  destruct Hsame as (_ & _ & _ & -> & _ & _ & _ & _ & ->).
  rewrite Hterm, Ht. simpl.
  destruct (Z.ltb_spec t (now - 60 * 60 * 1000)); [done|lia].
Qed.

(** X24. The sweep takes finished jobs away, for good.  In a run with
    pairwise distinct generated ids, once the promise of the worker for a
    job has settled at time [t] (with a value, or with a rejection other
    than [null] and [undefined]), any [cleanupOldJobs] that runs more than
    one hour after [t] leaves the job unknown to [getJob], whatever
    happened in between, and nothing that happens later brings it back. *)
Theorem finished_job_is_swept cs1 l (o : @Outcome any) t cs2 now cs3 j0 :
  NoDup (added_ids (cs1 ++ Csettle l o t :: cs2 ++ CcleanupOldJobs now :: cs3)) →
  l ∈ awaiting (run cs1 (@init any)) →
  heap (run cs1 (@init any)) !! l = Some j0 →
  o ≠ Rejected ThrownNullish →
  (t < now - 60 * 60 * 1000)%Z →
  getJob (id j0)
    (run (cs1 ++ Csettle l o t :: cs2 ++ CcleanupOldJobs now :: cs3) init) = None.
Proof.
  intros Hnd Hin Hj0 Ho Hlate.
  assert (Hlist : cs1 ++ Csettle l o t :: cs2 ++ CcleanupOldJobs now :: cs3
                  = (((cs1 ++ [Csettle l o t]) ++ cs2) ++ [CcleanupOldJobs now]) ++ cs3).
  { by rewrite <- !app_assoc. }
  rewrite Hlist in *.
  assert (Hnd3 : NoDup (added_ids (((cs1 ++ [Csettle l o t]) ++ cs2)
                                   ++ [CcleanupOldJobs now]))).
  { unfold added_ids in *. rewrite omap_app in Hnd. by apply NoDup_app in Hnd as [? _]. }
  assert (Hnd2 : NoDup (added_ids ((cs1 ++ [Csettle l o t]) ++ cs2))).
  { unfold added_ids in *. rewrite omap_app in Hnd3. by apply NoDup_app in Hnd3 as [? _]. }
  assert (Hnd1 : NoDup (added_ids cs1)).
  { unfold added_ids in *. rewrite !omap_app in Hnd2.
    apply NoDup_app in Hnd2 as [Hnd2 _]. by apply NoDup_app in Hnd2 as [? _]. }
  (* the job in flight *)
  destruct (run_ind_fresh (λ s, Tracked s)) with (cs := cs1) (s := @init any)
    as (HT & HWF & HM); auto using init_WF, init_mutex, fresh_init.
  { intros s c ? ? ? ?. by apply Tracked_step. }
  { by intros l' ?%elem_of_nil. }
  set (s1 := run cs1 init) in *.
  destruct (HT l Hin) as (j0' & Hj0' & Hjid & Hst0).
  assert (j0' = j0) as -> by congruence.
  pose proof (not_waiting_in_flight _ _ HWF HM Hin) as Hnq.
  assert (Hrec : id (recorded o t j0) = id j0 ∧
                 terminal (status (recorded o t j0)) = true ∧
                 completedAt (recorded o t j0) = Some t).
  { destruct o as [r|[|m]]; [by destruct j0|done|by destruct j0]. }
  destruct Hrec as (Hid & Hterm & Ht).
  (* its settlement *)
  assert (HK : Kept (id j0) l (recorded o t j0) (run (cs1 ++ [Csettle l o t]) init)).
  { rewrite run_app. simpl. fold s1.
    assert (Hnqj : (id j0 ∉ queue s1)).
    { intros Hq. apply Hnq. unfold queue_refs. apply list_elem_of_omap.
      by exists (id j0). }
    assert (HK0 : ∀ (f : Job → Job) lg',
              Kept (id j0) l (f j0)
                (mkState (jobs s1) (queue s1) false (worker s1) (alter f l (heap s1))
                         (remove_first l (awaiting s1)) lg')).
    { intros f lg'. unfold Kept; simpl. split_and!; try done.
      - exists (f j0). rewrite list_lookup_alter_eq, Hj0. split; [done|].
        by unfold same_but_progress.
      - destruct HM as (_ & _ & Hlen & _).
        rewrite (in_remove_first_single _ _ Hlen Hin). by intros ?%elem_of_nil. }
    unfold settle. rewrite decide_True by done.
    destruct o as [r|[|m]]; simpl; [|done|];
      (apply Kept_processNext; [|apply HK0]);
      apply (WF_alter _ l false (worker s1) _ _ s1); auto; by intros []. }
  (* what follows, up to the sweep *)
  assert (H2 : Kept (id j0) l (recorded o t j0)
                 (run ((cs1 ++ [Csettle l o t]) ++ cs2) init)
               ∨ Gone (id j0) (run ((cs1 ++ [Csettle l o t]) ++ cs2) init)).
  { apply (run_segment (λ s, Kept (id j0) l (recorded o t j0) s ∨ Gone (id j0) s));
      auto.
    intros s c ? ? ? ?. by apply (Kept_or_Gone_step _ _ _ t). }
  (* the sweep *)
  assert (H3 : Gone (id j0)
                 (run (((cs1 ++ [Csettle l o t]) ++ cs2) ++ [CcleanupOldJobs now]) init)).
  { rewrite run_app. simpl.
    destruct (run_init_WF _ Hnd2) as [HWF2 HM2].
    destruct (Kept_or_Gone_step (id j0) l (recorded o t j0) t _ (CcleanupOldJobs now)
                Hid Hterm Ht HWF2 HM2 H2) as [HK3|HG3]; [by intros|..|done].
    destruct HK3 as (Hj3 & (j3 & Hl3 & Hsame) & _). exfalso.
    simpl in Hj3. apply map_lookup_filter_Some in Hj3 as [Hj3 Hc]. simpl in Hc.
    unfold collectable in Hc. simpl in Hl3. rewrite Hl3 in Hc.
    destruct Hsame as (_ & _ & _ & Hs & _ & _ & _ & _ & Hc3).
    rewrite Hs, Hc3, Hterm, Ht in Hc. simpl in Hc.
    apply Z.ltb_ge in Hc. lia. }
  (* and ever after *)
  assert (H4 : Gone (id j0)
                 (run ((((cs1 ++ [Csettle l o t]) ++ cs2) ++ [CcleanupOldJobs now])
                       ++ cs3) init)).
  { apply (run_segment (Gone (id j0))); auto. intros. by apply Gone_step. }
  destruct H4 as [Hnone _]. unfold getJob. by rewrite Hnone.
Qed.

End Facts.

Lemma no_job_waits_while_idle_witness :
  (processing (run Sample.two_jobs init) = false →
   queue (run Sample.two_jobs init) = [] ∧ awaiting (run Sample.two_jobs init) = []) ∧
  (processing (run Sample.two_jobs init) = true →
   ∃ l, awaiting (run Sample.two_jobs init) = [l]).
Proof.
  apply (no_job_waits_while_idle Sample.two_jobs).
  - eexists _, _. reflexivity.
  - repeat constructor.
Defined.

Lemma processing_status_is_in_flight_witness :
  (∀ jid l j, jobs (run Sample.two_jobs init) !! jid = Some l →
              heap (run Sample.two_jobs init) !! l = Some j →
              (status j = processing_ ↔ l ∈ awaiting (run Sample.two_jobs init))) ∧
  n_processing (getStats (run Sample.two_jobs init)) ≤ 1.
Proof.
  apply (processing_status_is_in_flight Sample.two_jobs).
  apply (bool_decide_unpack _). vm_compute. exact I.
Defined.

Lemma finished_job_stays_available_witness :
  ∃ j, getJob (id Sample.started_job)
         (run (Sample.first_job_running
               ++ Csettle 0 (Resolved (Orchestrator.FetchCommitsResult 0 [])) 2000
                  :: Sample.after_the_first) init) = Some j ∧
       same_but_progress j
         (recorded (Resolved (Orchestrator.FetchCommitsResult 0 [])) 2000
                   Sample.started_job) ∧
       status j = completed ∧
       completedAt j = Some 2000%Z.
Proof.
  apply (finished_job_stays_available Sample.first_job_running 0
           (Resolved (Orchestrator.FetchCommitsResult 0 [])) 2000
           Sample.after_the_first Sample.started_job).
  - apply (bool_decide_unpack _). vm_compute. exact I.
  - apply (bool_decide_unpack _). vm_compute. exact I.
  - vm_compute. reflexivity.
  - discriminate.
  - repeat constructor; simpl; lia.
Defined.

Lemma every_job_gets_done_witness :
  let s' := drain (λ _, (Resolved Orchestrator.EmptyObject, 5000%Z))
                  (S (length (queue (run Sample.first_job_running init))))
                  (run Sample.first_job_running init) in
  processing s' = false ∧ queue s' = [] ∧ awaiting s' = [] ∧
  ∀ jid j, getJob jid s' = Some j → terminal (status j) = true.
Proof.
  apply (every_job_gets_done Sample.first_job_running
           (λ _, (Resolved Orchestrator.EmptyObject, 5000%Z))).
  - eexists _, _. reflexivity.
  - repeat constructor.
  - apply (bool_decide_unpack _). vm_compute. exact I.
  - intros l. discriminate.
Defined.

Lemma finished_job_is_swept_witness :
  getJob (id Sample.started_job)
    (run (Sample.first_job_running
          ++ Csettle 0 (Resolved (Orchestrator.FetchCommitsResult 0 [])) 2000
             :: Sample.after_the_first
             ++ CcleanupOldJobs 3602001
                :: [CupdateProgress "fetch-commits_1000_aaaaaaaaa" 50%float]) init)
  = None.
Proof.
  apply (finished_job_is_swept Sample.first_job_running 0
           (Resolved (Orchestrator.FetchCommitsResult 0 [])) 2000
           Sample.after_the_first 3602001
           [CupdateProgress "fetch-commits_1000_aaaaaaaaa" 50%float]
           Sample.started_job).
  - apply (bool_decide_unpack _). vm_compute. exact I.
  - apply (bool_decide_unpack _). vm_compute. exact I.
  - vm_compute. reflexivity.
  - discriminate.
  - lia.
Defined.

End JobQueueLifecycle.

(** ** Facts about the gateway to the remote service *)

Module FetcherFacts.

Import Js Sink Fetcher.

Section Facts.

Variable toLowerCase : string → string.
Variable listCommits : string → string → option Date → nat → Response (list Listed.t).
Variable getCommit : string → string → string → Response Detail.t.
Variable now_iso : string.

#[local] Abbreviation pages_loop := (Fetcher.pages_loop listCommits).
#[local] Abbreviation getCommits := (Fetcher.getCommits toLowerCase listCommits).
#[local] Abbreviation mentions := (Fetcher.mentions toLowerCase).
#[local] Abbreviation passes := (Fetcher.passes toLowerCase).
#[local] Abbreviation getCommitDetailsWithDiff :=
  (Fetcher.getCommitDetailsWithDiff getCommit now_iso).

Lemma filter_all {A} (f : A → bool) (l : list A) :
  (∀ x, f x = true) → List.filter f l = l.
Proof.
  intros Hf. induction l as [|x l IH]; [done|]. simpl. by rewrite Hf, IH.
Qed.

(** X7. A single filter has no effect.  When only one of [filterAuthors]
    and [filterEmails] is given (the other one is empty), the absent
    filter counts as matched and the two matches are joined by "or": every
    listed commit passes, and [getCommits] answers what it answers without
    any filter. *)
Theorem single_filter_keeps_every_commit fuel owner repo filterAuthors filterEmails since :
  filterAuthors = [] ∨ filterEmails = [] →
  getCommits fuel owner repo filterAuthors filterEmails since
  = getCommits fuel owner repo [] [] since.
Proof.
  intros Hone. unfold Fetcher.getCommits.
  destruct (pages_loop owner repo since fuel 1 []) as [[allCommits|e]|]; [|done..].
  f_equal. simpl.
  destruct ((0 <? length filterAuthors) || (0 <? length filterEmails)); [|done].
  apply filter_all. intros c. unfold Fetcher.passes.
  destruct Hone as [->| ->]; simpl; [done|].
  rewrite andb_false_r. by rewrite orb_true_r.
Qed.

(** X8. With both filters given, [getCommits] answers, in the order of the
    listing, exactly the listed commits whose author name or login mentions
    one of [filterAuthors] and whose author e-mail mentions one of
    [filterEmails] (both compared in lower case). *)
Theorem both_filters_must_match fuel owner repo filterAuthors filterEmails since :
  filterAuthors ≠ [] → filterEmails ≠ [] →
  getCommits fuel owner repo filterAuthors filterEmails since
  = List.filter
      (λ c, existsb (λ a, mentions (Listed.author_name c) a
                          || mentions (Listed.author_login c) a) filterAuthors
            && existsb (λ e, mentions (Listed.author_email c) e) filterEmails)
    <$> getCommits fuel owner repo [] [] since.
Proof.
  intros Ha He. unfold Fetcher.getCommits.
  destruct (pages_loop owner repo since fuel 1 []) as [[allCommits|e]|]; [|done..].
  simpl. f_equal.
  destruct filterAuthors as [|a fa]; [done|].
  destruct filterEmails as [|e fe]; [done|]. done.
Qed.

Lemma pages_loop_collects owner repo since fuel n : ∀ page acc ds last,
  Forall2 (λ p d, listCommits owner repo since p = Resolves d ∧ 100 ≤ length d)
          (seq page n) ds →
  listCommits owner repo since (page + n) = Resolves last →
  length last < 100 →
  n < fuel →
  pages_loop owner repo since fuel page acc = Some (Resolves (acc ++ concat ds ++ last)).
Proof.
  revert fuel. induction n as [|n IH]; intros fuel page acc ds last Hds Hlast Hlen Hfuel.
  - apply Forall2_nil_inv_l in Hds as ->. rewrite Nat.add_0_r in Hlast.
    destruct fuel as [|fuel]; [lia|]. simpl. rewrite Hlast.
    destruct (Nat.eqb_spec (length last) 0) as [H0|H0].
    + apply nil_length_inv in H0 as ->. by rewrite app_nil_r.
    + by rewrite (proj2 (Nat.ltb_lt _ _) Hlen).
  - simpl in Hds. apply Forall2_cons_inv_l in Hds as (d & ds' & [Hd Hfull] & Hds & ->).
    destruct fuel as [|fuel]; [lia|]. simpl. rewrite Hd.
    destruct (Nat.eqb_spec (length d) 0) as [H0|H0]; [lia|].
    rewrite (proj2 (Nat.ltb_ge _ _) Hfull).
    rewrite (IH fuel (S page) (acc ++ d) ds' last); auto with lia.
    + by rewrite <- !app_assoc.
    + by replace (S page + n) with (page + S n) by lia.
Qed.

Lemma pages_loop_raises owner repo since fuel n : ∀ page acc ds e,
  Forall2 (λ p d, listCommits owner repo since p = Resolves d ∧ 100 ≤ length d)
          (seq page n) ds →
  listCommits owner repo since (page + n) = Raises e →
  n < fuel →
  pages_loop owner repo since fuel page acc = Some (Raises e).
Proof.
  revert fuel. induction n as [|n IH]; intros fuel page acc ds e Hds He Hfuel.
  - rewrite Nat.add_0_r in He.
    destruct fuel as [|fuel]; [lia|]. simpl. by rewrite He.
  - simpl in Hds. apply Forall2_cons_inv_l in Hds as (d & ds' & [Hd Hfull] & Hds & ->).
    destruct fuel as [|fuel]; [lia|]. simpl. rewrite Hd.
    destruct (Nat.eqb_spec (length d) 0) as [H0|H0]; [lia|].
    rewrite (proj2 (Nat.ltb_ge _ _) Hfull).
    apply (IH fuel (S page) (acc ++ d) ds' e); auto with lia.
    by replace (S page + n) with (page + S n) by lia.
Qed.

(** X9. Pagination.  When the pages 1 .. n of the listing come back with
    100 entries or more each and page n+1 comes back with fewer than 100
    (possibly none), [getCommits] without filters stops there and answers
    the entries of the pages 1 .. n+1, in order. *)
Theorem getCommits_collects_every_page fuel owner repo since n ds last :
  Forall2 (λ p d, listCommits owner repo since p = Resolves d ∧ 100 ≤ length d)
          (seq 1 n) ds →
  listCommits owner repo since (S n) = Resolves last →
  length last < 100 →
  n < fuel →
  getCommits fuel owner repo [] [] since = Some (concat ds ++ last).
Proof.
  intros Hds Hlast Hlen Hfuel. unfold Fetcher.getCommits.
  by rewrite (pages_loop_collects owner repo since fuel n 1 [] ds last).
Qed.

(** X10. A failing request loses the whole listing.  When the request for
    a page raises, after any number of full pages, [getCommits] answers the
    empty array, whatever the filters: the entries collected from the
    earlier pages are dropped, and the caller cannot tell the failure from
    a repository without commits. *)
Theorem getCommits_error_loses_every_page fuel owner repo filterAuthors filterEmails
    since n ds e :
  Forall2 (λ p d, listCommits owner repo since p = Resolves d ∧ 100 ≤ length d)
          (seq 1 n) ds →
  listCommits owner repo since (S n) = Raises e →
  n < fuel →
  getCommits fuel owner repo filterAuthors filterEmails since = Some [].
Proof.
  intros Hds He Hfuel. unfold Fetcher.getCommits.
  by rewrite (pages_loop_raises owner repo since fuel n 1 [] ds e).
Qed.

Lemma substring_0_prefix n s :
  String.prefix (String.substring 0 n s) s = true ∧
  String.length (String.substring 0 n s) = n `min` String.length s.
Proof.
  revert s. induction n as [|n IH]; intros [|c s]; simpl; try done.
  destruct (IH s) as [Hp Hl]. rewrite Hp, Hl.
  by destruct (Ascii.ascii_dec c c).
Qed.

(** X11. What [getCommitDetailsWithDiff] answers.  It answers [null]
    exactly when the request raised.  Otherwise the short hash is the
    first seven characters of the full hash (all of it when it is shorter),
    [filesChanged] is the number of entries of [files], the author is never
    the empty string ('Unknown' stands for a missing or empty name), and
    [repo] is [owner/repo]. *)
Theorem getCommitDetailsWithDiff_shape owner repo sha :
  (getCommitDetailsWithDiff owner repo sha = None ↔
   ∃ e, getCommit owner repo sha = Raises e) ∧
  ∀ c, getCommitDetailsWithDiff owner repo sha = Some c →
       String.prefix (Sink.sha c) (fullSha c) = true ∧
       String.length (Sink.sha c) = 7 `min` String.length (fullSha c) ∧
       filesChanged c = Z.of_nat (length (files c)) ∧
       author c ≠ "" ∧
       Sink.repo c = owner +:+ "/" +:+ repo.
Proof.
  unfold Fetcher.getCommitDetailsWithDiff.
  destruct (getCommit owner repo sha) as [data|e]; split.
  - split; [done|by intros [? ?]].
  - intros c [= <-]. simpl.
    destruct (substring_0_prefix 7 (Detail.sha data)) as [Hp Hl].
    split_and!; try done.
    + by destruct (Detail.files data).
    + unfold or_else. destruct (Detail.author data) as [[[nm|] ? ?]|]; simpl; try done.
      destruct (String.eqb_spec nm ""); done.
  - split; [by eauto|done].
  - done.
Qed.

End Facts.

Lemma single_filter_keeps_every_commit_witness :
  Fetcher.getCommits Sample.lower Sample.listing 5 "acme" "widgets" ["ann"] [] None
  = Fetcher.getCommits Sample.lower Sample.listing 5 "acme" "widgets" [] [] None.
Proof.
  apply (single_filter_keeps_every_commit Sample.lower Sample.listing 5
           "acme" "widgets" ["ann"] [] None).
  right. reflexivity.
Defined.

Lemma both_filters_must_match_witness :
  Fetcher.getCommits Sample.lower Sample.listing 5 "acme" "widgets"
    ["ANN"] ["example.org"] None
  = List.filter
      (λ c, existsb (λ a, Fetcher.mentions Sample.lower (Listed.author_name c) a
                          || Fetcher.mentions Sample.lower (Listed.author_login c) a)
                    ["ANN"]
            && existsb (λ e, Fetcher.mentions Sample.lower (Listed.author_email c) e)
                       ["example.org"])
    <$> Fetcher.getCommits Sample.lower Sample.listing 5 "acme" "widgets" [] [] None.
Proof.
  apply (both_filters_must_match Sample.lower Sample.listing 5
           "acme" "widgets" ["ANN"] ["example.org"] None); discriminate.
Defined.

Lemma getCommits_collects_every_page_witness :
  Fetcher.getCommits Sample.lower Sample.listing 5 "acme" "widgets" [] [] None
  = Some (concat [replicate 100 Sample.by_bob] ++ [Sample.by_ann; Sample.by_nobody]).
Proof.
  apply (getCommits_collects_every_page Sample.lower Sample.listing 5
           "acme" "widgets" None 1).
  - repeat constructor.
  - reflexivity.
  - simpl. lia.
  - lia.
Defined.

Lemma getCommits_error_loses_every_page_witness :
  Fetcher.getCommits Sample.lower Sample.broken_listing 5 "acme" "widgets"
    [] [] None = Some [].
Proof.
  apply (getCommits_error_loses_every_page Sample.lower Sample.broken_listing 5
           "acme" "widgets" [] [] None 1 [replicate 100 Sample.by_bob]
           "Bad credentials").
  - repeat constructor.
  - reflexivity.
  - lia.
Defined.

(** On the sample listing the two filters together keep the one commit by
    Ann; and a commit without author, stats and files gets the defaults. *)
Example filtered_sample :
  Fetcher.getCommits Sample.lower Sample.listing 5 "acme" "widgets"
    ["ANN"] ["example.org"] None = Some [Sample.by_ann] ∧
  Fetcher.getCommitDetailsWithDiff Sample.bare_detail "2024-02-01T00:00:00Z"
    "acme" "widgets" "abc1234def"
  = Some (mkCommitData "abc1234" "abc1234def" "acme/widgets" "initial" "Unknown" ""
            "2024-02-01T00:00:00Z" 0 0 0 0 []).
Proof. split; vm_compute; reflexivity. Qed.

End FetcherFacts.

(** ** Facts about a second pass of index.js over the same commits *)

Module RerunFacts.

Import Js Sink Annotation Orchestrator Cli.








Section Facts.

Variable getCommitDetailsWithDiff : string → string → string → option CommitData.
Variable faults : CommitData → Faults.
Variable toISOString_now : CommitData → string.

#[local] Abbreviation process_commit :=
  (Cli.process_commit (DB := Tables) getCommitDetailsWithDiff faults toISOString_now).


End Facts.



End RerunFacts.

(** ** More facts about the worker: how much it fetches, annotates, collects *)

Module WorkerFacts.

Import Js Sink Annotation Orchestrator.

Section Facts.

Context {DB : Type} `{!Engine DB}.

Variable getCommits : string → string → FetchOptions.t → list string.
Variable getCommitDetailsWithDiff : string → string → string → option CommitData.
Variable mistral_client : string → Client.
Variable faults : CommitData → Faults.
Variable toISOString_now : CommitData → string.
Variable thirty_days_ago : Date.

#[local] Abbreviation process_commit :=
  (Orchestrator.process_commit getCommitDetailsWithDiff faults toISOString_now).
#[local] Abbreviation commits_loop :=
  (Orchestrator.commits_loop getCommitDetailsWithDiff faults toISOString_now).
#[local] Abbreviation repos_loop :=
  (Orchestrator.repos_loop getCommits getCommitDetailsWithDiff faults toISOString_now).
#[local] Abbreviation fetch_commits :=
  (Orchestrator.fetch_commits getCommits getCommitDetailsWithDiff mistral_client faults
                              toISOString_now thirty_days_ago).

Implicit Types (db : DB) (mistral : option Client) (t : list Action).

Lemma times_app f t1 t2 : times f (t1 ++ t2) = times f t1 + times f t2.
Proof. unfold times. by rewrite List.filter_app, length_app. Qed.

Lemma adds_up_app mistral k1 k2 t1 t2 r0 r1 r2 :
  adds_up mistral k1 t1 r0 r1 → adds_up mistral k2 t2 r1 r2 →
  adds_up mistral (k1 + k2) (t1 ++ t2) r0 r2.
Proof.
  intros (? & ? & ? & Hn1 & ?) (? & ? & ? & Hn2 & ?).
  unfold adds_up. rewrite !times_app. split_and!; try lia.
  intros Hm. rewrite (Hn1 Hm), (Hn2 Hm). done.
Qed.

Lemma process_commit_adds_up mistral owner name sha db results :
  adds_up mistral 1 (process_commit mistral owner name sha db results).1.1
          results (process_commit mistral owner name sha db results).2.
Proof.
  unfold Orchestrator.process_commit, adds_up.
  destruct (getCommitDetailsWithDiff owner name sha) as [details|].
  2:{ unfold times; simpl. split_and!; auto with lia. }
  destruct (truthy _), mistral; destruct (saveCommitToDB _ _ _ _ _) as [[] db'];
    unfold times; simpl; rewrite ?length_app; simpl; split_and!; auto with lia;
    by intros [=].
Qed.

Lemma commits_loop_adds_up mistral owner name shas db results :
  adds_up mistral (length shas) (commits_loop mistral owner name shas db results).1.1
          results (commits_loop mistral owner name shas db results).2.
Proof.
  revert db results. induction shas as [|sha rest IH]; intros db results; simpl.
  - unfold adds_up, times; simpl. split_and!; auto with lia.
  - pose proof (process_commit_adds_up mistral owner name sha db results) as H1.
    destruct (process_commit mistral owner name sha db results) as [[t1 db1] r1].
    specialize (IH db1 r1).
    destruct (commits_loop mistral owner name rest db1 r1) as [[t2 db2] r2].
    simpl in *. by apply (adds_up_app mistral 1 (length rest) t1 t2 results r1 r2).
Qed.

Lemma length_slice0 {A} (l : list A) (limit : Z) :
  (0 ≤ limit)%Z → length (slice0 l limit) ≤ Z.to_nat limit.
Proof.
  intros Hl. unfold slice0. rewrite (proj2 (Z.ltb_ge _ _) Hl).
  rewrite length_take. lia.
Qed.

Lemma repos_loop_adds_up jobId mistral o limit i n rs db results :
  ∃ k, adds_up mistral k (repos_loop jobId mistral o limit i n rs db results).1.1
               results (repos_loop jobId mistral o limit i n rs db results).2 ∧
       ((0 ≤ limit)%Z → k ≤ Z.to_nat limit * length rs).
Proof.
  revert i db results. induction rs as [|repoStr rest IH]; intros i db results; simpl.
  - exists 0. split; [|lia]. unfold adds_up, times; simpl. split_and!; auto with lia.
  - destruct (owner_and_name repoStr) as [[owner name]|].
    2:{ destruct (IH (S i) db results) as (k & Hk & Hle). exists k. split; [done|]. lia. }
    pose proof (commits_loop_adds_up mistral owner name
                  (slice0 (getCommits owner name o) limit) db results) as H1.
    pose proof (length_slice0 (getCommits owner name o) limit) as Hlen.
    destruct (commits_loop mistral owner name _ db results) as [[t1 db1] r1].
    destruct (IH (S i) db1 r1) as (k & Hk & Hle).
    destruct (repos_loop jobId mistral o limit (S i) n rest db1 r1) as [[t2 db2] r2].
    simpl in *.
    exists (length (slice0 (getCommits owner name o) limit) + k). split; [|lia].
    apply (adds_up_app mistral 0 _ [Call_updateProgress jobId (progress_percent i n);
                                    Call_getCommits owner name o] (t1 ++ t2)
                       results results r2).
    + unfold adds_up, times; simpl. split_and!; auto with lia.
    + by apply (adds_up_app mistral _ _ t1 t2 results r1 r2).
Qed.

(** X14. How much the worker fetches and collects.  In a "fetch-commits"
    job the number [collected] the worker returns is the length of
    [results] and the number of writes that went through; there are never
    more such writes, nor more annotation calls, than detail fetches; and
    with a limit that is not negative the worker fetches the details of at
    most [limit] commits per repository string. *)
Theorem worker_fetches_are_capped jobId d config db :
  let t := (fetch_commits jobId d config db).1.1 in
  (∀ collected results,
     (fetch_commits jobId d config db).2 = Returns collected results →
     collected = length results ∧ collected = times is_saved t) ∧
  times is_saved t ≤ times is_detail_fetch t ∧
  times is_annotation t ≤ times is_detail_fetch t ∧
  ((0 ≤ limit d)%Z →
   times is_detail_fetch t ≤ Z.to_nat (limit d) * length (repos d)).
Proof.
  unfold Orchestrator.fetch_commits.
  destruct (truthy (github_token config)); simpl.
  2:{ unfold times; simpl. split_and!; auto with lia. by intros. }
  destruct (repos_loop_adds_up jobId
              (if useAI d && truthy (mistral_api_key config)
               then mistral_client <$> mistral_api_key config else None)
              (FetchOptions.mk (default [] (filterAuthors d))
                               (default [] (filterEmails d))
                               (default thirty_days_ago (since d)))
              (limit d) 0 (length (repos d)) (repos d) db [])
    as (k & (Hk & Hs & Ha & _ & Hr) & Hle).
  destruct (repos_loop _ _ _ _ _ _ _ _ _) as [[t db'] results]. simpl in *.
  split_and!; try lia.
  intros collected results' [= <- <-]. lia.
Qed.

(** X15. No annotation without opt-in.  When the job does not ask for it
    ([useAI] is false) or no Mistral key is configured, the worker never
    calls the annotation step. *)
Theorem no_annotation_without_opt_in jobId d config db :
  useAI d = false ∨ truthy (mistral_api_key config) = false →
  times is_annotation (fetch_commits jobId d config db).1.1 = 0.
Proof.
  intros Hoff. unfold Orchestrator.fetch_commits.
  destruct (truthy (github_token config)); simpl; [|done].
  assert (Hm : (if useAI d && truthy (mistral_api_key config)
                then mistral_client <$> mistral_api_key config else None) = None).
  { destruct Hoff as [-> | ->]; [done|by rewrite andb_false_r]. }
  rewrite Hm.
  destruct (repos_loop_adds_up jobId None
              (FetchOptions.mk (default [] (filterAuthors d))
                               (default [] (filterEmails d))
                               (default thirty_days_ago (since d)))
              (limit d) 0 (length (repos d)) (repos d) db [])
    as (k & (_ & _ & _ & Hnone & _) & _).
  destruct (repos_loop _ _ _ _ _ _ _ _ _) as [[t db'] results]. simpl in *.
  by apply Hnone.
Qed.

End Facts.

Lemma no_annotation_without_opt_in_witness :
  times is_annotation
    (Orchestrator.fetch_commits (DB := Tables) Sample.lists_abc Sample.details_abc
       Sample.client Sample.no_fault Sample.clock 0 "fetch-commits_1000_aaaaaaaaa"
       Sample.one_repo (mkAppConfig (Some "ghp_token") None) Sample.empty).1.1 = 0.
Proof.
  apply (no_annotation_without_opt_in (DB := Tables) Sample.lists_abc Sample.details_abc
           Sample.client Sample.no_fault Sample.clock 0 "fetch-commits_1000_aaaaaaaaa"
           Sample.one_repo (mkAppConfig (Some "ghp_token") None) Sample.empty).
  right. reflexivity.
Defined.

End WorkerFacts.

(** ** Facts about the strings the worker takes apart *)

Module ParsingFacts.

Import Js Sink Orchestrator.

Lemma split_not_nil sep s : split sep s ≠ [].
Proof.
  destruct s as [|c s]; simpl; [done|].
  destruct (Ascii.eqb c sep); [done|]. by destruct (split sep s).
Qed.

(** The first piece of [split] holds no separator, and what follows it in
    the string, after one separator, is split into the other pieces. *)
Lemma split_head sep s h t :
  split sep s = h :: t →
  occurs sep h = false ∧
  ((t = [] ∧ s = h) ∨ (∃ s', s = (h +:+ String sep s')%string ∧ split sep s' = t)).
Proof.
  revert h t. induction s as [|c s IH]; intros h t; simpl.
  - intros [= <- <-]. auto.
  - destruct (Ascii.eqb_spec c sep) as [->|Hne].
    + intros [= <- <-]. split; [done|]. right. by exists s.
    + destruct (split sep s) as [|h' t'] eqn:E; [by destruct (split_not_nil sep s)|].
      intros [= <- <-]. destruct (IH h' t' eq_refl) as [Hh Hs].
      split.
      * simpl. apply Ascii.eqb_neq in Hne. by rewrite Hne.
      * destruct Hs as [[-> ->]|(s' & -> & Hs')]; [by left|].
        right. by exists s'.
Qed.

Lemma split_whole sep s : occurs sep s = false → split sep s = [s].
Proof.
  induction s as [|c s IH]; simpl; [done|].
  destruct (Ascii.eqb c sep); [done|]. simpl. intros Hs. by rewrite IH.
Qed.

Lemma split_at sep h s' :
  occurs sep h = false → split sep (h +:+ String sep s')%string = h :: split sep s'.
Proof.
  induction h as [|c h IH]; simpl.
  - intros _. by rewrite Ascii.eqb_refl.
  - destruct (Ascii.eqb c sep); [done|]. simpl. intros Hh. by rewrite IH.
Qed.

(** X17. Which repository strings the worker accepts.  [repoStr] is taken
    as the repository [owner]/[name] exactly when it is [owner/name] or
    [owner/name/] followed by anything, with [owner] and [name] non-empty
    and free of slashes: what follows a second slash is ignored, and a
    string without a slash, or with an empty owner or name, is skipped. *)
Theorem owner_and_name_accepts repoStr owner name :
  owner_and_name repoStr = Some (owner, name) ↔
  owner ≠ "" ∧ name ≠ "" ∧ occurs slash owner = false ∧ occurs slash name = false ∧
  (repoStr = (owner +:+ "/" +:+ name)%string ∨
   ∃ rest, repoStr = (owner +:+ "/" +:+ name +:+ "/" +:+ rest)%string).
Proof.
  unfold owner_and_name. split.
  - destruct (split slash repoStr) as [|o [|n t]] eqn:E; [done..|].
    destruct (truthy (Some o) && truthy (Some n)) eqn:Ht; [|done].
    intros [= -> ->]. apply andb_true_iff in Ht as [Ho Hn]. simpl in Ho, Hn.
    apply negb_true_iff, String.eqb_neq in Ho, Hn.
    destruct (split_head _ _ _ _ E) as [Hso [[? _]|(s' & -> & E')]]; [done|].
    destruct (split_head _ _ _ _ E') as [Hsn [[_ ->]|(s'' & -> & _)]].
    + split_and!; auto.
    + split_and!; auto. right. by exists s''.
  - intros (Ho & Hn & Hso & Hsn & Hr).
    assert (Hsplit : ∃ t, split slash repoStr = owner :: name :: t).
    { destruct Hr as [->|[rest ->]].
      - exists []. change (owner +:+ "/" +:+ name)%string
          with (owner +:+ String slash name)%string.
        by rewrite split_at, split_whole.
      - exists (split slash rest).
        change (owner +:+ "/" +:+ name +:+ "/" +:+ rest)%string
          with (owner +:+ String slash (name +:+ String slash rest))%string.
        by rewrite !split_at. }
    destruct Hsplit as [t ->]. simpl.
    apply String.eqb_neq in Ho, Hn. by rewrite Ho, Hn.
Qed.

(** X18. The message line of a result.  [message.split("\n")[0]] holds no
    line feed and is the whole message, or the part of the message before
    its first line feed. *)
Theorem first_line_is_the_first_line message :
  occurs line_feed (first_line message) = false ∧
  (message = first_line message ∨
   ∃ rest, message = (first_line message +:+ String line_feed rest)%string).
Proof.
  unfold first_line.
  destruct (split line_feed message) as [|h t] eqn:E;
    [by destruct (split_not_nil line_feed message)|].
  destruct (split_head _ _ _ _ E) as [Hh [[_ ->]|(s' & -> & _)]]; eauto.
Qed.

End ParsingFacts.

(** ** Facts about the configuration and the blacklist of index.js *)

Module ConfigFacts.

Import Js Sink Annotation Orchestrator Cli.

Lemma split_pieces sep s : Forall (λ piece, occurs sep piece = false) (split sep s).
Proof.
  induction s as [|c s IH]; simpl; [by repeat constructor|].
  destruct (Ascii.eqb c sep) eqn:E; [by constructor|].
  destruct (split sep s) as [|h t]; [by repeat constructor; simpl; rewrite E|].
  apply Forall_cons in IH as [Hh Ht]. constructor; [|done]. simpl. by rewrite E.
Qed.

Lemma occurs_app c (a b : string) :
  occurs c (a +:+ b) = occurs c a || occurs c b.
Proof.
  induction a as [|x a IH]; [done|].
  change (occurs c (String x (a +:+ b)) = occurs c (String x a) || occurs c b).
  simpl. by rewrite IH, orb_assoc.
Qed.

Lemma occurs_trimStart c s : occurs c s = false → occurs c (trimStart s) = false.
Proof.
  destruct (AnnotationFacts.trimStart_suffix s) as [[w Hw] _].
  rewrite Hw at 1. rewrite occurs_app. by intros [_ ?]%orb_false_iff.
Qed.

Lemma occurs_trimEnd c s : occurs c s = false → occurs c (trimEnd s) = false.
Proof.
  destruct (AnnotationFacts.trimEnd_prefix s) as (w & Hw & _).
  rewrite Hw at 1. rewrite occurs_app. by intros [? _]%orb_false_iff.
Qed.

(** X19. The lists read from the configuration are clean.  Every entry of
    the list that [main] makes of [filter_authors], [filter_emails] or
    [blacklist_authors] is non-empty, has no white space at either end
    (none of the white-space characters and line terminators that [trim]
    removes, ASCII or not) and holds no comma; a setting that is absent or
    empty gives the empty list. *)
Theorem parse_list_clean input :
  Forall (λ a, a ≠ "" ∧ trim a = a ∧ occurs comma a = false) (parse_list input) ∧
  (truthy input = false → parse_list input = []).
Proof.
  unfold parse_list. destruct input as [s|]; [|by split].
  destruct (truthy (Some s)) eqn:Ht; [|by split]. split; [|done].
  apply Forall_forall. intros a Ha.
  apply list_elem_of_In, filter_In in Ha as [Ha Hne].
  apply in_map_iff in Ha as (piece & <- & Hin).
  simpl in Hne. apply negb_true_iff, String.eqb_neq in Hne.
  split_and!; [done|apply AnnotationFacts.trim_idemp|].
  apply occurs_trimEnd, occurs_trimStart.
  pose proof (split_pieces comma s) as Hall. rewrite Forall_forall in Hall.
  by apply Hall, list_elem_of_In.
Qed.

(** An entry that is a no-break space (U+00A0, the bytes C2 A0) or an
    ideographic space is trimmed to nothing and dropped. *)
Example parse_list_drops_blank_entries :
  parse_list (Some ("a," +:+ String (Ascii.ascii_of_nat 194)
                                (String (Ascii.ascii_of_nat 160) ",b ,　")))
  = ["a"; "b"].
Proof. vm_compute. reflexivity. Qed.

Section Facts.

Context {DB : Type} `{!Engine DB}.

Variable getCommitDetailsWithDiff : string → string → string → option CommitData.
Variable faults : CommitData → Faults.
Variable toISOString_now : CommitData → string.

#[local] Abbreviation process_commit :=
  (Cli.process_commit getCommitDetailsWithDiff faults toISOString_now).
#[local] Abbreviation commits_loop :=
  (Cli.commits_loop getCommitDetailsWithDiff faults toISOString_now).

(** X20. Blacklisted authors leave no trace.  The loop of [main] over the
    listed commits does exactly what it does on the list without the
    commits whose author name is on the blacklist: for those there is no
    look-up, no detail fetch, no annotation call and no write, and they
    add nothing to the results. *)
Theorem blacklisted_commits_are_passed_over blacklistAuthors mistral owner name
    commits (db : DB) allResults :
  commits_loop blacklistAuthors mistral owner name commits db allResults
  = commits_loop blacklistAuthors mistral owner name
      (List.filter (λ c, negb (bool_decide (author_name c ∈ blacklistAuthors))) commits)
      db allResults.
Proof.
  revert db allResults. induction commits as [|commit rest IH]; intros db allResults;
    simpl; [done|].
  destruct (decide (author_name commit ∈ blacklistAuthors)) as [Hin|Hout].
  - rewrite (bool_decide_eq_true_2 _ Hin). simpl.
    assert (Hskip : process_commit blacklistAuthors mistral owner name commit db allResults
                    = ([], db, allResults)).
    { unfold Cli.process_commit.
      rewrite (bool_decide_eq_true_2 _ Hin), andb_true_r.
      rewrite bool_decide_eq_true_2; [done|]. intros ->. by apply elem_of_nil in Hin. }
    rewrite Hskip, <- IH.
    by destruct (commits_loop blacklistAuthors mistral owner name rest db allResults)
      as [[t2 db2] r2].
  - rewrite (bool_decide_eq_false_2 _ Hout). simpl.
    destruct (process_commit blacklistAuthors mistral owner name commit db allResults)
      as [[t1 db1] r1].
    by rewrite IH.
Qed.

End Facts.

End ConfigFacts.

(** ** Facts about the queries of the server *)

Module DbFacts.

Import Js Sink Db.

(** X21. Every placeholder is bound, and no filter text enters a statement.
    For every filter the WHERE clause of [buildWhereClause] has as many
    placeholders as there are parameters, and so have the statements of
    [getCommits] and [getFilteredCount] with the values they bind; the text
    of the clause depends only on which conditions the filter switches on,
    never on the strings of the filter. *)
Theorem statements_bind_every_placeholder filters limit offset :
  placeholders (buildWhereClause filters).1 = length (buildWhereClause filters).2 ∧
  placeholders (getCommits_statement limit offset filters).1
  = length (getCommits_statement limit offset filters).2 ∧
  placeholders (getFilteredCount_statement filters).1
  = length (getFilteredCount_statement filters).2 ∧
  ∀ filters', conditions filters' = conditions filters →
              (buildWhereClause filters').1 = (buildWhereClause filters).1.
Proof.
  split_and!.
  4:{ intros filters'. unfold conditions. intros [= H1 H2 H3 H4 H5].
      unfold buildWhereClause. rewrite H1, H2, H3, H4, H5.
      by destruct (truthy (filters ≫= search)), (chosen (filters ≫= repo)),
        (chosen (filters ≫= author)), (truthy (filters ≫= dateFrom)),
        (truthy (filters ≫= dateTo)). }
  all: unfold getCommits_statement, getFilteredCount_statement, buildWhereClause;
    destruct (truthy (filters ≫= search)), (chosen (filters ≫= repo)),
      (chosen (filters ≫= author)), (truthy (filters ≫= dateFrom)),
      (truthy (filters ≫= dateTo)); reflexivity.
Qed.

Lemma filter_filter_out {A} (f : A → bool) (l : list A) :
  List.filter f (List.filter (λ x, negb (f x)) l) = [].
Proof.
  induction l as [|x l IH]; simpl; [done|].
  destruct (f x) eqn:E; simpl; [done|]. by rewrite E.
Qed.

Lemma filter_out_none {A} (f : A → bool) (l : list A) :
  List.filter f l = [] → List.filter (λ x, negb (f x)) l = l.
Proof.
  induction l as [|x l IH]; simpl; [done|].
  destruct (f x); simpl; [done|]. intros Hl. by rewrite IH.
Qed.

Lemma filter_lengths {A} (f : A → bool) (l : list A) :
  length l = length (List.filter f l) + length (List.filter (λ x, negb (f x)) l).
Proof.
  induction l as [|x l IH]; simpl; [done|]. destruct (f x); simpl; lia.
Qed.

(** What is left after [deleteCommitsByAuthors], in all three cases of the
    function. *)
Lemma deleteCommitsByAuthors_result authors (db : Tables) :
  deleteCommitsByAuthors authors db
  = (length (List.filter (λ r, bool_decide (commits.author r ∈ authors))
                         (commits_table db)),
     mkTables
       (List.filter (λ r, negb (bool_decide (commits.author r ∈ authors)))
                    (commits_table db))
       (List.filter
          (λ f, negb (bool_decide
                        (commit_files.commit_sha f
                         ∈ map commits.full_sha
                             (List.filter (λ r, bool_decide (commits.author r ∈ authors))
                                          (commits_table db)))))
          (commit_files_table db))).
Proof.
  unfold deleteCommitsByAuthors.
  set (doomed := List.filter (λ r, bool_decide (commits.author r ∈ authors))
                             (commits_table db)).
  assert (Hnone : doomed = [] →
            (0, db) = (length doomed,
                       mkTables
                         (List.filter (λ r, negb (bool_decide (commits.author r ∈ authors)))
                                      (commits_table db))
                         (List.filter
                            (λ f, negb (bool_decide
                                          (commit_files.commit_sha f
                                           ∈ map commits.full_sha doomed)))
                            (commit_files_table db)))).
  { intros Hd. rewrite Hd. simpl.
    rewrite (filter_out_none _ _ Hd).
    rewrite FetcherFacts.filter_all; [by destruct db|].
    done. }
  destruct (Nat.eqb_spec (length authors) 0) as [Ha|Ha].
  { apply Hnone. apply nil_length_inv in Ha. subst authors. unfold doomed.
    clear. induction (commits_table db) as [|r l IH]; [done|].
    simpl in *. exact IH. }
  destruct (Nat.eqb_spec (length doomed) 0) as [Hd|Hd].
  { apply Hnone. by apply nil_length_inv. }
  f_equal. unfold doomed.
  pose proof (filter_lengths (λ r, bool_decide (commits.author r ∈ authors))
                             (commits_table db)). lia.
Qed.

(** X22. Deleting the commits of some authors.  [deleteCommitsByAuthors]
    answers the number of commit rows whose author is one of [authors]
    and removes exactly those rows; it keeps the tables consistent (when
    every file row belonged to a stored commit before, it does so after);
    with full hashes unique, the file rows of the commits that stay all
    stay; and calling it again with the same authors deletes nothing and
    answers 0. *)
Theorem deleteCommitsByAuthors_spec authors (db : Tables) :
  let n := (deleteCommitsByAuthors authors db).1 in
  let db' := (deleteCommitsByAuthors authors db).2 in
  (∀ r, r ∈ commits_table db' ↔ r ∈ commits_table db ∧ commits.author r ∉ authors) ∧
  n + length (commits_table db') = length (commits_table db) ∧
  (files_have_commits db → files_have_commits db') ∧
  (NoDup (commits.full_sha <$> commits_table db) →
   ∀ f r, f ∈ commit_files_table db → r ∈ commits_table db' →
          commits.full_sha r = commit_files.commit_sha f →
          f ∈ commit_files_table db') ∧
  deleteCommitsByAuthors authors db' = (0, db').
Proof.
  rewrite deleteCommitsByAuthors_result. simpl.
  set (doomed := List.filter (λ r, bool_decide (commits.author r ∈ authors))
                             (commits_table db)).
  assert (Hkept : ∀ r,
            r ∈ List.filter (λ r, negb (bool_decide (commits.author r ∈ authors)))
                            (commits_table db)
            ↔ r ∈ commits_table db ∧ commits.author r ∉ authors).
  { intros r.
    rewrite list_elem_of_In, filter_In, <- list_elem_of_In, negb_true_iff,
      bool_decide_eq_false.
    done. }
  assert (Hdoomed : ∀ r, r ∈ doomed ↔ r ∈ commits_table db ∧ commits.author r ∈ authors).
  { intros r. unfold doomed.
    rewrite list_elem_of_In, filter_In, <- list_elem_of_In, bool_decide_eq_true. done. }
  assert (Hfiles : ∀ f,
            f ∈ List.filter
                  (λ f, negb (bool_decide (commit_files.commit_sha f
                                           ∈ map commits.full_sha doomed)))
                  (commit_files_table db)
            ↔ f ∈ commit_files_table db ∧
              commit_files.commit_sha f ∉ map commits.full_sha doomed).
  { intros f.
    rewrite list_elem_of_In, filter_In, <- list_elem_of_In, negb_true_iff,
      bool_decide_eq_false.
    done. }
  split_and!.
  - exact Hkept.
  - pose proof (filter_lengths (λ r, bool_decide (commits.author r ∈ authors))
                               (commits_table db)). fold doomed in H. lia.
  - intros Hint f [Hf Hsha]%Hfiles. destruct (Hint f Hf) as (r & Hr & Hrf).
    exists r. split; [|done]. apply Hkept. split; [done|].
    intros Hauthor. apply Hsha. rewrite <- Hrf.
    apply list_elem_of_In, in_map, list_elem_of_In, Hdoomed. done.
  - intros Hnd f r Hf [Hr Hauthor]%Hkept Hrf. apply Hfiles. split; [done|].
    intros Hin. apply list_elem_of_In, in_map_iff in Hin as (r' & Hr' & Hd).
    apply list_elem_of_In, Hdoomed in Hd as [Hd Hauthor'].
    assert (r' = r); [|by subst].
    assert (Hsame : commits.full_sha r' = commits.full_sha r) by congruence.
    clear -Hnd Hd Hr Hsame. induction (commits_table db) as [|x l IH]; [by apply elem_of_nil in Hr|].
    rewrite fmap_cons in Hnd. apply NoDup_cons in Hnd as [Hx Hnd].
    apply elem_of_cons in Hd as [->|Hd], Hr as [->|Hr]; [done| | |by apply IH].
    + destruct Hx. rewrite Hsame. by apply list_elem_of_fmap_2.
    + destruct Hx. rewrite <- Hsame. by apply list_elem_of_fmap_2.
  - rewrite deleteCommitsByAuthors_result. simpl.
    rewrite (filter_filter_out (λ r, bool_decide (commits.author r ∈ authors))).
    simpl. f_equal. f_equal.
    + apply filter_out_none, filter_filter_out.
    + apply FetcherFacts.filter_all.
      intros f.
      first [done|rewrite bool_decide_eq_false_2; [done|]; by intros ?%elem_of_nil].
Qed.

End DbFacts.

(** ** Facts about the worker with the calls that raise *)

Module RaisingFacts.

Import Js Sink Annotation Orchestrator.

Section Facts.

Context {DB : Type} `{!Engine DB}.

Variable TypeError_message : string.
Variable getCommits : string → string → FetchOptions.t → list string.
Variable getCommitDetailsWithDiff : string → string → string → option CommitData.
Variable mistral_client : string → Service.
Variable faults : CommitData → Faults.
Variable toISOString_now : CommitData → string.
Variable thirty_days_ago : Date.
Variable prepare_error : CommitData → option string.
Variable open_error getConfig_error close_error : option string.

#[local] Abbreviation analyzeCommitWithAI :=
  (Raising.analyzeCommitWithAI TypeError_message).
#[local] Abbreviation saveCommitToDB :=
  (Raising.saveCommitToDB faults toISOString_now prepare_error).
#[local] Abbreviation process_commit :=
  (Raising.process_commit TypeError_message getCommitDetailsWithDiff faults
                          toISOString_now prepare_error).
#[local] Abbreviation commits_loop :=
  (Raising.commits_loop TypeError_message getCommitDetailsWithDiff faults
                        toISOString_now prepare_error).
#[local] Abbreviation repos_loop :=
  (Raising.repos_loop TypeError_message getCommits getCommitDetailsWithDiff faults
                      toISOString_now prepare_error).
#[local] Abbreviation fetch_commits :=
  (Raising.fetch_commits TypeError_message getCommits getCommitDetailsWithDiff
                         mistral_client faults toISOString_now thirty_days_ago
                         prepare_error open_error getConfig_error close_error).

Implicit Types (db : DB) (mistral : option Service) (t : list Action).

(** *** A transaction error *)

Lemma saveCommitToDB_contained c (aiSummary : option string) db k e :
  prepare_error c = None →
  k ≤ S (length (files c)) → faults c k = Some e →
  saveCommitToDB c aiSummary db = (Returned false, db).
Proof.
  intros Hp Hk He. unfold Raising.saveCommitToDB. rewrite Hp.
  by rewrite (SinkFacts.saveCommitToDB_fault _ _ _ _ _ k e Hk He).
Qed.

(** An error of [db.prepare] is not caught: it leaves [saveCommitToDB]. *)
Lemma saveCommitToDB_raises c (aiSummary : option string) db e :
  prepare_error c = Some e → saveCommitToDB c aiSummary db = (Raised e, db).
Proof. intros Hp. unfold Raising.saveCommitToDB. by rewrite Hp. Qed.

Lemma analyzeCommitWithAI_returns mistral c :
  (∀ client, mistral = Some client → client (prompt c) ≠ RejectedWith ThrownNullish) →
  ∃ v, analyzeCommitWithAI mistral c = Returned v.
Proof.
  intros Hw. unfold Raising.analyzeCommitWithAI.
  destruct mistral as [client|]; [|by eexists].
  specialize (Hw client eq_refl).
  destruct (client (prompt c)) as [[s| |]|[|m]]; [by eexists..|done|by eexists].
Qed.

(** The commit whose transaction fails: the calls are made, the database
    and the results are left as they were, and no exception leaves the
    body of the loop. *)
Lemma process_commit_contained mistral owner name sha db results details k e :
  getCommitDetailsWithDiff owner name sha = Some details →
  (∀ client, mistral = Some client →
             client (prompt details) ≠ RejectedWith ThrownNullish) →
  prepare_error details = None →
  k ≤ S (length (files details)) → faults details k = Some e →
  ∃ asked aiSummary,
    process_commit mistral owner name sha db results
    = ([Call_getCommitDetailsWithDiff owner name sha;
        Call_getCommitFromDB (fullSha details)]
       ++ asked
       ++ [Call_saveCommitToDB (fullSha details) aiSummary false; Pause 100],
       db, results, None).
Proof.
  intros Hd Hw Hp Hk He. unfold Raising.process_commit. rewrite Hd.
  destruct (analyzeCommitWithAI_returns mistral details Hw) as [v Hv].
  assert (Hsave : ∀ ai, saveCommitToDB details ai db = (Returned false, db))
    by (intros; by eapply saveCommitToDB_contained).
  destruct (truthy _).
  - rewrite Hsave. eexists [], _. by rewrite <- app_assoc.
  - destruct mistral as [client|].
    + rewrite Hv, Hsave. eexists [_], _. by rewrite <- app_assoc.
    + rewrite Hsave. eexists [], _. by rewrite <- app_assoc.
Qed.

(** What the queue records when the worker's promise settles. *)
Lemma settlement_recorded (cs : list (@JobQueue.Call JobValue)) l now (o : WorkerOutcome) :
  NoDup (JobQueue.added_ids cs) →
  l ∈ JobQueue.awaiting (JobQueue.run cs JobQueue.init) →
  ∃ j, JobQueue.heap (JobQueue.settle l (settlement o) now
                        (JobQueue.run cs JobQueue.init)) !! l = Some j ∧
       JobQueue.completedAt j = Some now ∧
       match o with
       | Returns collected results =>
           JobQueue.status j = JobQueue.completed ∧
           JobQueue.result j = Some (FetchCommitsResult collected results)
       | Throws message =>
           JobQueue.status j = JobQueue.failed ∧
           JobQueue.error j = Some (or_else (Some message) "Unknown error")
       end.
Proof.
  intros Hnd Hin. destruct (JobQueueFacts.run_init_WF cs Hnd) as [HWF HM].
  assert (Hlt : l < length (JobQueue.heap (JobQueue.run cs (@JobQueue.init JobValue)))).
  { pose proof (JobQueue.wf_started _ HWF) as Hst. rewrite Forall_forall in Hst.
    apply Hst, JobQueueFacts.starts_in_flight. by destruct HM as (<- & _). }
  apply lookup_lt_is_Some in Hlt as [j Hj].
  pose proof (JobQueueFacts.settle_outcome _ l (settlement o) now j HWF HM Hin Hj) as Hs.
  destruct o as [collected results|message]; simpl in Hs;
    (eexists; split; [exact Hs|]); by destruct j.
Qed.

(** C3, amended.  A transaction error while a commit is saved (a statement
    of the transaction or its COMMIT fails) does not leave the persistence
    layer: [saveCommitToDB] answers [false] and the database is as before
    the call; the worker leaves that commit out of its results, pauses, and
    goes on with the next commit from the same database and the same
    results, so the error does not fail the job.  An error of [db.prepare],
    which comes before the [try], is not a transaction error and is not
    contained: it leaves [saveCommitToDB] and the loop over the commits. *)
Theorem persistence_failure_is_contained (details : CommitData) k e :
  prepare_error details = None →
  k ≤ S (length (files details)) → faults details k = Some e →
  (∀ aiSummary db0, saveCommitToDB details aiSummary db0 = (Returned false, db0)) ∧
  (∀ mistral owner name sha rest db0 results,
     getCommitDetailsWithDiff owner name sha = Some details →
     (∀ client, mistral = Some client →
                client (prompt details) ≠ RejectedWith ThrownNullish) →
     ∃ asked aiSummary,
       process_commit mistral owner name sha db0 results
       = ([Call_getCommitDetailsWithDiff owner name sha;
           Call_getCommitFromDB (fullSha details)]
          ++ asked
          ++ [Call_saveCommitToDB (fullSha details) aiSummary false; Pause 100],
          db0, results, None) ∧
       commits_loop mistral owner name (sha :: rest) db0 results
       = Raising.after_calls
           ([Call_getCommitDetailsWithDiff owner name sha;
             Call_getCommitFromDB (fullSha details)]
            ++ asked
            ++ [Call_saveCommitToDB (fullSha details) aiSummary false; Pause 100])
           (commits_loop mistral owner name rest db0 results)) ∧
  (∀ c mistral owner name sha rest db0 results e',
     getCommitDetailsWithDiff owner name sha = Some c →
     (∀ client, mistral = Some client →
                client (prompt c) ≠ RejectedWith ThrownNullish) →
     prepare_error c = Some e' →
     (∀ aiSummary, saveCommitToDB c aiSummary db0 = (Raised e', db0)) ∧
     (process_commit mistral owner name sha db0 results).1.1.2 = db0 ∧
     (process_commit mistral owner name sha db0 results).2 = Some e' ∧
     (commits_loop mistral owner name (sha :: rest) db0 results).2 = Some e').
Proof.
  intros Hp Hk He. split_and!.
  - intros. by eapply saveCommitToDB_contained.
  - intros mistral owner name sha rest db0 results Hd Hw.
    destruct (process_commit_contained mistral owner name sha db0 results details k e)
      as (asked & aiSummary & Hpc); auto.
    exists asked, aiSummary. split; [done|]. simpl. rewrite Hpc.
    by destruct (commits_loop mistral owner name rest db0 results)
      as [[[t2 db2] r2] x2].
  - intros c mistral owner name sha rest db0 results e' Hd Hw Hpe.
    assert (Hsave : ∀ ai, saveCommitToDB c ai db0 = (Raised e', db0))
      by (intros; by apply saveCommitToDB_raises).
    assert (Hpc : (process_commit mistral owner name sha db0 results).1.1.2 = db0 ∧
                  (process_commit mistral owner name sha db0 results).2 = Some e').
    { unfold Raising.process_commit. rewrite Hd.
      destruct (analyzeCommitWithAI_returns mistral c Hw) as [v Hv].
      destruct (truthy _); [by rewrite Hsave|].
      destruct mistral as [client|]; [by rewrite Hv, Hsave|by rewrite Hsave]. }
    destruct Hpc as [Hdb Hx]. split_and!; try done.
    simpl.
    destruct (process_commit mistral owner name sha db0 results) as [[[t1 db1] r1] x1].
    simpl in Hx. by subst x1.
Qed.

(** X16. What the queue records for a "fetch-commits" job.  However the
    worker ends, its promise settles with a result or with an [Error],
    never with [null] or [undefined], and when it settles for the job in
    flight, in a run with pairwise distinct ids, the queue stamps the
    completion time and records: the status 'completed' and the result
    [{collected, results}], with [collected] the length of [results], when
    the worker returned; the status 'failed' and the message of the error
    (or 'Unknown error' for an empty message) when an exception left it.
    The worker returns only if a token is configured and neither
    [new Database], nor [getConfig], nor [db.close] raised; and without a
    token, those three calls succeeding, the error is the one that asks
    for a token. *)
Theorem worker_outcome_is_recorded (cs : list (@JobQueue.Call JobValue)) l now
    jobId d config (db : DB) :
  NoDup (JobQueue.added_ids cs) →
  l ∈ JobQueue.awaiting (JobQueue.run cs JobQueue.init) →
  let o := (fetch_commits jobId d config db).2 in
  JobQueue.is_nullish_settle (JobQueue.Csettle l (settlement o) now) = false ∧
  (∃ j, JobQueue.heap (JobQueue.settle l (settlement o) now
                         (JobQueue.run cs JobQueue.init)) !! l = Some j ∧
        JobQueue.completedAt j = Some now ∧
        match o with
        | Returns collected results =>
            JobQueue.status j = JobQueue.completed ∧
            JobQueue.result j = Some (FetchCommitsResult collected results) ∧
            collected = length results
        | Throws message =>
            JobQueue.status j = JobQueue.failed ∧
            JobQueue.error j = Some (or_else (Some message) "Unknown error")
        end) ∧
  (∀ collected results, o = Returns collected results →
     truthy (github_token config) = true ∧ open_error = None ∧
     getConfig_error = None ∧ close_error = None) ∧
  (truthy (github_token config) = false →
   open_error = None → getConfig_error = None → close_error = None →
   o = Throws token_missing).
Proof.
  intros Hnd Hin o.
  assert (Hshape : ∀ collected results, o = Returns collected results →
            collected = length results ∧
            truthy (github_token config) = true ∧ open_error = None ∧
            getConfig_error = None ∧ close_error = None).
  { unfold o, Raising.fetch_commits. intros collected results.
    destruct open_error; [done|]. destruct getConfig_error; [done|].
    destruct (truthy (github_token config)); simpl; [|by destruct close_error].
    destruct (Raising.repos_loop _ _ _ _ _ _ _ _ _ _ _ _ _ _ _) as [[[t db'] rs] x].
    destruct x; [done|]. destruct close_error; [done|]. simpl.
    by intros [= <- <-]. }
  split_and!.
  - by destruct o.
  - destruct (settlement_recorded cs l now o Hnd Hin) as (j & Hj & Hc & Ho).
    exists j. split_and!; try done.
    destruct o as [collected results|message] eqn:Eo; [|done].
    destruct Ho as [? ?]. split_and!; try done.
    by destruct (Hshape collected results eq_refl).
  - intros collected results Ho. by destruct (Hshape collected results Ho) as (_ & ?).
  - intros Ht -> -> ->. unfold o, Raising.fetch_commits. by rewrite Ht.
Qed.

End Facts.

(** On a client whose errors are [Error] objects, and with a database that
    opens, prepares and closes, the worker does what [fetch_commits] of
    the sections above does. *)
Section Agreement.

Context {DB : Type} `{!Engine DB}.

Variable TypeError_message : string.
Variable getCommits : string → string → FetchOptions.t → list string.
Variable getCommitDetailsWithDiff : string → string → string → option CommitData.
Variable mistral_client : string → Client.
Variable faults : CommitData → Faults.
Variable toISOString_now : CommitData → string.
Variable thirty_days_ago : Date.

#[local] Abbreviation lift :=
  (λ r : list Action * DB * list ResultEntry.t, (r.1.1, r.1.2, r.2, @None string)).

Lemma process_commit_agrees (mistral : option Client) owner name sha (db : DB) results :
  Raising.process_commit TypeError_message getCommitDetailsWithDiff faults
    toISOString_now (λ _, None) (as_service <$> mistral) owner name sha db results
  = lift (Orchestrator.process_commit getCommitDetailsWithDiff faults toISOString_now
            mistral owner name sha db results).
Proof.
  unfold Raising.process_commit, Orchestrator.process_commit, Raising.saveCommitToDB.
  destruct (getCommitDetailsWithDiff owner name sha) as [details|]; [|done].
  destruct (truthy _).
  - simpl. destruct (Sink.saveCommitToDB _ _ _ _ _) as [[] db']; reflexivity.
  - destruct mistral as [client|].
    + pose proof (AnnotationFacts.analyzeCommitWithAI_as_service TypeError_message
                    (Some client) details) as Ha.
      simpl in *. rewrite Ha.
      destruct (Sink.saveCommitToDB _ _ _ _ _) as [[] db']; reflexivity.
    + simpl. destruct (Sink.saveCommitToDB _ _ _ _ _) as [[] db']; reflexivity.
Qed.

Lemma commits_loop_agrees (mistral : option Client) owner name shas (db : DB) results :
  Raising.commits_loop TypeError_message getCommitDetailsWithDiff faults
    toISOString_now (λ _, None) (as_service <$> mistral) owner name shas db results
  = lift (Orchestrator.commits_loop getCommitDetailsWithDiff faults toISOString_now
            mistral owner name shas db results).
Proof.
  revert db results. induction shas as [|sha rest IH]; intros db results; [done|].
  cbn [Raising.commits_loop Orchestrator.commits_loop].
  rewrite process_commit_agrees.
  destruct (Orchestrator.process_commit _ _ _ mistral owner name sha db results)
    as [[t1 db1] r1].
  simpl. rewrite IH.
  by destruct (Orchestrator.commits_loop _ _ _ mistral owner name rest db1 r1)
    as [[t2 db2] r2].
Qed.

Lemma repos_loop_agrees jobId (mistral : option Client) o limit i n rs (db : DB) results :
  Raising.repos_loop TypeError_message getCommits getCommitDetailsWithDiff faults
    toISOString_now (λ _, None) jobId (as_service <$> mistral) o limit i n rs db results
  = lift (Orchestrator.repos_loop getCommits getCommitDetailsWithDiff faults
            toISOString_now jobId mistral o limit i n rs db results).
Proof.
  revert i db results. induction rs as [|repoStr rest IH]; intros i db results; [done|].
  cbn [Raising.repos_loop Orchestrator.repos_loop].
  destruct (owner_and_name repoStr) as [[owner name]|]; [|apply IH].
  rewrite commits_loop_agrees.
  destruct (Orchestrator.commits_loop _ _ _ mistral owner name _ db results)
    as [[t1 db1] r1].
  simpl. rewrite IH.
  by destruct (Orchestrator.repos_loop _ _ _ _ jobId mistral o limit (S i) n rest db1 r1)
    as [[t2 db2] r2].
Qed.

Lemma fetch_commits_agrees jobId d config (db : DB) :
  Raising.fetch_commits TypeError_message getCommits getCommitDetailsWithDiff
    (λ key, as_service (mistral_client key)) faults toISOString_now thirty_days_ago
    (λ _, None) None None None jobId d config db
  = Orchestrator.fetch_commits getCommits getCommitDetailsWithDiff mistral_client
      faults toISOString_now thirty_days_ago jobId d config db.
Proof.
  unfold Raising.fetch_commits, Orchestrator.fetch_commits.
  destruct (truthy (github_token config)); simpl; [|done].
  assert (Hm : (if useAI d && truthy (mistral_api_key config)
                then (λ key, as_service (mistral_client key)) <$> mistral_api_key config
                else None)
               = as_service <$> (if useAI d && truthy (mistral_api_key config)
                                 then mistral_client <$> mistral_api_key config
                                 else None)).
  { destruct (useAI d && truthy (mistral_api_key config)); [|done].
    by destruct (mistral_api_key config). }
  rewrite Hm, repos_loop_agrees.
  by destruct (Orchestrator.repos_loop _ _ _ _ _ _ _ _ _ _ _ _ _) as [[t db'] results].
Qed.

End Agreement.

Lemma persistence_failure_is_contained_witness :
  (∀ aiSummary db0,
     Raising.saveCommitToDB (DB := Tables) Sample.disk_error Sample.clock Sample.prepared
       Sample.commit_abc aiSummary db0 = (Returned false, db0)) ∧
  (∀ mistral owner name sha rest db0 results,
     Sample.details_abc owner name sha = Some Sample.commit_abc →
     (∀ client, mistral = Some client →
                client (prompt Sample.commit_abc) ≠ RejectedWith ThrownNullish) →
     ∃ asked aiSummary,
       Raising.process_commit (DB := Tables) "TypeError" Sample.details_abc
         Sample.disk_error Sample.clock Sample.prepared
         mistral owner name sha db0 results
       = ([Call_getCommitDetailsWithDiff owner name sha;
           Call_getCommitFromDB (fullSha Sample.commit_abc)]
          ++ asked
          ++ [Call_saveCommitToDB (fullSha Sample.commit_abc) aiSummary false;
              Pause 100],
          db0, results, None) ∧
       Raising.commits_loop (DB := Tables) "TypeError" Sample.details_abc
         Sample.disk_error Sample.clock Sample.prepared
         mistral owner name (sha :: rest) db0 results
       = Raising.after_calls
           ([Call_getCommitDetailsWithDiff owner name sha;
             Call_getCommitFromDB (fullSha Sample.commit_abc)]
            ++ asked
            ++ [Call_saveCommitToDB (fullSha Sample.commit_abc) aiSummary false;
                Pause 100])
           (Raising.commits_loop "TypeError" Sample.details_abc Sample.disk_error
              Sample.clock Sample.prepared mistral owner name rest db0 results)) ∧
  (∀ c mistral owner name sha rest db0 results e',
     Sample.details_abc owner name sha = Some c →
     (∀ client, mistral = Some client →
                client (prompt c) ≠ RejectedWith ThrownNullish) →
     Sample.prepared c = Some e' →
     (∀ aiSummary,
        Raising.saveCommitToDB (DB := Tables) Sample.disk_error Sample.clock
          Sample.prepared c aiSummary db0 = (Raised e', db0)) ∧
     (Raising.process_commit (DB := Tables) "TypeError" Sample.details_abc
        Sample.disk_error Sample.clock Sample.prepared
        mistral owner name sha db0 results).1.1.2 = db0 ∧
     (Raising.process_commit (DB := Tables) "TypeError" Sample.details_abc
        Sample.disk_error Sample.clock Sample.prepared
        mistral owner name sha db0 results).2 = Some e' ∧
     (Raising.commits_loop (DB := Tables) "TypeError" Sample.details_abc
        Sample.disk_error Sample.clock Sample.prepared
        mistral owner name (sha :: rest) db0 results).2 = Some e').
Proof.
  apply (persistence_failure_is_contained (DB := Tables) "TypeError" Sample.details_abc
           Sample.disk_error Sample.clock Sample.prepared
           Sample.commit_abc 1 "disk I/O error").
  - reflexivity.
  - simpl. lia.
  - reflexivity.
Defined.

Lemma worker_outcome_is_recorded_witness :
  let o := (Raising.fetch_commits (DB := Tables) "TypeError" Sample.lists_abc
              Sample.details_abc (λ key, as_service (Sample.client key)) Sample.no_fault
              Sample.clock 0 Sample.no_table None None None
              "fetch-commits_1000_aaaaaaaaa" Sample.one_repo Sample.config
              Sample.empty).2 in
  JobQueue.is_nullish_settle (JobQueue.Csettle 0 (settlement o) 2000) = false ∧
  (∃ j, JobQueue.heap (JobQueue.settle 0 (settlement o) 2000
                         (JobQueue.run Sample.one_job_started JobQueue.init)) !! 0
        = Some j ∧
        JobQueue.completedAt j = Some 2000%Z ∧
        match o with
        | Returns collected results =>
            JobQueue.status j = JobQueue.completed ∧
            JobQueue.result j = Some (FetchCommitsResult collected results) ∧
            collected = length results
        | Throws message =>
            JobQueue.status j = JobQueue.failed ∧
            JobQueue.error j = Some (or_else (Some message) "Unknown error")
        end) ∧
  (∀ collected results, o = Returns collected results →
     truthy (github_token Sample.config) = true ∧ @None string = None ∧
     @None string = None ∧ @None string = None) ∧
  (truthy (github_token Sample.config) = false →
   @None string = None → @None string = None → @None string = None →
   o = Throws token_missing).
Proof.
  apply (worker_outcome_is_recorded (DB := Tables) "TypeError" Sample.lists_abc
           Sample.details_abc (λ key, as_service (Sample.client key)) Sample.no_fault
           Sample.clock 0 Sample.no_table None None None Sample.one_job_started 0 2000
           "fetch-commits_1000_aaaaaaaaa" Sample.one_repo Sample.config Sample.empty).
  - apply (bool_decide_unpack _). vm_compute. exact I.
  - apply (bool_decide_unpack _). vm_compute. exact I.
Defined.

(** Three runs of the worker on the sample repository, with a token
    configured.  The first file row cannot be written: the worker returns
    with nothing collected.  The table [commits] is missing when the commit
    is saved: the error of [db.prepare] leaves the worker, and the queue
    records the job as failed with that message.  The annotation service
    rejects with [undefined]: the [TypeError] raised in the [catch] block
    leaves the worker. *)
Example worker_runs :
  (Raising.fetch_commits (DB := Tables) "TypeError" Sample.lists_abc Sample.details_abc
     (λ key, as_service (Sample.client key)) Sample.disk_error Sample.clock 0
     Sample.prepared None None None "fetch-commits_1000_aaaaaaaaa" Sample.one_repo
     Sample.config Sample.empty).2 = Returns 0 [] ∧
  (Raising.fetch_commits (DB := Tables) "TypeError" Sample.lists_abc Sample.details_abc
     (λ key, as_service (Sample.client key)) Sample.no_fault Sample.clock 0
     Sample.no_table None None None "fetch-commits_1000_aaaaaaaaa" Sample.one_repo
     Sample.config Sample.empty)
  = ([Call_updateProgress "fetch-commits_1000_aaaaaaaaa" 100;
      Call_getCommits "acme" "widgets" Sample.options;
      Call_getCommitDetailsWithDiff "acme" "widgets" "abc1234def";
      Call_getCommitFromDB "abc1234def";
      Call_analyzeCommitWithAI "abc1234def"],
     Sample.empty, Throws "no such table: commits") ∧
  (JobQueue.status <$>
     JobQueue.heap (JobQueue.run (Sample.one_job_started
                                    ++ [JobQueue.Csettle 0
                                          (settlement (Throws "no such table: commits"))
                                          2000])
                                 JobQueue.init) !! 0)
  = Some JobQueue.failed ∧
  (Raising.fetch_commits (DB := Tables) "TypeError" Sample.lists_abc Sample.details_abc
     Sample.rejects_with_undefined Sample.no_fault Sample.clock 0
     Sample.prepared None None None "fetch-commits_1000_aaaaaaaaa" Sample.one_repo
     Sample.config Sample.empty).2 = Throws "TypeError".
Proof. split_and!; vm_compute; reflexivity. Qed.

End RaisingFacts.
